(** * Adapt core: style matching, observers, status tracking and history commits

    A shallow embedding of the parts of the Adapt core that the
    specification's testable properties talk about:

    - [StatusTracker]: core/src/deploy/status_tracker.ts
    - [Ops]: the [commit] closure of [currentState], [deployPass] and the
      deploy loop of [buildAndDeploy] in core/src/ops/buildAndDeploy.ts
    - [Observers]: core/src/observers/registry.ts
    - [Css]: the style engine (css.ts)
    - [Common]: [parseDebugString] of core/src/ops/common.ts

    JavaScript objects that the code compares or keys by reference (deploy
    nodes, elements, style rules, component types) carry an explicit
    reference number; a [Map] or [Set] keyed by such objects is a [gmap] or
    [gset] over the reference.  [async] functions whose awaits are strictly
    sequential are modelled as ordinary state-passing functions. *)

From stdpp Require Import gmap strings list pretty.

Local Open Scope Z_scope.

(** ** Exceptions and results *)

(** The two kinds of exception the modelled code throws: the project's
    [InternalError] and the plain JavaScript [Error].  Where the source
    appends [util.inspect] or [JSON.stringify] output to a message, only
    the fixed text of the message is kept. *)
Inductive Exn : Type :=
| InternalError (msg : string)
| Error (msg : string).

Inductive Result (A : Type) : Type :=
| Ok (a : A)
| Throw (e : Exn).

Arguments Ok {A} a.
Arguments Throw {A} e.

Definition isThrow {A} (r : Result A) : bool :=
  match r with Ok _ => false | Throw _ => true end.

Definition isInternalError {A} (r : Result A) : bool :=
  match r with Throw (InternalError _) => true | _ => false end.

(** ** Deploy statuses (deploy_types.ts) *)

Module DeployTypes.

(** Modelled from the spec: [DeployStatus] of deploy_types.ts, which is not
    among the sources.  The states are those of the specification's
    per-node state machine; the source names [Initial], [Waiting],
    [Deployed], [Destroyed] and [Failed] as keys of its counters. *)
Inductive DeployStatus : Type :=
| Initial | Waiting | Deploying | Destroying
| Deployed | Failed | Destroyed.

(** Modelled from the spec: [DeployStatusExt] of deploy_types.ts, the
    deploy statuses extended with the internal proxying states. *)
Inductive DeployStatusExt : Type :=
| Ext (s : DeployStatus)
| ProxyDeploying
| ProxyDestroying.

(** Modelled from the spec: [GoalStatus], the two goal-terminal statuses. *)
Inductive GoalStatus : Type := GoalDeployed | GoalDestroyed.

(** Modelled from the spec: [DeployOpStatus], a deploy status or
    [StateChanged]. *)
Inductive DeployOpStatus : Type :=
| Op (s : DeployStatus)
| StateChanged.

#[export] Instance DeployStatus_eq_dec : EqDecision DeployStatus.
Proof. solve_decision. Defined.
#[export] Instance DeployStatusExt_eq_dec : EqDecision DeployStatusExt.
Proof. solve_decision. Defined.
#[export] Instance GoalStatus_eq_dec : EqDecision GoalStatus.
Proof. solve_decision. Defined.
#[export] Instance DeployOpStatus_eq_dec : EqDecision DeployOpStatus.
Proof. solve_decision. Defined.

Definition goalStatusValue (g : GoalStatus) : DeployStatus :=
  match g with GoalDeployed => Deployed | GoalDestroyed => Destroyed end.

(** Modelled from the spec: [toDeployStatus] maps a proxying state to the
    in-progress state it stands for and leaves the others alone. *)
Definition toDeployStatus (stat : DeployStatusExt) : DeployStatus :=
  match stat with
  | ProxyDeploying => Deploying
  | ProxyDestroying => Destroying
  | Ext s => s
  end.

(** Modelled from the spec: [isFinalStatus]; [Deployed], [Destroyed] and
    [Failed] are the terminal states. *)
Definition isFinalStatus (ds : DeployStatusExt) : bool :=
  match ds with
  | Ext Deployed | Ext Destroyed | Ext Failed => true
  | _ => false
  end.

(** Modelled from the spec: [isGoalStatus]; [Deployed] and [Destroyed] are
    the goal-terminal states. *)
Definition isGoalStatus (ds : DeployStatus) : bool :=
  match ds with
  | Deployed | Destroyed => true
  | _ => false
  end.

(** Modelled from the spec: [isInProgress], the states of a running
    action. *)
Definition isInProgress (ds : DeployStatus) : bool :=
  match ds with
  | Deploying | Destroying => true
  | _ => false
  end.

(** Modelled from the spec: [isProxying]. *)
Definition isProxying (ds : DeployStatusExt) : bool :=
  match ds with
  | ProxyDeploying | ProxyDestroying => true
  | _ => false
  end.

(** Modelled from the spec: [goalToInProgress], the in-progress variant of
    a goal status. *)
Definition goalToInProgress (g : GoalStatus) : DeployStatus :=
  match g with GoalDeployed => Deploying | GoalDestroyed => Destroying end.

End DeployTypes.

(** ** The deployment store (server/deployment.ts, server/history.ts) *)

Module Server.
Import DeployTypes.

(** Modelled from the spec: [HistoryStatus] of server/history.ts, the phase
    marker of a history entry; these are the members the sources name. *)
Inductive HistoryStatus : Type :=
| complete | preAct | success | failed.

#[export] Instance HistoryStatus_eq_dec : EqDecision HistoryStatus.
Proof. solve_decision. Defined.

(** [CommitData]: a history entry without the fields [commit] fills in. *)
Record CommitData : Type := mkCommitData {
  status : HistoryStatus;
  dataDir : string;
  dependenciesJson : string;
  domXml : string;
  observationsJson : string }.

Record HistoryEntry : Type := mkHistoryEntry {
  entry : CommitData;
  fileName : string;
  projectRoot : string;
  stackName : string;
  stateJson : string }.

Record ElementStatus : Type := mkElementStatus {
  deployStatus : DeployStatus;
  error : option string }.

(** The deployment store, as far as the core writes to it: every call
    that persists something is appended to [writes]. *)
Inductive StoreWrite : Type :=
| WStatus (stepID : nat) (deployStatus : DeployOpStatus)
    (goalStatus : option GoalStatus)
    (elementStatus : option (gmap string ElementStatus))
| WElementStatus (stepID : nat) (id : string) (s : ElementStatus)
| WCommitEntry (e : HistoryEntry).

Record Deployment : Type := mkDeployment {
  nextStepID : nat;
  writes : list StoreWrite }.

(** [deployment.newStepID(opID)] hands out the next step identifier. *)
Definition newStepID (d : Deployment) (opID : nat) : nat * Deployment :=
  (nextStepID d, mkDeployment (S (nextStepID d)) (writes d)).

Definition store_write (d : Deployment) (w : StoreWrite) : Deployment :=
  mkDeployment (nextStepID d) (writes d ++ [w]).

(** [deployment.commitEntry(entry)] *)
Definition commitEntry (d : Deployment) (e : HistoryEntry) : Deployment :=
  store_write d (WCommitEntry e).

End Server.

(** ** Status tracker (status_tracker.ts) *)

Module StatusTracker.
Import DeployTypes Server.

(** [Record<DeployStatus, number>]: one counter per deploy status. *)
Record StatusCount : Type := mkCount {
  cInitial : Z; cWaiting : Z; cDeploying : Z; cDestroying : Z;
  cDeployed : Z; cFailed : Z; cDestroyed : Z }.

Definition getCount (c : StatusCount) (s : DeployStatus) : Z :=
  match s with
  | Initial => cInitial c | Waiting => cWaiting c
  | Deploying => cDeploying c | Destroying => cDestroying c
  | Deployed => cDeployed c | Failed => cFailed c
  | Destroyed => cDestroyed c
  end.

Definition setCount (c : StatusCount) (s : DeployStatus) (v : Z) : StatusCount :=
  match s with
  | Initial => mkCount v (cWaiting c) (cDeploying c) (cDestroying c) (cDeployed c) (cFailed c) (cDestroyed c)
  | Waiting => mkCount (cInitial c) v (cDeploying c) (cDestroying c) (cDeployed c) (cFailed c) (cDestroyed c)
  | Deploying => mkCount (cInitial c) (cWaiting c) v (cDestroying c) (cDeployed c) (cFailed c) (cDestroyed c)
  | Destroying => mkCount (cInitial c) (cWaiting c) (cDeploying c) v (cDeployed c) (cFailed c) (cDestroyed c)
  | Deployed => mkCount (cInitial c) (cWaiting c) (cDeploying c) (cDestroying c) v (cFailed c) (cDestroyed c)
  | Failed => mkCount (cInitial c) (cWaiting c) (cDeploying c) (cDestroying c) (cDeployed c) v (cDestroyed c)
  | Destroyed => mkCount (cInitial c) (cWaiting c) (cDeploying c) (cDestroying c) (cDeployed c) (cFailed c) v
  end.

(** [stat[k]--] and [stat[k]++] *)
Definition decr (c : StatusCount) (s : DeployStatus) : StatusCount :=
  setCount c s (getCount c s - 1).
Definition incr (c : StatusCount) (s : DeployStatus) : StatusCount :=
  setCount c s (getCount c s + 1).

Arguments decr : simpl never.
Arguments incr : simpl never.

(** [newStatus]: every key of [DeployStatus] set to 0. *)
Definition newStatus : StatusCount := mkCount 0 0 0 0 0 0 0.

Definition allStatuses : list DeployStatus :=
  [Initial; Waiting; Deploying; Destroying; Deployed; Failed; Destroyed].

(** The sum of a counter family over all deploy statuses. *)
Definition total (c : StatusCount) : Z :=
  foldr (λ s acc, getCount c s + acc) 0 allStatuses.

(** The part of a mounted element the tracker looks at.  [finalDom] is the
    answer of [isFinalDomElement], [isBuilt] that of [element.built()]. *)
Record Element : Type := mkElement {
  elId : string;
  componentName : string;
  finalDom : bool;
  isBuilt : bool;
  deployedWhenIsTrivial : bool }.

Record WaitInfo : Type := mkWaitInfo { activeAction : bool }.

(** An execution-plan node.  [nodeRef] is the identity of the JavaScript
    object: the tracker's maps are keyed by the node object itself. *)
Record EPNode : Type := mkNode {
  nodeRef : nat;
  element : option Element;
  waitInfo : WaitInfo }.

(** Modelled from the spec: [TaskState] and the task observer of
    @adpt/utils, the progress-reporting handle of a node.  Its methods
    [started], [complete], [failed] and [skipped] move the task to the
    state of the same name. *)
Inductive TaskState : Type :=
| Created | Started | Complete | TaskFailed | Skipped.

#[export] Instance TaskState_eq_dec : EqDecision TaskState.
Proof. solve_decision. Defined.

Record Task : Type := mkTask {
  state : TaskState;
  description : string;
  trivial : bool;
  taskError : option string }.

Definition task_setState (t : Task) (s : TaskState) : Task :=
  mkTask s (description t) (trivial t) (taskError t).
Definition task_started (t : Task) : Task := task_setState t Started.
Definition task_complete (t : Task) : Task := task_setState t Complete.
Definition task_skipped (t : Task) : Task := task_setState t Skipped.
Definition task_failed (t : Task) (errMessage : string) : Task :=
  mkTask TaskFailed (description t) (trivial t) (Some errMessage).
Definition task_setDescription (t : Task) (d : string) : Task :=
  mkTask (state t) d (trivial t) (taskError t).

(** Modelled from the spec: [add] on a task group, the tasks of a
    [childGroup] keyed by task name.  With [createOnly: false] it creates
    the named task when the group does not have it yet and hands back the
    task of that name. *)
Definition tGroup_add (g : gmap string Task) (id desc : string) (triv : bool)
  : gmap string Task :=
  match g !! id with
  | Some _ => g
  | None => <[id := mkTask Created desc triv None]> g
  end.

Record StatusTrackerOptions : Type := mkOptions {
  opt_deployment : Deployment;
  opt_dryRun : bool;
  opt_goalStatus : GoalStatus;
  opt_nodes : list EPNode;
  opt_deployOpID : nat;
  opt_taskObserver : gmap string Task }.

(** A JavaScript [Map] keyed by node objects, in insertion order.  Keys
    are compared by object identity, that is by [nodeRef]. *)
Fixpoint map_get {V} (m : list (EPNode * V)) (n : EPNode) : option V :=
  match m with
  | [] => None
  | (k, v) :: m' =>
      if decide (nodeRef k = nodeRef n) then Some v else map_get m' n
  end.

(** [Map.set]: an existing key keeps its place, a new one goes last. *)
Fixpoint map_set {V} (m : list (EPNode * V)) (n : EPNode) (v : V)
  : list (EPNode * V) :=
  match m with
  | [] => [(n, v)]
  | (k, w) :: m' =>
      if decide (nodeRef k = nodeRef n) then (k, v) :: m'
      else (k, w) :: map_set m' n v
  end.

(** [StatusTrackerImpl].  [taskMap] sends a node to the name of its task
    in [tasks], the child group of the task observer: two nodes whose
    elements have the same id share one task object. *)
Record Tracker : Type := mkTracker {
  deployment : Deployment;
  dryRun : bool;
  goalStatus : GoalStatus;
  nodeStatus : StatusCount;
  nonPrimStatus : StatusCount;
  deployOpID : nat;
  primStatus : StatusCount;
  statMap : list (EPNode * DeployStatusExt);
  taskMap : gmap nat string;
  tasks : gmap string Task;
  stepID : option nat }.

Definition with_deployment (t : Tracker) (d : Deployment) : Tracker :=
  mkTracker d (dryRun t) (goalStatus t) (nodeStatus t) (nonPrimStatus t)
    (deployOpID t) (primStatus t) (statMap t) (taskMap t) (tasks t) (stepID t).
Definition with_counts (t : Tracker) (ns nps ps : StatusCount) : Tracker :=
  mkTracker (deployment t) (dryRun t) (goalStatus t) ns nps
    (deployOpID t) ps (statMap t) (taskMap t) (tasks t) (stepID t).
Definition with_statMap (t : Tracker) (m : list (EPNode * DeployStatusExt)) : Tracker :=
  mkTracker (deployment t) (dryRun t) (goalStatus t) (nodeStatus t)
    (nonPrimStatus t) (deployOpID t) (primStatus t) m (taskMap t) (tasks t)
    (stepID t).
Definition with_tasks (t : Tracker) (tm : gmap nat string) (g : gmap string Task) : Tracker :=
  mkTracker (deployment t) (dryRun t) (goalStatus t) (nodeStatus t)
    (nonPrimStatus t) (deployOpID t) (primStatus t) (statMap t) tm g
    (stepID t).
Definition with_stepID (t : Tracker) (s : option nat) : Tracker :=
  mkTracker (deployment t) (dryRun t) (goalStatus t) (nodeStatus t)
    (nonPrimStatus t) (deployOpID t) (primStatus t) (statMap t) (taskMap t)
    (tasks t) s.

Definition shouldTrackStatus (n : EPNode) : bool :=
  match element n with Some _ => true | None => false end.

Definition isTrivial (n : EPNode) : bool :=
  if activeAction (waitInfo n) then false
  else match element n with
       | Some el => if isBuilt el then deployedWhenIsTrivial el else true
       | None => true
       end.

(** One turn of the [options.nodes.map] callback of the constructor,
    together with the insertion of the entry it returns into [statMap]. *)
Definition constructor_step (t : Tracker) (n : EPNode) : Tracker :=
  let t1 :=
    match element n with
    | Some el =>
        let t' :=
          if finalDom el
          then with_counts t (nodeStatus t) (nonPrimStatus t) (incr (primStatus t) Waiting)
          else with_counts t (nodeStatus t) (incr (nonPrimStatus t) Waiting) (primStatus t) in
        if shouldTrackStatus n then
          with_tasks t' (<[nodeRef n := elId el]> (taskMap t'))
            (tGroup_add (tasks t') (elId el) (componentName el) (isTrivial n))
        else t'
    | None => t
    end in
  with_statMap t1 (map_set (statMap t1) n (Ext Waiting)).

Definition constructor (options : StatusTrackerOptions) : Tracker :=
  let t0 :=
    mkTracker (opt_deployment options) (opt_dryRun options)
      (opt_goalStatus options)
      (setCount newStatus Waiting (Z.of_nat (length (opt_nodes options))))
      newStatus (opt_deployOpID options) newStatus
      [] ∅ (opt_taskObserver options) None in
  foldl constructor_step t0 (opt_nodes options).

(** [elementStatus] object built by [initDeploymentStatus]: every
    element-bearing entry of [statMap], in insertion order. *)
Definition initialElementStatus (m : list (EPNode * DeployStatusExt))
  : gmap string ElementStatus :=
  foldl (λ acc e,
           match element (fst e) with
           | None => acc
           | Some el => <[elId el := mkElementStatus (toDeployStatus (snd e)) None]> acc
           end) ∅ m.

Definition initDeploymentStatus (t : Tracker) : Tracker :=
  if dryRun t then t
  else
    let '(sid, d1) := newStepID (deployment t) (deployOpID t) in
    let t1 := with_stepID (with_deployment t d1) (Some sid) in
    let deploymentDeployStatus := goalToInProgress (goalStatus t1) in
    let elementStatus := initialElementStatus (statMap t1) in
    with_deployment t1
      (store_write (deployment t1)
         (WStatus sid (Op deploymentDeployStatus) (Some (goalStatus t1))
            (Some elementStatus))).

Definition createStatusTracker (options : StatusTrackerOptions) : Tracker :=
  initDeploymentStatus (constructor options).

Definition get (t : Tracker) (n : EPNode) : Result DeployStatusExt :=
  match map_get (statMap t) n with
  | None => Throw (InternalError "Unrecognized node: ")
  | Some stat => Ok stat
  end.

Definition getTask (t : Tracker) (n : EPNode) : Result (option string) :=
  if negb (shouldTrackStatus n) then Ok None
  else
    match taskMap t !! nodeRef n with
    | None => Throw (InternalError "No task observer found for node")
    | Some name =>
        match tasks t !! name with
        | None => Throw (InternalError "No task observer found for node")
        | Some _ => Ok (Some name)
        end
    end.

Definition writeStatus (t : Tracker) (n : EPNode) (err : option string)
  : Result unit * Tracker :=
  match element n, stepID t with
  | Some el, Some sid =>
      match get t n with
      | Throw e => (Throw e, t)
      | Ok statExt =>
          let deployStatus := toDeployStatus statExt in
          let s := mkElementStatus deployStatus err in
          (Ok (), with_deployment t
                    (store_write (deployment t) (WElementStatus sid (elId el) s)))
      end
  | _, _ => (Ok (), t)
  end.

(** What [updateTask] does to the task once it has found it. *)
Definition updateTask_on (dry : bool) (task : Task) (oldStat : DeployStatusExt)
    (newStat : DeployStatus) (err : option string) (descr : option string) : Task :=
  let task :=
    match descr with
    | Some d => if decide (d = "") then task else task_setDescription task d
    | None => task
    end in
  match err with
  | Some msg => task_failed task msg
  | None =>
      if dry then
        if isGoalStatus newStat then
          if bool_decide (state task = Created) || bool_decide (state task = Started)
          then task_skipped task else task
        else task
      else
        if isInProgress newStat && negb (isProxying oldStat) then
          if decide (state task = Created) then task_started task else task
        else if isGoalStatus newStat then
          if decide (state task = Started) then task_complete task else task
        else task
  end.

Definition updateTask (t : Tracker) (n : EPNode) (oldStat : DeployStatusExt)
    (newStat : DeployStatus) (err : option string) (descr : option string)
  : Result unit * Tracker :=
  match getTask t n with
  | Throw e => (Throw e, t)
  | Ok None => (Ok (), t)
  | Ok (Some name) =>
      (Ok (),
       with_tasks t (taskMap t)
         (alter (λ task, updateTask_on (dryRun t) task oldStat newStat err descr)
            name (tasks t)))
  end.

Definition updateCount (t : Tracker) (n : EPNode) (oldStat newStat : DeployStatus)
  : Tracker :=
  let ns := incr (decr (nodeStatus t) oldStat) newStat in
  match element n with
  | Some el =>
      if finalDom el
      then with_counts t ns (nonPrimStatus t) (incr (decr (primStatus t) oldStat) newStat)
      else with_counts t ns (incr (decr (nonPrimStatus t) oldStat) newStat) (primStatus t)
  | None => with_counts t ns (nonPrimStatus t) (primStatus t)
  end.

(** [set]: the result of the call and the tracker it leaves behind (also
    when it throws). *)
Definition set (t : Tracker) (n : EPNode) (statExt : DeployStatusExt)
    (err : option string) (descr : option string) : Result bool * Tracker :=
  match get t n with
  | Throw e => (Throw e, t)
  | Ok oldStat =>
      if bool_decide (statExt = oldStat) || isFinalStatus oldStat then (Ok false, t)
      else
        let deployStatus := toDeployStatus statExt in
        let t1 := with_statMap t (map_set (statMap t) n statExt) in
        let t2 := updateCount t1 n (toDeployStatus oldStat) deployStatus in
        match updateTask t2 n oldStat deployStatus err descr with
        | (Throw e, t3) => (Throw e, t3)
        | (Ok _, t3) =>
            match writeStatus t3 n err with
            | (Throw e, t4) => (Throw e, t4)
            | (Ok _, t4) => (Ok true, t4)
            end
        end
  end.

Definition isFinal (t : Tracker) (n : EPNode) : Result bool :=
  match get t n with
  | Throw e => Throw e
  | Ok s => Ok (isFinalStatus s)
  end.

Definition isActive (t : Tracker) (n : EPNode) : Result bool :=
  match get t n with
  | Throw e => Throw e
  | Ok s => Ok (negb (isFinalStatus s))
  end.

Record ExecuteComplete : Type := mkExecuteComplete {
  deploymentStatus : DeployOpStatus;
  ec_nodeStatus : StatusCount;
  ec_nonPrimStatus : StatusCount;
  ec_primStatus : StatusCount;
  ec_stateChanged : bool }.

Definition complete (t : Tracker) (stateChanged : bool)
  : Result ExecuteComplete * Tracker :=
  if decide (getCount (nodeStatus t) Initial > 0) then
    (Throw (InternalError "Nodes should not be in Initial state "), t)
  else
    let atGoal := getCount (nodeStatus t) Deployed + getCount (nodeStatus t) Destroyed in
    let deploymentStatus :=
      if decide (getCount (nodeStatus t) Failed > 0) then Op Failed
      else if decide (atGoal = Z.of_nat (length (statMap t))) then Op (goalStatusValue (goalStatus t))
      else if stateChanged then StateChanged
      else Op (goalToInProgress (goalStatus t)) in
    let t' :=
      match stepID t with
      | Some sid =>
          with_deployment t
            (store_write (deployment t) (WStatus sid deploymentStatus None None))
      | None => t
      end in
    (Ok (mkExecuteComplete deploymentStatus (nodeStatus t) (nonPrimStatus t)
           (primStatus t) stateChanged), t').

(** The tracker after a sequence of [set] calls, whatever each returns. *)
Record SetCall : Type := mkSetCall {
  sc_node : EPNode;
  sc_status : DeployStatusExt;
  sc_err : option string;
  sc_description : option string }.

Definition runSet (t : Tracker) (c : SetCall) : Tracker :=
  snd (set t (sc_node c) (sc_status c) (sc_err c) (sc_description c)).

Definition runSets (t : Tracker) (cs : list SetCall) : Tracker :=
  foldl runSet t cs.

(** *** Vocabulary of the tracker's properties *)

(** The trackers a caller can get hold of: a freshly constructed one, and
    whatever [initDeploymentStatus], [set] and [complete] leave behind. *)
Inductive reachable (options : StatusTrackerOptions) : Tracker → Prop :=
| reach_new : reachable options (constructor options)
| reach_init t :
    reachable options t → reachable options (initDeploymentStatus t)
| reach_set t n statExt err descr :
    reachable options t → reachable options (snd (set t n statExt err descr))
| reach_complete t stateChanged :
    reachable options t → reachable options (snd (complete t stateChanged)).

Definition isPrimNode (n : EPNode) : bool :=
  match element n with Some el => finalDom el | None => false end.
Definition isNonPrimNode (n : EPNode) : bool :=
  match element n with Some el => negb (finalDom el) | None => false end.

Definition countNodes (f : EPNode → bool) (l : list EPNode) : Z :=
  Z.of_nat (length (filter (λ n, f n = true) l)).

(** Number of [statMap] entries whose deploy status is [s]. *)
Definition countStat (m : list (EPNode * DeployStatusExt)) (s : DeployStatus) : Z :=
  Z.of_nat (length (filter (λ e, toDeployStatus (snd e) = s) m)).

Definition anyNodeAt (t : Tracker) (s : DeployStatus) : bool :=
  existsb (λ e, bool_decide (toDeployStatus (snd e) = s)) (statMap t).

Definition allNodesAtGoal (t : Tracker) : bool :=
  forallb (λ e, isGoalStatus (toDeployStatus (snd e))) (statMap t).

(** Kronecker delta on deploy statuses. *)
Definition delta (a b : DeployStatus) : Z := if decide (a = b) then 1 else 0.

Definition sums_ok (nodes : list EPNode) (t : Tracker) : Prop :=
  total (primStatus t) = countNodes isPrimNode nodes ∧
  total (nonPrimStatus t) = countNodes isNonPrimNode nodes.

(** The counters other than [Waiting] count the nodes at their status.
    ([Waiting] starts at the length of the node array, which counts a node
    that is listed twice as two.) *)
Definition counts_ok (t : Tracker) : Prop :=
  ∀ s, s ≠ Waiting → getCount (nodeStatus t) s = countStat (statMap t) s.

Definition tracked (options : StatusTrackerOptions) (t : Tracker) : Prop :=
  ∀ n, is_Some (map_get (statMap t) n)
       ↔ nodeRef n ∈ nodeRef <$> opt_nodes options.

(** The node list of a tracker names no object under two references and
    no two objects under one: [nodeRef] is the identity of the node. *)
Definition refs_identify (nodes : list EPNode) : Prop :=
  ∀ n m, n ∈ nodes → m ∈ nodes → nodeRef n = nodeRef m → n = m.

(** Every element-bearing node of [nodes] has a task name in [taskMap],
    and every task name of [taskMap] has its task in the group. *)
Definition tasks_ok (nodes : list EPNode) (t : Tracker) : Prop :=
  (∀ n, n ∈ nodes → element n ≠ None → is_Some (taskMap t !! nodeRef n)) ∧
  (∀ ref name, taskMap t !! ref = Some name → is_Some (tasks t !! name)).

(** The task of every element-bearing node of [nodes] is filed in
    [taskMap] under the ID of the node's element. *)
Definition taskMap_ok (nodes : list EPNode) (t : Tracker) : Prop :=
  ∀ n el, n ∈ nodes → element n = Some el →
          taskMap t !! nodeRef n = Some (elId el).

(** Number of [statMap] entries at deploy status [s] whose node
    satisfies [f]. *)
Definition countStatIf (f : EPNode → bool) (m : list (EPNode * DeployStatusExt))
    (s : DeployStatus) : Z :=
  Z.of_nat (length (filter (λ e, f (fst e) = true ∧ toDeployStatus (snd e) = s) m)).

(** [set] calls on the nodes the tracker was built over. *)
Definition ownSets (options : StatusTrackerOptions) (calls : list SetCall) : Prop :=
  Forall (λ c, sc_node c ∈ opt_nodes options) calls.

(** The status map and the [primStatus] and [nonPrimStatus] counters once
    the constructor has gone through the nodes [done], no two of them the
    same object. *)
Definition constructed (done : list EPNode) (t : Tracker) : Prop :=
  statMap t = (λ n, (n, Ext Waiting)) <$> done ∧
  (∀ s, getCount (primStatus t) s = countStatIf isPrimNode (statMap t) s) ∧
  (∀ s, getCount (nonPrimStatus t) s = countStatIf isNonPrimNode (statMap t) s).

(** Every counter counts the nodes at its status, and the keys of
    [statMap] are nodes of the tracker. *)
Definition counters_exact (options : StatusTrackerOptions) (t : Tracker) : Prop :=
  Forall (λ e, fst e ∈ opt_nodes options) (statMap t) ∧
  (∀ s, getCount (nodeStatus t) s = countStat (statMap t) s) ∧
  (∀ s, getCount (primStatus t) s = countStatIf isPrimNode (statMap t) s) ∧
  (∀ s, getCount (nonPrimStatus t) s = countStatIf isNonPrimNode (statMap t) s).

(** *** A small deployment

    Three nodes: a primitive element with an action, a non-primitive
    element, and a node without element. *)
Definition ex_nodeA : EPNode :=
  mkNode 1 (Some (mkElement "a" "CompA" true true false)) (mkWaitInfo true).
Definition ex_nodeB : EPNode :=
  mkNode 2 (Some (mkElement "b" "CompB" false true false)) (mkWaitInfo false).
Definition ex_nodeC : EPNode := mkNode 3 None (mkWaitInfo false).

Definition ex_options : StatusTrackerOptions :=
  mkOptions (mkDeployment 0 []) false GoalDeployed
    [ex_nodeA; ex_nodeB; ex_nodeC] 0 ∅.

Definition ex_dry_options : StatusTrackerOptions :=
  mkOptions (mkDeployment 0 []) true GoalDeployed
    [ex_nodeA; ex_nodeB; ex_nodeC] 0 ∅.

(** The tracker after node A has failed. *)
Definition ex_failed : Tracker :=
  snd (set (createStatusTracker ex_options) ex_nodeA (Ext Failed) (Some "boom") None).

End StatusTracker.

(** ** History commits (ops/buildAndDeploy.ts) *)

Module Ops.
Import DeployTypes Server StatusTracker.

(** What the [commit] closure of [currentState] captures: its variable
    [lastCommit], the fields of [ret] it reads, the state store (as the
    text [stateStore.serialize()] gives) and the deployment. *)
Record CommitEnv : Type := mkCommitEnv {
  lastCommit : option HistoryStatus;
  env_dryRun : bool;
  env_fileName : string;
  env_projectRoot : string;
  env_stackName : string;
  env_stateStore : string;
  env_deployment : Deployment }.

Definition with_lastCommit (env : CommitEnv) (s : option HistoryStatus) : CommitEnv :=
  mkCommitEnv s (env_dryRun env) (env_fileName env) (env_projectRoot env)
    (env_stackName env) (env_stateStore env) (env_deployment env).

Definition with_env_deployment (env : CommitEnv) (d : Deployment) : CommitEnv :=
  mkCommitEnv (lastCommit env) (env_dryRun env) (env_fileName env)
    (env_projectRoot env) (env_stackName env) (env_stateStore env) d.

Section Commit.

(** [isStatusComplete] of server/history.ts is not among the sources: it
    is a parameter of [commit]. *)
Variable isStatusComplete : HistoryStatus → bool.

(** [commit(entry)]: the result and the closure's state afterwards.  A
    defined [lastCommit] is a non-empty string, hence truthy. *)
Definition commit (env : CommitEnv) (entry : CommitData) : Result unit * CommitEnv :=
  if bool_decide (lastCommit env = Some preAct)
     && bool_decide (status entry = preAct) then (Ok (), env)
  else if match lastCommit env with
          | Some lc => isStatusComplete lc
          | None => false
          end
  then (Throw (InternalError "Attempt to commit a repeated final HistoryStatus"), env)
  else
    let env1 := with_lastCommit env (Some (status entry)) in
    if negb (env_dryRun env1) then
      (Ok (),
       with_env_deployment env1
         (commitEntry (env_deployment env1)
            (mkHistoryEntry entry (env_fileName env1) (env_projectRoot env1)
               (env_stackName env1) (env_stateStore env1))))
    else (Ok (), env1).

End Commit.

(** Modelled from the spec: an action of the act phase, whose code
    (plugin_support.ts and the execution plan) is not among the sources:
    the node it acts on, its executor function (by reference) and its
    description. *)
Record Action : Type := mkAction {
  act_node : EPNode;
  act_executor : nat;
  act_description : string }.

(** Modelled from the spec: running one action.  In dry-run mode,
    eligible actions are marked skipped in the status tracker without
    being executed: the executor runs unless the pass is a dry run, and
    the node's status is then set to the goal status.  The second
    component lists the executors that were invoked. *)
Definition actOne (st : Tracker * list nat) (a : Action) : Tracker * list nat :=
  let '(t, executed) := st in
  let executed' := if dryRun t then executed else executed ++ [act_executor a] in
  (snd (set t (act_node a) (Ext (goalStatusValue (goalStatus t))) None
          (Some (act_description a))),
   executed').

(** Modelled from the spec: the act phase over the actions of a pass. *)
Definition act (t : Tracker) (actions : list Action) : Tracker * list nat :=
  foldl actOne (t, []) actions.

(** *** The deploy passes of [buildAndDeploy] *)

Definition with_stateStore (env : CommitEnv) (s : string) : CommitEnv :=
  mkCommitEnv (lastCommit env) (env_dryRun env) (env_fileName env)
    (env_projectRoot env) (env_stackName env) s (env_deployment env).

(** The strings one pass of [deployPass] computes before it acts and
    hands to [commit]: [dependenciesJson], [buildResults.domXml] and
    [observationsJson]. *)
Record PassData : Type := mkPassData {
  pd_dependenciesJson : string;
  pd_domXml : string;
  pd_observationsJson : string }.

(** What the collaborators of one pass do.  The rebuild and the plugin
    manager's [start], [observe] and [analyze] either throw or produce the
    pass data; [mgr.act] and [mgr.finish] then either throw or return
    [deployComplete] and [stateChanged].  The strings [rebuilt] and
    [acted] are what [stateStore.serialize()] gives after the rebuild and
    after the act phase. *)
Inductive PassOutcome : Type :=
| PrepareThrows (rebuilt : string) (e : Exn)
| ActThrows (d : PassData) (rebuilt acted : string) (e : Exn)
| ActReturns (d : PassData) (rebuilt acted : string)
    (deployComplete stateChanged : bool).

(** [DeployPassResults], as far as the loop of [buildAndDeploy] reads
    it. *)
Record DeployPassResults : Type := mkDeployPassResults {
  res_data : PassData;
  deployComplete : bool;
  stateChanged : bool }.

(** The entry [deployPass] and [buildAndDeploy] hand to [commit]. *)
Definition passEntry (s : HistoryStatus) (dataDir : string) (d : PassData)
  : CommitData :=
  mkCommitData s dataDir (pd_dependenciesJson d) (pd_domXml d)
    (pd_observationsJson d).

Section DeployPass.

Variable isStatusComplete : HistoryStatus → bool.

(** [deployPass(options)], with [options.commit] the closure of
    [currentState]: the [preAct] commit, the act phase, and the [failed]
    commit of the [catch] block. *)
Definition deployPass (env : CommitEnv) (dataDir : string) (o : PassOutcome)
  : Result DeployPassResults * CommitEnv :=
  match o with
  | PrepareThrows rebuilt e => (Throw e, with_stateStore env rebuilt)
  | ActThrows d rebuilt acted e =>
      match commit isStatusComplete (with_stateStore env rebuilt)
              (passEntry preAct dataDir d) with
      | (Throw e', env1) => (Throw e', env1)
      | (Ok _, env1) =>
          match commit isStatusComplete (with_stateStore env1 acted)
                  (passEntry failed dataDir d) with
          | (Throw e', env2) => (Throw e', env2)
          | (Ok _, env2) => (Throw e, env2)
          end
      end
  | ActReturns d rebuilt acted deployComplete stateChanged =>
      match commit isStatusComplete (with_stateStore env rebuilt)
              (passEntry preAct dataDir d) with
      | (Throw e', env1) => (Throw e', env1)
      | (Ok _, env1) =>
          (Ok (mkDeployPassResults d deployComplete stateChanged),
           with_stateStore env1 acted)
      end
  end.

(** The [while (true)] loop of [buildAndDeploy], over the outcomes of the
    passes it goes through; [None] when the loop has not ended after
    these. *)
Fixpoint deployPasses (env : CommitEnv) (dataDir : string)
    (passes : list PassOutcome) : option (Result DeployPassResults * CommitEnv) :=
  match passes with
  | [] => None
  | o :: rest =>
      match deployPass env dataDir o with
      | (Throw e, env1) => Some (Throw e, env1)
      | (Ok res, env1) =>
          if negb (deployComplete res) && negb (stateChanged res) then
            Some (Throw (Error "TODO: Need to implement retry/timeout still"), env1)
          else if deployComplete res && negb (stateChanged res) then
            match commit isStatusComplete env1
                    (passEntry success dataDir (res_data res)) with
            | (Throw e, env2) => Some (Throw e, env2)
            | (Ok _, env2) => Some (Ok res, env2)
            end
          else deployPasses env1 dataDir rest
      end
  end.

End DeployPass.

(** The pass data of an outcome, and the state the store is in when the
    pass commits [preAct]. *)
Definition outcomeData (o : PassOutcome) : option (PassData * string) :=
  match o with
  | PrepareThrows _ _ => None
  | ActThrows d rebuilt _ _ | ActReturns d rebuilt _ _ _ => Some (d, rebuilt)
  end.

(** The history entry [commit] writes for [entry] when the state store
    serializes to [stateJson]. *)
Definition historyEntry (env : CommitEnv) (stateJson : string) (entry : CommitData)
  : HistoryEntry :=
  mkHistoryEntry entry (env_fileName env) (env_projectRoot env)
    (env_stackName env) stateJson.

(** A pass after which the loop goes round again. *)
Definition repeats (o : PassOutcome) : bool :=
  match o with
  | ActReturns _ _ _ _ stateChanged => stateChanged
  | _ => false
  end.

(** *** A small history *)

Definition ex_isStatusComplete (s : HistoryStatus) : bool :=
  negb (bool_decide (s = preAct)).

Definition ex_env : CommitEnv :=
  mkCommitEnv None false "index.tsx" "/project" "dev" "{}" (mkDeployment 0 []).

Definition ex_dry_env : CommitEnv :=
  mkCommitEnv None true "index.tsx" "/project" "dev" "{}" (mkDeployment 0 []).

Definition ex_entry (s : HistoryStatus) : CommitData :=
  mkCommitData s "/data" "{}" "<Adapt/>" "{}".

(** Two passes: the first changes state, the second completes the
    deployment. *)
Definition ex_passData : PassData := mkPassData "{}" "<Adapt/>" "{}".

Definition ex_passes : list PassOutcome :=
  [ ActReturns ex_passData "{}" "{}" false true;
    ActReturns ex_passData "{}" "{}" true false ].

End Ops.

(** ** Observer registry (observers/registry.ts) *)

Module Observers.

(** Queries and observation payloads are opaque to the registry. *)
Definition ExecutedQuery : Type := string.
Definition ObserverResponse : Type := string.

(** A value thrown by an observer: an [Error] with its message, or some
    other value, of which [util.inspect] gives the text [inspected]. *)
Inductive Thrown : Type :=
| ThrownError (message : string)
| ThrownOther (inspected : string).

(** What the promise returned by [obs.observe(queries)] settles to. *)
Inductive Settled : Type :=
| Resolved (observations : ObserverResponse)
| Rejected (e : Thrown).

(** An observer plugin: its schema, and what the promise of
    [observe(queries)] settles to.  An observer that is named twice in one
    call of the registry's [observe] answers the same both times. *)
Record ObserverPlugin : Type := mkObserverPlugin {
  schema : string;
  plugin_observe : list ExecutedQuery → Settled }.

(** One entry of [Observations]. *)
Record Observation : Type := mkObservation {
  observations : ObserverResponse;
  queries : list ExecutedQuery }.

(** The module-level registry [observers], a JavaScript object used as a
    map from observer names to plugins, is a [gmap string ObserverPlugin]
    argument of the functions below: the map holds the own properties of
    the object.  The object is created by [{}], so that it also has the
    properties every object inherits from [Object.prototype]. *)

(** The names every object inherits from [Object.prototype]: for these,
    [name in observers] answers [true] and [observers[name]] is not
    [undefined], whatever has been registered. *)
Definition objectPrototypeNames : list string :=
  [ "constructor"; "__defineGetter__"; "__defineSetter__"; "hasOwnProperty";
    "__lookupGetter__"; "__lookupSetter__"; "isPrototypeOf";
    "propertyIsEnumerable"; "toString"; "valueOf"; "__proto__";
    "toLocaleString" ].

(** What [observers[name]] gives: a registered plugin, a property
    inherited from [Object.prototype], or [undefined]. *)
Inductive Found : Type :=
| FoundPlugin (obs : ObserverPlugin)
| FoundInherited
| NotFound.

(** [observers[name]]; this is also what [findObserver(observer)]
    returns, with [name] the [observerName] of [observer]. *)
Definition findObserver (observers : gmap string ObserverPlugin) (name : string)
  : Found :=
  match observers !! name with
  | Some obs => FoundPlugin obs
  | None =>
      if bool_decide (name ∈ objectPrototypeNames) then FoundInherited
      else NotFound
  end.

(** [name in observers] *)
Definition hasProperty (observers : gmap string ObserverPlugin) (name : string)
  : bool :=
  bool_decide (is_Some (observers !! name))
  || bool_decide (name ∈ objectPrototypeNames).

(** An observation that [observe] has started: the body of [waitP] up to
    its [await]. *)
Record Started : Type := mkStarted {
  st_name : string;
  st_queries : list ExecutedQuery;
  st_settled : Settled }.

(** The [for (const name of observerNames)] loop: the promises pushed on
    [waitFors], in loop order.

    A name is passed over when [observers[name]] is [undefined].  For a
    name inherited from [Object.prototype] it is not: [obs] is then a
    built-in member, which has no [observe] method, and the call
    [obs.observe(queries)] throws a [TypeError] inside the [try] block
    of [waitP], where it is handled as the failure of an observer.
    [notCallable] is the message that the JavaScript engine gives this
    [TypeError]; [queries] is not read in this case.

    [registerObserver] refuses the names of [objectPrototypeNames], so
    that for a registered observer [executedQueries[name]] is an own
    property or [undefined]. *)
Fixpoint startAll (notCallable : string) (observers : gmap string ObserverPlugin)
    (executedQueries : gmap string (list ExecutedQuery))
    (observerNames : list string) : list Started :=
  match observerNames with
  | [] => []
  | name :: rest =>
      match findObserver observers name with
      | NotFound => startAll notCallable observers executedQueries rest
      | FoundPlugin obs =>
          let queries :=
            match executedQueries !! name with Some q => q | None => [] end in
          mkStarted name queries (plugin_observe obs queries)
          :: startAll notCallable observers executedQueries rest
      | FoundInherited =>
          mkStarted name [] (Rejected (ThrownError notCallable))
          :: startAll notCallable observers executedQueries rest
      end
  end.

(** The observations run concurrently and settle in an order the code does
    not control.  [sched] picks, at each turn, which of the pending
    promises settles next; every [sched] gives an order. *)
Fixpoint settleOrder {A} (n : nat) (sched : list nat) (pending : list A) : list A :=
  match n with
  | O => []
  | S n' =>
      let i := (hd 0 sched `mod` length pending)%nat in
      match pending !! i with
      | Some x => x :: settleOrder n' (tl sched) (delete i pending)
      | None => []
      end
  end.

(** The variables [ret] and [errors] of [observe], and the logger. *)
Record ObserveState : Type := mkObserveState {
  ret : gmap string Observation;
  errors : list string;
  warnings : list string }.

Definition thrownMessage (e : Thrown) : string :=
  match e with
  | ThrownError m => m
  | ThrownOther inspected => inspected
  end.

(** The rest of [waitP], run when its observation settles. *)
Definition settle (st : ObserveState) (w : Started) : ObserveState :=
  match st_settled w with
  | Resolved o =>
      mkObserveState (<[st_name w := mkObservation o (st_queries w)]> (ret st))
        (errors st) (warnings st)
  | Rejected e =>
      let msg := "Error observing for " +:+ st_name w +:+ ": " +:+ thrownMessage e in
      mkObserveState (ret st) (errors st ++ [msg]) (warnings st ++ [msg])
  end.

Definition newline : string := String (Ascii.ascii_of_nat 10) EmptyString.

(** The error [observe] throws: its message and its [observations]. *)
Record ObserveError : Type := mkObserveError {
  message : string;
  err_observations : gmap string Observation }.

Inductive ObserveResult : Type :=
| Returns (r : gmap string Observation)
| Throws (e : ObserveError).

Record ObserveRun : Type := mkObserveRun {
  result : ObserveResult;
  logged : list string;
  calls : list (string * list ExecutedQuery) }.

(** The started observations that are a call of a registered observer. *)
Definition isCall (observers : gmap string ObserverPlugin) (w : Started) : bool :=
  bool_decide (is_Some (observers !! st_name w)).

(** [observe(executedQueries, logger, observerNames)].  [logger] holds the
    warnings logged so far; [calls] records the observers invoked, with
    the queries handed to each. *)
Definition observe (notCallable : string) (observers : gmap string ObserverPlugin)
    (executedQueries : gmap string (list ExecutedQuery))
    (logger : list string) (observerNames : list string)
    (sched : list nat) : ObserveRun :=
  let waitFors := startAll notCallable observers executedQueries observerNames in
  let st :=
    foldl settle (mkObserveState ∅ [] logger)
      (settleOrder (length waitFors) sched waitFors) in
  let res :=
    if bool_decide (length (errors st) ≠ 0%nat) then
      Throws (mkObserveError
                ("Errors during observations:" +:+ newline
                 +:+ String.concat newline (errors st))
                (ret st))
    else Returns (ret st) in
  mkObserveRun res (warnings st)
    ((λ w, (st_name w, st_queries w))
       <$> filter (λ w, isCall observers w = true) waitFors).

(** *** Vocabulary of the registry's properties *)

Definition succeeded (w : Started) : bool :=
  match st_settled w with Resolved _ => true | Rejected _ => false end.

Definition failureMessage (w : Started) : option string :=
  match st_settled w with
  | Resolved _ => None
  | Rejected e =>
      Some ("Error observing for " +:+ st_name w +:+ ": " +:+ thrownMessage e)
  end.

(** The observations a run hands to its caller: the value returned, or
    the [observations] field of the error thrown. *)
Definition observationsOf (r : ObserveRun) : gmap string Observation :=
  match result r with
  | Returns x => x
  | Throws e => err_observations e
  end.

Definition queriesFor (executedQueries : gmap string (list ExecutedQuery))
    (name : string) : list ExecutedQuery :=
  match executedQueries !! name with Some q => q | None => [] end.

(** *** Registration *)

(** The class of an observer plugin, [obs.constructor]: its [name], and
    its static [observerName] if it has one. *)
Record ObserverClass : Type := mkObserverClass {
  className : string;
  observerName : option string }.

(** The name [registerObserver] registers under: [nameIn], or the class
    name when [nameIn] is missing or empty. *)
Definition registeredName (constructor : ObserverClass) (nameIn : option string)
  : string :=
  match nameIn with
  | Some n => if decide (n = "") then className constructor else n
  | None => className constructor
  end.

(** [registerObserver(obs, nameIn)]: the name it returns or the error it
    throws, and the registry and the class of [obs] afterwards. *)
Definition registerObserver (observers : gmap string ObserverPlugin)
    (constructor : ObserverClass) (obs : ObserverPlugin) (nameIn : option string)
  : Result string * (gmap string ObserverPlugin * ObserverClass) :=
  let name := registeredName constructor nameIn in
  if hasProperty observers name then
    (Throw (Error ("Attempt to register observer with duplicate name '"
                   +:+ name +:+ "'")),
     (observers, constructor))
  else
    let constructor' :=
      match observerName constructor with
      | None => mkObserverClass (className constructor) (Some name)
      | Some _ => constructor
      end in
    (Ok name, (<[name := obs]> observers, constructor')).

(** One call of [registerObserver], and the registry after a sequence of
    calls, whatever each returns. *)
Record Registration : Type := mkRegistration {
  reg_class : ObserverClass;
  reg_obs : ObserverPlugin;
  reg_nameIn : option string }.

Definition registerAll (observers : gmap string ObserverPlugin)
    (regs : list Registration) : gmap string ObserverPlugin :=
  foldl (λ o r, fst (snd (registerObserver o (reg_class r) (reg_obs r) (reg_nameIn r))))
    observers regs.

(** *** A small registry *)

Definition ex_observers : gmap string ObserverPlugin :=
  {[ "good" := mkObserverPlugin "schema" (λ _, Resolved "data");
     "bad" := mkObserverPlugin "schema" (λ _, Rejected (ThrownError "down")) ]}.

Definition ex_class : ObserverClass := mkObserverClass "K8sObserver" None.

Definition ex_plugin : ObserverPlugin :=
  mkObserverPlugin "schema" (λ _, Resolved "pods").

End Observers.

(** ** Style engine (css.ts) *)

Module Css.

#[local] Open Scope nat_scope.

(** *** Elements and selectors *)

(** A component type: a function or class, compared by reference.
    [ctName] is its own string-valued [name] property, if it has one. *)
Record ComponentType : Type := mkComponentType {
  ctRef : nat;
  ctName : option string }.

(** A prop value: the matcher only tells strings from everything else. *)
Inductive PropValue : Type :=
| PString (s : string)
| POther.

(** An element, with [elRef] the identity of the JavaScript object.
    [props] lists the own properties of [elem.props] in [Object.keys]
    order; [mounted] is the answer of [isMountedElement]. *)
Record AdaptElement : Type := mkAdaptElement {
  elRef : nat;
  componentType : ComponentType;
  props : list (string * PropValue);
  mounted : bool }.

Definition DomPath : Type := list AdaptElement.

(** The [action] of a css-what attribute selector. *)
Inductive AttributeAction : Type :=
| AExists | AEquals | AStart | AAny | AEnd | AElement | ANot | AHyphen.

Definition actionName (a : AttributeAction) : string :=
  match a with
  | AExists => "exists" | AEquals => "equals" | AStart => "start"
  | AAny => "any" | AEnd => "end" | AElement => "element"
  | ANot => "not" | AHyphen => "hyphen"
  end.

#[local] Set Warnings "-register-all".

(** [cssWhat.Selector], a selector fragment.  The [data] of a pseudo-class
    is [null], a string or a parsed selector; [FOther] stands for the
    fragment types [matchConfig] has no entry for. *)
Inductive SelFrag : Type :=
| FAttribute (name : string) (action : AttributeAction) (value : string)
    (ignoreCase : bool)
| FPseudo (name : string) (data : option (string + list (list SelFrag)))
| FTag (name : string)
| FChild
| FDescendant
| FOther (type : string).

Definition ParsedSelectorBlock : Type := list SelFrag.
Definition ParsedSelector : Type := list ParsedSelectorBlock.

Record Matched : Type := mkMatched {
  newPath : DomPath;
  matched : bool }.

(** [last(arr)]: the array without its last element, and that element. *)
Fixpoint last {T} (arr : list T) : list T * option T :=
  match arr with
  | [] => ([], None)
  | x :: rest =>
      match rest with
      | [] => ([], Some x)
      | _ => let '(prefix, elem) := last rest in (x :: prefix, elem)
      end
  end.

(** [arr.slice(0, -i)] for [i ≥ 1] *)
Definition sliceEnd {T} (arr : list T) (i : nat) : list T :=
  take (length arr - i)%nat arr.

(** *** Strings *)

(** [toLowerCase] on the ASCII letters, the characters the model's
    strings are made of.  (JavaScript's [toLowerCase] also lowers the
    letters outside ASCII; the properties of [getPropValue] proved below
    hold for every function in its place.) *)
Definition lowerAscii (c : Ascii.ascii) : Ascii.ascii :=
  let n := Ascii.nat_of_ascii c in
  if (65 <=? n)%nat && (n <=? 90)%nat then Ascii.ascii_of_nat (n + 32) else c.

Fixpoint toLowerCase (s : string) : string :=
  match s with
  | EmptyString => EmptyString
  | String c s' => String (lowerAscii c) (toLowerCase s')
  end.

Definition startsWith (s sub : string) : bool := String.prefix sub s.

Fixpoint includes (s sub : string) : bool :=
  String.prefix sub s ||
  match s with
  | EmptyString => false
  | String _ s' => includes s' sub
  end.

Definition endsWith (s sub : string) : bool :=
  (String.length sub <=? String.length s)%nat &&
  bool_decide (String.substring (String.length s - String.length sub)
                 (String.length sub) s = sub).

(** A text between double quotes. *)
Definition quoted (s : string) : string :=
  String (Ascii.ascii_of_nat 34) (s +:+ String (Ascii.ascii_of_nat 34) EmptyString).

(** [\s] on ASCII: tab, line feed, vertical tab, form feed, carriage
    return and space. *)
Definition isSpace (c : Ascii.ascii) : bool :=
  let n := Ascii.nat_of_ascii c in
  ((9 <=? n)%nat && (n <=? 13)%nat) || (n =? 32)%nat.

(** [s.split(/\s+/)]: [cur] is the piece being read, [inSpace] tells
    whether the previous character was white space. *)
Fixpoint splitSpaces_aux (s : string) (cur : string) (inSpace : bool) : list string :=
  match s with
  | EmptyString => [cur]
  | String c s' =>
      if isSpace c then
        if inSpace then splitSpaces_aux s' EmptyString true
        else cur :: splitSpaces_aux s' EmptyString true
      else splitSpaces_aux s' (cur +:+ String c EmptyString) false
  end.

Definition splitSpaces (s : string) : list string :=
  splitSpaces_aux s EmptyString false.

(** *** Unique names of component types *)

(** The module variables [objToName] and [nextUniqueNameIndex]. *)
Record UniqueNames : Type := mkUniqueNames {
  objToName : gmap nat string;
  nextUniqueNameIndex : nat }.

Definition uniqueNamePrefix : string := "UniqueName".

Definition uniqueName (o : ComponentType) (st : UniqueNames) : string * UniqueNames :=
  match objToName st !! ctRef o with
  | Some r => (r, st)
  | None =>
      let objName := match ctName o with Some n => n | None => "" end in
      let r := uniqueNamePrefix +:+ pretty (nextUniqueNameIndex st) +:+ objName in
      (r, mkUniqueNames (<[ctRef o := r]> (objToName st))
            (S (nextUniqueNameIndex st)))
  end.

(** *** Matching *)

(** A matcher reads and extends the unique names, and returns or throws.
    [None] is the answer of a matcher that was given too little fuel;
    [matchWithSelector] and [matchWithBlock] below give enough. *)
Definition M (A : Type) : Type := UniqueNames → option (Result A * UniqueNames).

Definition pure {A} (a : A) : M A := λ st, Some (Ok a, st).
Definition throw {A} (e : Exn) : M A := λ st, Some (Throw e, st).
Definition bind {A B} (m : M A) (k : A → M B) : M B :=
  λ st,
    match m st with
    | None => None
    | Some (Throw e, st') => Some (Throw e, st')
    | Some (Ok a, st') => k a st'
    end.
Definition outOfFuel {A} : M A := λ _, None.

Notation "x <~ m ;; k" := (bind m (λ x, k))
  (at level 100, m at next level, right associativity).

(** [for (const x of l) { if (f(x)) return true; } return false;] *)
Fixpoint firstTrue {A} (f : A → M bool) (l : list A) : M bool :=
  match l with
  | [] => pure false
  | x :: l' => b <~ f x ;; if b then pure true else firstTrue f l'
  end.

(** [props[prop]] *)
Fixpoint propLookup (ps : list (string * PropValue)) (prop : string)
  : option PropValue :=
  match ps with
  | [] => None
  | kv :: ps' =>
      if bool_decide (fst kv = prop) then Some (snd kv) else propLookup ps' prop
  end.

Definition getPropValue (elem : AdaptElement) (prop : string) (ignoreCase : bool)
  : option string :=
  let val :=
    if ignoreCase then
      let prop := toLowerCase prop in
      foldl (λ val kv,
               if bool_decide (toLowerCase (fst kv) = prop) then Some (snd kv)
               else val)
        None (props elem)
    else propLookup (props elem) prop in
  match val with
  | Some (PString s) => Some s
  | _ => None
  end.

Definition matchRoot (path : DomPath) : Matched :=
  mkMatched path (bool_decide (length path = 1%nat)).

Definition matchAttribute (name : string) (action : AttributeAction)
    (value : string) (ignoreCase : bool) (path : DomPath) : Result Matched :=
  match snd (last path) with
  | None => Throw (InternalError "null element")
  | Some elem =>
      match getPropValue elem name ignoreCase with
      | None => Ok (mkMatched path false)
      | Some v =>
          match action with
          | AExists => Ok (mkMatched path true)
          | AEquals => Ok (mkMatched path (bool_decide (v = value)))
          | AStart => Ok (mkMatched path (startsWith v value))
          | AAny => Ok (mkMatched path (includes v value))
          | AEnd => Ok (mkMatched path (endsWith v value))
          | AElement => Ok (mkMatched path (bool_decide (value ∈ splitSpaces v)))
          | _ =>
              Throw (Error ("CSS attribute selector action '" +:+ actionName action
                            +:+ "' not supported"))
          end
      end
  end.

Definition matchTag (name : string) (path : DomPath) : M Matched :=
  match snd (last path) with
  | None => throw (InternalError "null element")
  | Some elem =>
      λ st,
        let '(uname, st') := uniqueName (componentType elem) st in
        Some (Ok (mkMatched path (bool_decide (uname = name))), st')
  end.

Definition matchChild (path : DomPath) : Matched :=
  if (length path <? 1)%nat then mkMatched path false
  else mkMatched (sliceEnd path 1) true.

(** The matchers, which call each other; [fuel] bounds the depth of the
    calls.  [matchPseudo] looks the name of the pseudo-class up in
    [matchPseudoConfig], which knows [root] and [not]; the model throws
    the error for an unsupported pseudo-class for every other name, as
    the code does for every name that [matchPseudoConfig] does not
    inherit from [Object.prototype]. *)
Fixpoint matchWithSelector_fuel (fuel : nat) (selector : ParsedSelector)
    (path : DomPath) : M bool :=
  match fuel with
  | O => outOfFuel
  | S fuel => firstTrue (λ block, matchWithBlock_fuel fuel block path) selector
  end

with matchWithBlock_fuel (fuel : nat) (selBlock : ParsedSelectorBlock)
    (path : DomPath) : M bool :=
  match fuel with
  | O => outOfFuel
  | S fuel =>
      let '(prefix, selFrag) := last selBlock in
      match selFrag with
      | None => pure true
      | Some FDescendant => matchDescendant_fuel fuel prefix path
      | Some selFrag =>
          m <~ matchFrag_fuel fuel selFrag path ;;
          if negb (matched m) then pure false
          else if bool_decide (length (newPath m) = 0%nat) then pure false
          else matchWithBlock_fuel fuel prefix (newPath m)
      end
  end

with matchDescendant_fuel (fuel : nat) (selector : ParsedSelectorBlock)
    (path : DomPath) : M bool :=
  match fuel with
  | O => outOfFuel
  | S fuel =>
      if (length selector <=? 0)%nat then
        throw (InternalError "validated but malformed CSS ")
      else
        firstTrue (λ i, matchWithSelector_fuel fuel [selector] (sliceEnd path i))
          (seq 1 (length path - 1))
  end

with matchFrag_fuel (fuel : nat) (selFrag : SelFrag) (path : DomPath) : M Matched :=
  match fuel with
  | O => outOfFuel
  | S fuel =>
      match selFrag with
      | FAttribute name action value ignoreCase =>
          λ st, Some (matchAttribute name action value ignoreCase path, st)
      | FChild => pure (matchChild path)
      | FDescendant => throw (InternalError "should not get here")
      | FPseudo name data => matchPseudo_fuel fuel name data path
      | FTag name => matchTag name path
      | FOther _ => throw (Error "Unsupported selector fragment: ")
      end
  end

with matchPseudo_fuel (fuel : nat) (name : string)
    (data : option (string + list (list SelFrag))) (path : DomPath) : M Matched :=
  match fuel with
  | O => outOfFuel
  | S fuel =>
      if bool_decide (name = "root") then pure (matchRoot path)
      else if bool_decide (name = "not") then matchNot_fuel fuel data path
      else throw (Error ("Unsupported CSS pseudo-class :" +:+ name))
  end

with matchNot_fuel (fuel : nat) (data : option (string + list (list SelFrag)))
    (path : DomPath) : M Matched :=
  match fuel with
  | O => outOfFuel
  | S fuel =>
      match data with
      | None | Some (inl EmptyString) | Some (inr []) | Some (inr ([] :: _)) =>
          throw (Error ("CSS " +:+ quoted ":not"
                         +:+ " requires at least one selector argument in parentheses"))
      | Some (inl _) =>
          throw (InternalError ("CSS " +:+ quoted ":not" +:+ " - unexpected string data"))
      | Some (inr selector) =>
          b <~ matchWithSelector_fuel fuel selector path ;;
          pure (mkMatched path (negb b))
      end
  end.

(** Fuel that is enough for a fragment, a block and a selector. *)
Fixpoint fragFuel (f : SelFrag) : nat :=
  match f with
  | FPseudo _ (Some (inr selector)) =>
      4 + list_sum (map (λ b, S (list_sum (map (λ f, 3 + fragFuel f) b))) selector)
  | _ => 3
  end.

Definition blockFuel (b : ParsedSelectorBlock) : nat :=
  S (list_sum (map (λ f, 3 + fragFuel f) b)).

Definition selectorFuel (selector : ParsedSelector) : nat :=
  S (list_sum (map blockFuel selector)).

(** A matcher run with enough fuel: the result and the unique names it
    leaves.  The last case is never reached: the fuel the matchers below
    give is enough. *)
Definition run {A} (m : M A) (st : UniqueNames) : Result A * UniqueNames :=
  match m st with
  | Some r => r
  | None => (Throw (InternalError "unreachable"), st)
  end.

Definition matchWithSelector (selector : ParsedSelector) (path : DomPath)
    (st : UniqueNames) : Result bool * UniqueNames :=
  run (matchWithSelector_fuel (selectorFuel selector) selector path) st.

Definition matchWithBlock (selBlock : ParsedSelectorBlock) (path : DomPath)
    (st : UniqueNames) : Result bool * UniqueNames :=
  run (matchWithBlock_fuel (blockFuel selBlock) selBlock path) st.

Definition matchDescendant (selector : ParsedSelectorBlock) (path : DomPath)
    (st : UniqueNames) : Result bool * UniqueNames :=
  run (matchDescendant_fuel (2 + blockFuel selector) selector path) st.

Definition matchFrag (selFrag : SelFrag) (path : DomPath)
    (st : UniqueNames) : Result Matched * UniqueNames :=
  run (matchFrag_fuel (fragFuel selFrag) selFrag path) st.

(** *** Style rules and the match registry *)

(** A style rule, compared by reference.  [parsed] is the selector that
    [buildStyle] parsed and that the rule's [match] closes over. *)
Record StyleRule : Type := mkStyleRule {
  ruleRef : nat;
  selector : string;
  parsed : ParsedSelector }.

(** [rule.match(path)] *)
Definition rule_match (r : StyleRule) (path : DomPath) (st : UniqueNames)
  : Result bool * UniqueNames :=
  matchWithSelector (parsed r) path st.

(** [MatchInfo]: [mi_matched] is the optional set of rules, [mi_neverMatch]
    tells whether the [neverMatch] flag is there. *)
Record MatchInfo : Type := mkMatchInfo {
  mi_matched : option (gset nat);
  mi_neverMatch : bool }.

Definition createMatchInfoReg : gmap nat MatchInfo := ∅.

Definition emptyMatchInfo : MatchInfo := mkMatchInfo None false.

(** [getCssMatched]: the record of [el], created if the registry has none.
    The record is an object shared with the registry: the functions below
    write their changes to it back at [elRef el]. *)
Definition getCssMatched (reg : gmap nat MatchInfo) (el : AdaptElement)
  : MatchInfo * gmap nat MatchInfo :=
  match reg !! elRef el with
  | Some mi => (mi, reg)
  | None => (emptyMatchInfo, <[elRef el := emptyMatchInfo]> reg)
  end.

Definition ruleHasMatched (reg : gmap nat MatchInfo) (el : AdaptElement)
    (r : StyleRule) : bool * gmap nat MatchInfo :=
  let '(m, reg) := getCssMatched reg el in
  (match mi_matched m with
   | Some set => bool_decide (ruleRef r ∈ set)
   | None => false
   end, reg).

Definition ruleMatches (reg : gmap nat MatchInfo) (el : AdaptElement)
    (r : StyleRule) : gmap nat MatchInfo :=
  let '(m, reg) := getCssMatched reg el in
  let set := match mi_matched m with Some set => set | None => ∅ end in
  <[elRef el := mkMatchInfo (Some (set ∪ {[ruleRef r]})) (mi_neverMatch m)]> reg.

Definition neverMatch (reg : gmap nat MatchInfo) (el : AdaptElement)
  : gmap nat MatchInfo :=
  let '(m, reg) := getCssMatched reg el in
  <[elRef el := mkMatchInfo (mi_matched m) true]> reg.

Definition canMatch (reg : gmap nat MatchInfo) (el : AdaptElement)
  : bool * gmap nat MatchInfo :=
  let '(m, reg) := getCssMatched reg el in
  (negb (mi_neverMatch m), reg).

Definition copyRuleMatches (reg : gmap nat MatchInfo) (fromEl toEl : AdaptElement)
  : gmap nat MatchInfo :=
  let '(from, reg) := getCssMatched reg fromEl in
  let '(to, reg) := getCssMatched reg toEl in
  if mi_neverMatch from then
    <[elRef toEl := mkMatchInfo (mi_matched to) true]> reg
  else
    match mi_matched from with
    | Some fromSet =>
        let toSet := match mi_matched to with Some set => set | None => ∅ end in
        <[elRef toEl := mkMatchInfo (Some (toSet ∪ fromSet)) (mi_neverMatch to)]> reg
    | None => reg
    end.

(** [StyleBuildInfo], as far as [ruleNoRematch] reads it: the original
    element, and whether the info object carries the registry under
    [$matchInfoReg].  The registry it carries is the one of the pass. *)
Record StyleBuildInfo : Type := mkStyleBuildInfo {
  origElement : AdaptElement;
  hasMatchInfoReg : bool }.

Definition ruleNoRematch (reg : gmap nat MatchInfo) (info : StyleBuildInfo)
    (elem : AdaptElement) : Result AdaptElement * gmap nat MatchInfo :=
  if mounted elem then
    (Throw (Error "elem has already been mounted. elem must be a newly created element"), reg)
  else if negb (hasMatchInfoReg info) then
    (Throw (Error "Unable to find $matchInfoReg symbol on StyleBuildInfo object"), reg)
  else (Ok elem, copyRuleMatches reg (origElement info) elem).

(** The calls that read or write a registry, and their effect on it. *)
Inductive RegOp : Type :=
| ORuleHasMatched (el : AdaptElement) (r : StyleRule)
| ORuleMatches (el : AdaptElement) (r : StyleRule)
| ONeverMatch (el : AdaptElement)
| OCanMatch (el : AdaptElement)
| OCopyRuleMatches (fromEl toEl : AdaptElement)
| ORuleNoRematch (info : StyleBuildInfo) (elem : AdaptElement).

Definition runOp (reg : gmap nat MatchInfo) (op : RegOp) : gmap nat MatchInfo :=
  match op with
  | ORuleHasMatched el r => snd (ruleHasMatched reg el r)
  | ORuleMatches el r => ruleMatches reg el r
  | ONeverMatch el => neverMatch reg el
  | OCanMatch el => snd (canMatch reg el)
  | OCopyRuleMatches fromEl toEl => copyRuleMatches reg fromEl toEl
  | ORuleNoRematch info elem => snd (ruleNoRematch reg info elem)
  end.

Definition runOps (reg : gmap nat MatchInfo) (ops : list RegOp) : gmap nat MatchInfo :=
  foldl runOp reg ops.

(** Modelled from the spec: the test the build engine (dom.ts, not among
    the sources) makes before it applies a style rule to an element.  A
    match record holds the set of rules already matched against this exact
    element instance, and a never-match flag used to cut off search
    subtrees; a rule never matches the same instance twice: a rule is a
    candidate for an element when the element can match and the rule has
    not matched it yet. *)
Definition mayApplyRule (reg : gmap nat MatchInfo) (el : AdaptElement)
    (r : StyleRule) : bool :=
  fst (canMatch reg el) && negb (fst (ruleHasMatched reg el r)).

(** The rules recorded for an element. *)
Definition matchedRules (reg : gmap nat MatchInfo) (el : AdaptElement) : gset nat :=
  match reg !! elRef el with
  | Some (mkMatchInfo (Some set) _) => set
  | _ => ∅
  end.

Definition neverMatchSet (reg : gmap nat MatchInfo) (el : AdaptElement) : bool :=
  match reg !! elRef el with
  | Some mi => mi_neverMatch mi
  | None => false
  end.

(** All [sliceEnd path i] for [i] from 1 to [length path - 1]: the paths
    of the strict ancestors of the last element, nearest first. *)
Definition ancestorPaths (path : DomPath) : list DomPath :=
  (λ i, sliceEnd path i) <$> seq 1 (length path - 1).

(** [f] answers [false], without throwing, on each path of [ps] in turn,
    taking the unique names from [st] to [st']. *)
Inductive allFalse (f : DomPath → UniqueNames → Result bool * UniqueNames)
  : list DomPath → UniqueNames → UniqueNames → Prop :=
| allFalse_nil st : allFalse f [] st st
| allFalse_cons p ps st st1 st' :
    f p st = (Ok false, st1) → allFalse f ps st1 st' →
    allFalse f (p :: ps) st st'.

(** *** Vocabulary of the unique names *)

Definition isDigit (c : Ascii.ascii) : bool :=
  let n := Ascii.nat_of_ascii c in (48 <=? n) && (n <=? 57).

Fixpoint allDigits (s : string) : bool :=
  match s with
  | EmptyString => true
  | String c s' => isDigit c && allDigits s'
  end.

Definition noLeadingDigit (s : string) : bool :=
  match s with String c _ => negb (isDigit c) | EmptyString => true end.

(** A component type whose name, if it has one, does not start with a
    decimal digit, as the name of a function or class declaration. *)
Definition plainName (o : ComponentType) : bool :=
  match ctName o with
  | Some (String c _) => negb (isDigit c)
  | _ => true
  end.

(** The unique names a program can be in: those of a fresh module, and
    those left by [uniqueName] calls on plainly named component types. *)
Inductive namesReachable : UniqueNames → Prop :=
| names_fresh : namesReachable (mkUniqueNames ∅ 0)
| names_step o st :
    plainName o = true → namesReachable st →
    namesReachable (snd (uniqueName o st)).

(** The unique names once the component types [cts] have been named, in
    this order, by a fresh module. *)
Definition namesAfter (cts : list ComponentType) : UniqueNames :=
  foldl (λ st o, snd (uniqueName o st)) (mkUniqueNames ∅ 0) cts.

(** Every name given out is [uniqueNamePrefix], an index below the next
    one and a text that does not start with a digit; no name was given
    to two component types. *)
Definition names_ok (st : UniqueNames) : Prop :=
  (∀ ref r, objToName st !! ref = Some r →
     ∃ i suffix, i < nextUniqueNameIndex st ∧ noLeadingDigit suffix = true ∧
                 r = uniqueNamePrefix +:+ pretty i +:+ suffix) ∧
  (∀ ref1 ref2 r, objToName st !! ref1 = Some r → objToName st !! ref2 = Some r →
     ref1 = ref2).

(** A fragment that tests the last element of the path and nothing else:
    a tag or an attribute selector. *)
Definition simpleFrag (f : SelFrag) : bool :=
  match f with
  | FTag _ | FAttribute _ _ _ _ => true
  | _ => false
  end.

(** *** Searching a tree *)

(** A call that runs matchers: it reads and extends the unique names,
    and returns or throws. *)
Definition Call (A : Type) : Type := UniqueNames → Result A * UniqueNames.

Definition pureR {A} (a : A) : Call A := λ st, (Ok a, st).
Definition throwR {A} (e : Exn) : Call A := λ st, (Throw e, st).
Definition bindR {A B} (m : Call A) (k : A → Call B) : Call B :=
  λ st,
    match m st with
    | (Throw e, st') => (Throw e, st')
    | (Ok a, st') => k a st'
    end.

(** Modelled from the spec: the children of an element, of which jsx.ts
    ([childrenToArray], [isElement]) is not among the sources.  The
    children of an element are an ordered sequence of elements, primitives
    and text; [DomNode el children] is the element [el] with the elements
    among its children, in order. *)
Inductive Dom : Type :=
| DomNode (el : AdaptElement) (children : list Dom).

Definition domRoot (dom : Dom) : AdaptElement :=
  match dom with DomNode el _ => el end.

(** The loop over [styles] of [findInDomImpl]: whether some style matches
    [path], the styles being tried in order up to the first match. *)
Fixpoint anyStyleMatches (styles : list StyleRule) (path : DomPath) : Call bool :=
  match styles with
  | [] => pureR false
  | style :: rest =>
      bindR (rule_match style path)
        (λ b, if b then pureR true else anyStyleMatches rest path)
  end.

(** [findInDomImpl(styles, path)], with [dom] the last element of [path]
    and its descendants. *)
Fixpoint findInDomImpl (styles : list StyleRule) (path : DomPath) (dom : Dom)
  : Call (list DomPath) :=
  match snd (last path) with
  | None => pureR []
  | Some _ =>
      bindR (anyStyleMatches styles path) (λ b,
        let matches := if b then [path] else [] in
        let fix children (matches : list DomPath) (kids : list Dom)
          : Call (list DomPath) :=
          match kids with
          | [] => pureR matches
          | child :: kids' =>
              bindR (findInDomImpl styles (path ++ [domRoot child]) child)
                (λ found, children (matches ++ found) kids')
          end in
        match dom with DomNode _ kids => children matches kids end)
  end.

(** *** Building a style sheet *)

(** [String.prototype.trim] on ASCII white space. *)
Fixpoint trimStart (s : string) : string :=
  match s with
  | EmptyString => EmptyString
  | String c s' => if isSpace c then trimStart s' else s
  end.

Definition trim (s : string) : string :=
  String.rev (trimStart (String.rev (trimStart s))).

(** A child of a Style element, as [buildStyles] tells its children
    apart: a function (a component type), a string, a [Rule] (with its
    [override] function, by reference), or something else. *)
Inductive StyleChild : Type :=
| ChildComponent (ct : ComponentType)
| ChildText (s : string)
| ChildRule (override : nat)
| ChildOther.

(** A [RawStyle], made by [makeStyle(selector, build)]; the build
    function by reference. *)
Record RawStyle : Type := makeStyle {
  raw_selector : string;
  raw_build : nat }.

(** A [StyleRule] as [buildStyle] makes it: the rule and its [sfc]. *)
Record BuiltStyle : Type := mkBuiltStyle {
  bs_rule : StyleRule;
  bs_sfc : nat }.

(** The class [Style]. *)
Definition Style : ComponentType := mkComponentType 0 (Some "Style").

Definition isStylesComponent (componentType : ComponentType) : bool :=
  bool_decide (ctRef componentType = ctRef Style).

(** A Style element: the element, and what
    [childrenToArray(styleElem.props.children)] holds. *)
Record StyleElement : Type := mkStyleElement {
  se_element : AdaptElement;
  se_children : list StyleChild }.

(** The loop of [buildStyles] over the children, from the values
    [curSelector] and [rawStyles] have when it gets to them.  The message
    of the error for an unsupported child is cut after its fixed part,
    which the type and the inspected value of the child follow. *)
Fixpoint buildStyles_children (children : list StyleChild) (curSelector : string)
    (rawStyles : list RawStyle) : Call (string * list RawStyle) :=
  match children with
  | [] => pureR (curSelector, rawStyles)
  | ChildComponent ct :: rest =>
      λ st,
        let '(name, st') := uniqueName ct st in
        buildStyles_children rest (curSelector +:+ name) rawStyles st'
  | ChildText s :: rest =>
      buildStyles_children rest (curSelector +:+ s) rawStyles
  | ChildRule override :: rest =>
      buildStyles_children rest ""
        (rawStyles ++ [makeStyle (trim curSelector) override])
  | ChildOther :: rest =>
      throwR (Error "Unsupported child type in Styles: ")
  end.

Section BuildStyles.

(** [cssWhat.parse(selector, { xmlMode: true })] of the css-what library:
    the parsed selector, or the error it throws. *)
Variable cssWhat_parse : string → Result ParsedSelector.

(** [buildStyle(rawStyle)]; [ref] is the identity of the rule object it
    creates. *)
Definition buildStyle (ref : nat) (rawStyle : RawStyle) : Result BuiltStyle :=
  match cssWhat_parse (raw_selector rawStyle) with
  | Throw e => Throw e
  | Ok selector =>
      Ok (mkBuiltStyle (mkStyleRule ref (raw_selector rawStyle) selector)
            (raw_build rawStyle))
  end.

(** [parseStyles(styles)]; the rules it creates get the identities [ref],
    [ref + 1], ... *)
Fixpoint parseStyles (ref : nat) (styles : list RawStyle) : Result (list BuiltStyle) :=
  match styles with
  | [] => Ok []
  | style :: rest =>
      match buildStyle ref style with
      | Throw e => Throw e
      | Ok r =>
          match parseStyles (S ref) rest with
          | Throw e => Throw e
          | Ok rs => Ok (r :: rs)
          end
      end
  end.

(** [buildStyles(styleElem)].  The message of the error for an element
    that is no Style is cut after its fixed part, which the inspected
    element follows. *)
Definition buildStyles (ref : nat) (styleElem : option StyleElement)
  : Call (list BuiltStyle) :=
  match styleElem with
  | None => pureR []
  | Some styleElem =>
      if negb (isStylesComponent (componentType (se_element styleElem))) then
        throwR (Error "Invalid Styles element: ")
      else
        bindR (buildStyles_children (se_children styleElem) "" [])
          (λ '(curSelector, rawStyles),
             if negb (bool_decide (curSelector = "")) then
               throwR (Error "Missing rule in final style")
             else λ st, (parseStyles ref rawStyles, st))
  end.

(** The first argument of [findPathsInDom] and [findElementsInDom]:
    [null], a style list, or a Style element. *)
Inductive StylesIn : Type :=
| StylesNull
| StylesList (styles : list StyleRule)
| StylesElement (styleElem : StyleElement).

(** [findPathsInDom(stylesIn, dom)] *)
Definition findPathsInDom (ref : nat) (stylesIn : StylesIn) (dom : option Dom)
  : Call (list DomPath) :=
  match stylesIn with
  | StylesNull => pureR []
  | _ =>
      bindR (match stylesIn with
             | StylesElement styleElem =>
                 bindR (buildStyles ref (Some styleElem))
                   (λ built, pureR (bs_rule <$> built))
             | StylesList styles => pureR styles
             | StylesNull => pureR []
             end)
        (λ styles,
           match dom with
           | None => pureR []
           | Some dom => findInDomImpl styles [domRoot dom] dom
           end)
  end.

(** [findElementsInDom(stylesIn, dom)]: the last elements of the paths;
    [ld.compact] drops the paths that have none. *)
Definition findElementsInDom (ref : nat) (stylesIn : StylesIn) (dom : option Dom)
  : Call (list AdaptElement) :=
  bindR (findPathsInDom ref stylesIn dom)
    (λ paths, pureR (omap (λ path, snd (last path)) paths)).

End BuildStyles.

(** The [override] functions of the [Rule] children, in order. *)
Definition ruleOverrides (children : list StyleChild) : list nat :=
  omap (λ child, match child with ChildRule o => Some o | _ => None end) children.

(** The paths of an element and its descendants, in document order,
    [path] being the path of the element itself. *)
Fixpoint domPaths (path : DomPath) (dom : Dom) : list DomPath :=
  match dom with
  | DomNode _ kids =>
      path :: flat_map (λ child, domPaths (path ++ [domRoot child]) child) kids
  end.

(** The paths of [l] for which [f] answers [true], [f] being asked about
    each path of [l] in turn. *)
Fixpoint filterR (f : DomPath → Call bool) (l : list DomPath) : Call (list DomPath) :=
  match l with
  | [] => pureR []
  | p :: l' =>
      bindR (f p) (λ b,
        bindR (filterR f l') (λ found, pureR (if b then p :: found else found)))
  end.

(** *** A small registry

    An original element on which rule [ex_R] matched and which was then
    marked never to match, and a fresh replacement element. *)
Definition ex_E : AdaptElement :=
  mkAdaptElement 1 (mkComponentType 1 (Some "Group")) [] true.
Definition ex_E2 : AdaptElement :=
  mkAdaptElement 2 (mkComponentType 1 (Some "Group")) [] false.
Definition ex_R : StyleRule :=
  mkStyleRule 7 "UniqueName0Group" [[FTag "UniqueName0Group"]].
Definition ex_info : StyleBuildInfo := mkStyleBuildInfo ex_E true.
Definition ex_reg : gmap nat MatchInfo :=
  neverMatch (ruleMatches createMatchInfoReg ex_E ex_R) ex_E.
Definition ex_reg_plain : gmap nat MatchInfo :=
  ruleMatches createMatchInfoReg ex_E ex_R.

(** *** A small tree

    A path root / middle / leaf, with the unique names of the two
    component types already given out. *)
Definition ex_ctA : ComponentType := mkComponentType 1 (Some "A").
Definition ex_ctB : ComponentType := mkComponentType 2 (Some "B").
Definition ex_root : AdaptElement :=
  mkAdaptElement 10 ex_ctA [("key", PString "root")] true.
Definition ex_middle : AdaptElement := mkAdaptElement 11 ex_ctB [] true.
Definition ex_leaf : AdaptElement := mkAdaptElement 12 ex_ctB [] true.
Definition ex_path : DomPath := [ex_root; ex_middle; ex_leaf].
Definition ex_names : UniqueNames :=
  snd (uniqueName ex_ctB (snd (uniqueName ex_ctA (mkUniqueNames ∅ 0)))).

(** *** A small style sheet *)

(** A parser that knows the selector of [ex_ctA]. *)
Definition ex_parse (s : string) : Result ParsedSelector :=
  if bool_decide (s = "UniqueName0A") then Ok [[FTag "UniqueName0A"]]
  else Throw (Error "parse error").

Definition ex_style : AdaptElement := mkAdaptElement 20 Style [] false.

End Css.

(** ** Debug flags (ops/common.ts) *)

Module Common.
Import Css.

#[local] Open Scope nat_scope.

Definition comma : Ascii.ascii := Ascii.ascii_of_nat 44.

(** [s.split(/\s*,\s*/)].  A separator is a comma with the white space
    around it.  [cur] is the piece being read and [ws] the white space
    read after it, which belongs to the piece unless a comma follows;
    [afterComma] tells that the white space after a comma is being
    skipped. *)
Fixpoint splitCommas_aux (s : string) (cur ws : string) (afterComma : bool)
  : list string :=
  match s with
  | EmptyString => [cur +:+ ws]
  | String c s' =>
      if bool_decide (c = comma) then cur :: splitCommas_aux s' "" "" true
      else if isSpace c then
        if afterComma then splitCommas_aux s' "" "" true
        else splitCommas_aux s' cur (ws +:+ String c "") false
      else splitCommas_aux s' (cur +:+ ws +:+ String c "") "" false
  end.

Definition splitCommas (s : string) : list string :=
  splitCommas_aux s "" "" false.

(** [parseDebugString(s)]: the own keys of the [flags] object.  The
    assignment [flags[f] = true] creates the key [f], except for
    [__proto__], where it goes to the setter of [Object.prototype] and
    is dropped. *)
Definition parseDebugString (s : string) : gset string :=
  list_to_set (filter (λ f, f ≠ "__proto__") (splitCommas s)).

(** *** Vocabulary of the flags' properties *)

Fixpoint noComma (s : string) : bool :=
  match s with
  | EmptyString => true
  | String c s' => negb (bool_decide (c = comma)) && noComma s'
  end.

Fixpoint allSpace (s : string) : bool :=
  match s with
  | EmptyString => true
  | String c s' => isSpace c && allSpace s'
  end.

Fixpoint lastChar (s : string) : option Ascii.ascii :=
  match s with
  | EmptyString => None
  | String c s' => match s' with EmptyString => Some c | _ => lastChar s' end
  end.

Fixpoint allAscii (s : string) : bool :=
  match s with
  | EmptyString => true
  | String c s' => (Ascii.nat_of_ascii c <? 128) && allAscii s'
  end.

(** A flag name as a user writes it: no comma, no white space at either
    end, and ASCII characters only (on which [\s] is [isSpace]). *)
Definition flagName (t : string) : bool :=
  noComma t
  && match t with String c _ => negb (isSpace c) | EmptyString => true end
  && match lastChar t with Some c => negb (isSpace c) | None => true end
  && allAscii t.

End Common.

(** * Properties *)

(** ** Status tracker: counters and the node state machine *)

Module StatusTrackerFacts.
Import DeployTypes Server StatusTracker.

Lemma total_unfold c :
  total c = cInitial c + cWaiting c + cDeploying c + cDestroying c
            + cDeployed c + cFailed c + cDestroyed c.
Proof. unfold total; simpl. lia. Qed.

Lemma getCount_setCount c s v s' :
  getCount (setCount c s v) s' = if decide (s = s') then v else getCount c s'.
Proof. destruct s, s'; reflexivity. Qed.

Lemma getCount_incr c s s' : getCount (incr c s) s' = getCount c s' + delta s s'.
Proof.
  unfold incr, delta. rewrite getCount_setCount.
  destruct (decide (s = s')); subst; lia.
Qed.

Lemma getCount_decr c s s' : getCount (decr c s) s' = getCount c s' - delta s s'.
Proof.
  unfold decr, delta. rewrite getCount_setCount.
  destruct (decide (s = s')); subst; lia.
Qed.

Lemma total_incr c s : total (incr c s) = total c + 1.
Proof. rewrite !total_unfold. unfold incr, decr. destruct c, s; cbn; lia. Qed.

Lemma total_decr c s : total (decr c s) = total c - 1.
Proof. rewrite !total_unfold. unfold incr, decr. destruct c, s; cbn; lia. Qed.

Lemma total_move c old new : total (incr (decr c old) new) = total c.
Proof. rewrite total_incr, total_decr. lia. Qed.

(** *** Sums of the counter families *)

Lemma countNodes_snoc f l n :
  countNodes f (l ++ [n]) = countNodes f l + (if f n then 1 else 0).
Proof.
  unfold countNodes. rewrite filter_app, length_app.
  rewrite filter_cons, filter_nil.
  destruct (f n); case_decide; simpl; try congruence; lia.
Qed.

Lemma constructor_step_nodeStatus t n :
  nodeStatus (constructor_step t n) = nodeStatus t.
Proof.
  unfold constructor_step. destruct (element n) as [el|]; [|reflexivity].
  destruct (finalDom el), (shouldTrackStatus n); reflexivity.
Qed.

Lemma constructor_step_sums l t n :
  sums_ok l t → sums_ok (l ++ [n]) (constructor_step t n).
Proof.
  intros [Hp Hn]. unfold sums_ok. rewrite !countNodes_snoc.
  unfold constructor_step, isPrimNode, isNonPrimNode.
  destruct (element n) as [el|]; simpl.
  - destruct (finalDom el), (shouldTrackStatus n); simpl;
      rewrite ?total_incr; unfold isPrimNode, isNonPrimNode in *; lia.
  - unfold isPrimNode, isNonPrimNode in *; lia.
Qed.

Lemma foldl_constructor_sums l : ∀ t done,
  sums_ok done t → sums_ok (done ++ l) (foldl constructor_step t l).
Proof.
  induction l as [|n l IH]; intros t done H; simpl.
  - by rewrite app_nil_r.
  - replace (done ++ n :: l) with ((done ++ [n]) ++ l)
      by (rewrite <- app_assoc; reflexivity).
    apply IH. by apply constructor_step_sums.
Qed.

Lemma foldl_constructor_nodeStatus l : ∀ t,
  nodeStatus (foldl constructor_step t l) = nodeStatus t.
Proof.
  induction l as [|n l IH]; intros t; simpl; [done|].
  rewrite IH. apply constructor_step_nodeStatus.
Qed.

Lemma constructor_sums options :
  total (nodeStatus (constructor options)) = Z.of_nat (length (opt_nodes options)) ∧
  sums_ok (opt_nodes options) (constructor options).
Proof.
  unfold constructor. split.
  - rewrite foldl_constructor_nodeStatus. simpl. rewrite total_unfold. simpl. lia.
  - apply (foldl_constructor_sums (opt_nodes options) _ []).
    split; reflexivity.
Qed.

Lemma updateCount_totals t n old new :
  total (nodeStatus (updateCount t n old new)) = total (nodeStatus t) ∧
  total (primStatus (updateCount t n old new)) = total (primStatus t) ∧
  total (nonPrimStatus (updateCount t n old new)) = total (nonPrimStatus t).
Proof.
  unfold updateCount. destruct (element n) as [el|]; [destruct (finalDom el)|];
    simpl; rewrite ?total_move; auto.
Qed.

(** What [updateCount], [updateTask] and [writeStatus] leave alone. *)
Lemma updateCount_frame t n old new :
  let t' := updateCount t n old new in
  statMap t' = statMap t ∧ deployment t' = deployment t ∧
  stepID t' = stepID t ∧ dryRun t' = dryRun t ∧ goalStatus t' = goalStatus t ∧
  tasks t' = tasks t ∧ taskMap t' = taskMap t.
Proof.
  unfold updateCount.
  destruct (element n) as [el|]; [destruct (finalDom el)|]; done.
Qed.

Lemma updateTask_frame t n o s err d :
  let t' := snd (updateTask t n o s err d) in
  nodeStatus t' = nodeStatus t ∧ primStatus t' = primStatus t ∧
  nonPrimStatus t' = nonPrimStatus t ∧ statMap t' = statMap t ∧
  deployment t' = deployment t ∧ stepID t' = stepID t ∧ dryRun t' = dryRun t ∧
  goalStatus t' = goalStatus t ∧ taskMap t' = taskMap t.
Proof.
  unfold updateTask.
  destruct (getTask t n) as [[name|]|e]; simpl; repeat split; reflexivity.
Qed.

Lemma writeStatus_frame t n err :
  let t' := snd (writeStatus t n err) in
  nodeStatus t' = nodeStatus t ∧ primStatus t' = primStatus t ∧
  nonPrimStatus t' = nonPrimStatus t ∧ statMap t' = statMap t ∧
  tasks t' = tasks t ∧ taskMap t' = taskMap t ∧
  stepID t' = stepID t ∧ dryRun t' = dryRun t ∧ goalStatus t' = goalStatus t.
Proof.
  unfold writeStatus.
  destruct (element n), (stepID t) eqn:E; simpl; rewrite ?E; auto 10.
  destruct (get t n); simpl; rewrite ?E; repeat split; reflexivity.
Qed.

Lemma writeStatus_no_step t n err :
  stepID t = None → writeStatus t n err = (Ok (), t).
Proof. unfold writeStatus. intros ->. by destruct (element n). Qed.

(** A [set] call that finds the node at a status [oldStat] that is
    neither final nor the one asked for leaves the tracker as follows,
    also when [updateTask] or [writeStatus] throws. *)
Lemma set_change t n statExt err descr oldStat :
  map_get (statMap t) n = Some oldStat →
  statExt ≠ oldStat → isFinalStatus oldStat = false →
  let t' := snd (set t n statExt err descr) in
  let tc := updateCount t n (toDeployStatus oldStat) (toDeployStatus statExt) in
  statMap t' = map_set (statMap t) n statExt ∧
  nodeStatus t' = nodeStatus tc ∧ primStatus t' = primStatus tc ∧
  nonPrimStatus t' = nonPrimStatus tc ∧
  dryRun t' = dryRun t ∧ goalStatus t' = goalStatus t ∧
  stepID t' = stepID t ∧ taskMap t' = taskMap t ∧
  (stepID t = None → deployment t' = deployment t).
Proof.
  intros Hg Hd Hf. unfold set, get. rewrite Hg, Hf.
  rewrite bool_decide_false by done. cbn [orb]. cbv zeta.
  set (t1 := with_statMap t (map_set (statMap t) n statExt)).
  set (t2 := updateCount t1 n (toDeployStatus oldStat) (toDeployStatus statExt)).
  assert (statMap t2 = map_set (statMap t) n statExt ∧
          nodeStatus t2 = nodeStatus (updateCount t n (toDeployStatus oldStat)
                                         (toDeployStatus statExt)) ∧
          primStatus t2 = primStatus (updateCount t n (toDeployStatus oldStat)
                                         (toDeployStatus statExt)) ∧
          nonPrimStatus t2 = nonPrimStatus (updateCount t n (toDeployStatus oldStat)
                                         (toDeployStatus statExt)) ∧
          dryRun t2 = dryRun t ∧ goalStatus t2 = goalStatus t ∧
          stepID t2 = stepID t ∧ taskMap t2 = taskMap t ∧
          deployment t2 = deployment t) as (H1 & H2 & H3 & H4 & H5 & H6 & H7 & H8 & H9).
  { unfold t2, t1, updateCount.
    destruct (element n) as [el|]; [destruct (finalDom el)|]; done. }
  pose proof (updateTask_frame t2 n oldStat (toDeployStatus statExt) err descr) as Hu.
  destruct (updateTask t2 n oldStat (toDeployStatus statExt) err descr) as [r3 t3].
  simpl in Hu. destruct Hu as (U1 & U2 & U3 & U4 & U5 & U6 & U7 & U8 & U9).
  pose proof (writeStatus_frame t3 n err) as Hw.
  pose proof (writeStatus_no_step t3 n err) as Hw0.
  destruct (writeStatus t3 n err) as [r4 t4]. simpl in Hw.
  destruct Hw as (W1 & W2 & W3 & W4 & _ & W6 & W7 & W8 & W9).
  assert (stepID t = None → t4 = t3) as Hsame.
  { intros Hs. assert (stepID t3 = None) as Hs3 by congruence.
    specialize (Hw0 Hs3). congruence. }
  destruct r3 as [u|e]; [destruct r4 as [u'|e']|]; simpl;
    repeat split; try congruence; intros Hs; rewrite ?(Hsame Hs); congruence.
Qed.

(** A [set] call either leaves the tracker as it is, or has found the
    node at a status [oldStat] that is neither final nor the one asked
    for, and has changed the tracker as [set_change] says. *)
Lemma set_effect t n statExt err descr :
  snd (set t n statExt err descr) = t ∨
  ∃ oldStat,
    map_get (statMap t) n = Some oldStat ∧
    statExt ≠ oldStat ∧ isFinalStatus oldStat = false ∧
    let t' := snd (set t n statExt err descr) in
    let tc := updateCount t n (toDeployStatus oldStat) (toDeployStatus statExt) in
    statMap t' = map_set (statMap t) n statExt ∧
    nodeStatus t' = nodeStatus tc ∧ primStatus t' = primStatus tc ∧
    nonPrimStatus t' = nonPrimStatus tc ∧
    dryRun t' = dryRun t ∧ goalStatus t' = goalStatus t ∧
    stepID t' = stepID t ∧ taskMap t' = taskMap t ∧
    (stepID t = None → deployment t' = deployment t).
Proof.
  destruct (map_get (statMap t) n) as [oldStat|] eqn:Hg.
  - destruct (decide (statExt = oldStat)) as [Hd|Hd].
    { left. unfold set, get. rewrite Hg. by rewrite bool_decide_true. }
    destruct (isFinalStatus oldStat) eqn:Hf.
    { left. unfold set, get. rewrite Hg, Hf. by rewrite orb_true_r. }
    right. exists oldStat. do 3 (split; [done|]). by apply set_change.
  - left. unfold set, get. by rewrite Hg.
Qed.

Lemma set_totals t n statExt err descr :
  let t' := snd (set t n statExt err descr) in
  total (nodeStatus t') = total (nodeStatus t) ∧
  total (primStatus t') = total (primStatus t) ∧
  total (nonPrimStatus t') = total (nonPrimStatus t).
Proof.
  cbv zeta. destruct (set_effect t n statExt err descr) as [->|H]; [auto|].
  destruct H as (oldStat & _ & _ & _ & _ & -> & -> & -> & _).
  apply updateCount_totals.
Qed.

Lemma initDeploymentStatus_frame t :
  let t' := initDeploymentStatus t in
  nodeStatus t' = nodeStatus t ∧ primStatus t' = primStatus t ∧
  nonPrimStatus t' = nonPrimStatus t ∧ statMap t' = statMap t ∧
  tasks t' = tasks t ∧ taskMap t' = taskMap t ∧ dryRun t' = dryRun t ∧
  goalStatus t' = goalStatus t.
Proof. unfold initDeploymentStatus. destruct (dryRun t) eqn:E; simpl; auto 10. Qed.

Lemma complete_frame t sc :
  let t' := snd (complete t sc) in
  nodeStatus t' = nodeStatus t ∧ primStatus t' = primStatus t ∧
  nonPrimStatus t' = nonPrimStatus t ∧ statMap t' = statMap t ∧
  tasks t' = tasks t ∧ taskMap t' = taskMap t ∧ dryRun t' = dryRun t ∧
  stepID t' = stepID t ∧ goalStatus t' = goalStatus t.
Proof.
  unfold complete. case_decide; simpl; auto 10.
  destruct (stepID t) eqn:E; simpl; rewrite ?E; auto 10.
Qed.

Lemma reachable_sums options t :
  reachable options t →
  total (nodeStatus t) = Z.of_nat (length (opt_nodes options)) ∧
  sums_ok (opt_nodes options) t.
Proof.
  unfold sums_ok. induction 1 as [|t Hr IH|t n s err d Hr IH|t sc Hr IH].
  - apply constructor_sums.
  - pose proof (initDeploymentStatus_frame t) as H; simpl in H.
    destruct H as (-> & -> & -> & _). exact IH.
  - pose proof (set_totals t n s err d) as H; simpl in H.
    destruct H as (-> & -> & ->). exact IH.
  - pose proof (complete_frame t sc) as H; simpl in H.
    destruct H as (-> & -> & -> & _). exact IH.
Qed.

(** *** The counters count the nodes *)

Lemma countStat_nil s : countStat [] s = 0.
Proof. reflexivity. Qed.

Lemma countStat_cons e m s :
  countStat (e :: m) s = delta (toDeployStatus (snd e)) s + countStat m s.
Proof.
  unfold countStat, delta. rewrite filter_cons.
  destruct (decide (toDeployStatus (snd e) = s)); simpl; lia.
Qed.

Lemma countStat_nonneg m s : 0 ≤ countStat m s.
Proof. unfold countStat. lia. Qed.

Lemma countStat_map_set m n old new s :
  map_get m n = Some old →
  countStat (map_set m n new) s
  = countStat m s - delta (toDeployStatus old) s + delta (toDeployStatus new) s.
Proof.
  induction m as [|[k w] m IH]; simpl; [discriminate|].
  destruct (decide (nodeRef k = nodeRef n)); intros H.
  - injection H as ->. rewrite !countStat_cons. simpl. lia.
  - rewrite !countStat_cons, IH by done. lia.
Qed.

Lemma map_set_length {V} (m : list (EPNode * V)) n v :
  is_Some (map_get m n) → length (map_set m n v) = length m.
Proof.
  induction m as [|[k w] m IH]; simpl; intros [x H]; [discriminate|].
  destruct (decide (nodeRef k = nodeRef n)); simpl; [done|].
  rewrite IH; eauto.
Qed.

Lemma map_get_set_eq {V} (m : list (EPNode * V)) n v :
  map_get (map_set m n v) n = Some v.
Proof.
  induction m as [|[k w] m IH]; simpl.
  - by rewrite decide_True.
  - destruct (decide (nodeRef k = nodeRef n)) as [E|E]; simpl.
    + by rewrite decide_True.
    + by rewrite decide_False.
Qed.

Lemma map_get_set_ne {V} (m : list (EPNode * V)) n n' v :
  nodeRef n ≠ nodeRef n' → map_get (map_set m n v) n' = map_get m n'.
Proof.
  intros Hne. induction m as [|[k w] m IH]; simpl.
  - by rewrite decide_False.
  - destruct (decide (nodeRef k = nodeRef n)) as [E|E]; simpl.
    + rewrite !decide_False by congruence. done.
    + by rewrite IH.
Qed.

Lemma constructor_step_statMap t n :
  statMap (constructor_step t n) = map_set (statMap t) n (Ext Waiting).
Proof.
  unfold constructor_step. destruct (element n) as [el|]; [|reflexivity].
  destruct (finalDom el), (shouldTrackStatus n); reflexivity.
Qed.

Lemma map_get_ref {V} (m : list (EPNode * V)) n n' :
  nodeRef n = nodeRef n' → map_get m n = map_get m n'.
Proof.
  intros Heq. induction m as [|[k w] m IH]; simpl; [done|].
  rewrite Heq. by destruct (decide (nodeRef k = nodeRef n')).
Qed.

Lemma map_get_set_is_Some {V} (m : list (EPNode * V)) n v n' :
  is_Some (map_get (map_set m n v) n')
  ↔ nodeRef n = nodeRef n' ∨ is_Some (map_get m n').
Proof.
  destruct (decide (nodeRef n = nodeRef n')) as [Heq|Hne].
  - rewrite <- (map_get_ref _ n n' Heq), map_get_set_eq. split; eauto.
  - rewrite map_get_set_ne by done. tauto.
Qed.

Lemma map_set_all {V} (Q : V → Prop) (m : list (EPNode * V)) n v :
  Forall (λ e, Q (snd e)) m → Q v → Forall (λ e, Q (snd e)) (map_set m n v).
Proof.
  intros Hm Hv. induction Hm as [|[k w] m Hk Hm IH]; simpl.
  - by repeat constructor.
  - destruct (decide (nodeRef k = nodeRef n)); by constructor.
Qed.

Lemma foldl_constructor_all_waiting l : ∀ t,
  Forall (λ e, snd e = Ext Waiting) (statMap t) →
  Forall (λ e, snd e = Ext Waiting) (statMap (foldl constructor_step t l)).
Proof.
  induction l as [|n l IH]; intros t Ht; simpl; [done|].
  apply IH. rewrite constructor_step_statMap.
  by apply (map_set_all (λ v, v = Ext Waiting)).
Qed.

Lemma foldl_constructor_tracked l : ∀ t n,
  is_Some (map_get (statMap (foldl constructor_step t l)) n)
  ↔ is_Some (map_get (statMap t) n) ∨ nodeRef n ∈ nodeRef <$> l.
Proof.
  induction l as [|k l IH]; intros t n; simpl.
  - rewrite elem_of_nil. tauto.
  - rewrite IH, constructor_step_statMap, map_get_set_is_Some, elem_of_cons.
    split; [intros [[H|H]|H]|intros [H|[H|H]]]; auto.
Qed.

Lemma countStat_all_waiting m s :
  Forall (λ e, snd e = Ext Waiting) m → s ≠ Waiting → countStat m s = 0.
Proof.
  intros Hm Hs. induction Hm as [|[k w] m Hk Hm IH]; [done|].
  rewrite countStat_cons, IH. simpl in *. subst w. simpl. unfold delta.
  rewrite decide_False by done. lia.
Qed.

Lemma constructor_counts options :
  counts_ok (constructor options) ∧ tracked options (constructor options).
Proof.
  unfold counts_ok, tracked, constructor. split.
  - intros s Hs. rewrite foldl_constructor_nodeStatus.
    rewrite countStat_all_waiting; [|by apply foldl_constructor_all_waiting|done].
    simpl. by destruct s.
  - intros n. rewrite foldl_constructor_tracked. simpl.
    split; [intros [[x H]|H]; [done|done]|auto].
Qed.

Lemma updateCount_nodeStatus t n old new s :
  getCount (nodeStatus (updateCount t n old new)) s
  = getCount (nodeStatus t) s - delta old s + delta new s.
Proof.
  unfold updateCount.
  destruct (element n) as [el|]; [destruct (finalDom el)|]; simpl;
    by rewrite getCount_incr, getCount_decr.
Qed.

Lemma updateCount_statMap t n old new :
  statMap (updateCount t n old new) = statMap t.
Proof.
  unfold updateCount.
  destruct (element n) as [el|]; [destruct (finalDom el)|]; reflexivity.
Qed.

Lemma set_counts t n statExt err descr :
  counts_ok t →
  counts_ok (snd (set t n statExt err descr)) ∧
  length (statMap (snd (set t n statExt err descr))) = length (statMap t) ∧
  ∀ n', is_Some (map_get (statMap (snd (set t n statExt err descr))) n')
        ↔ is_Some (map_get (statMap t) n').
Proof.
  intros Hok. destruct (set_effect t n statExt err descr) as [->|H]; [auto|].
  destruct H as (oldStat & Hg & _ & _ & Hm & Hn & _).
  unfold counts_ok. rewrite Hm, Hn. split; [|split].
  - intros s Hs. rewrite updateCount_nodeStatus.
    rewrite (countStat_map_set _ _ oldStat) by done. rewrite Hok by done. lia.
  - apply map_set_length. eauto.
  - intros n'. rewrite map_get_set_is_Some. split; [intros [Heq|H]|auto]; [|done].
    rewrite <- (map_get_ref _ n n' Heq). eauto.
Qed.

Lemma reachable_counts options t :
  reachable options t → counts_ok t ∧ tracked options t.
Proof.
  induction 1 as [|t Hr IH|t n s err d Hr IH|t sc Hr IH].
  - by apply constructor_counts.
  - pose proof (initDeploymentStatus_frame t) as H; simpl in H.
    destruct H as (H1 & _ & _ & H4 & _). unfold counts_ok, tracked.
    by rewrite H1, H4.
  - destruct IH as [IH1 IH2].
    destruct (set_counts t n s err d IH1) as (H1 & _ & H2). split; [done|].
    intros n'. rewrite H2. apply IH2.
  - pose proof (complete_frame t sc) as H; simpl in H.
    destruct H as (H1 & _ & _ & H4 & _). unfold counts_ok, tracked.
    by rewrite H1, H4.
Qed.

Lemma anyNodeAt_count t s :
  anyNodeAt t s = bool_decide (countStat (statMap t) s > 0).
Proof.
  unfold anyNodeAt. induction (statMap t) as [|e m IH]; simpl; [done|].
  rewrite countStat_cons, IH. unfold delta.
  pose proof (countStat_nonneg m s).
  destruct (decide (toDeployStatus (snd e) = s)) as [E|E].
  - rewrite bool_decide_true by done. simpl. symmetry. apply bool_decide_true. lia.
  - rewrite bool_decide_false by done. simpl. apply bool_decide_ext. lia.
Qed.

Lemma allNodesAtGoal_count t :
  allNodesAtGoal t
  = bool_decide (countStat (statMap t) Deployed + countStat (statMap t) Destroyed
                 = Z.of_nat (length (statMap t))).
Proof.
  unfold allNodesAtGoal.
  assert (∀ m, countStat m Deployed + countStat m Destroyed ≤ Z.of_nat (length m)) as Hle.
  { induction m as [|e m IH]; simpl; [rewrite !countStat_nil; lia|].
    rewrite !countStat_cons. unfold delta.
    destruct (toDeployStatus (snd e)); simpl; lia. }
  induction (statMap t) as [|e m IH]; simpl; [done|].
  rewrite !countStat_cons, IH. unfold delta. specialize (Hle m).
  destruct (toDeployStatus (snd e)); simpl;
    first [ apply bool_decide_ext; lia
          | symmetry; apply bool_decide_false; lia ].
Qed.

(** *** Terminal states absorb *)

Lemma set_noop t n old statExt err descr :
  map_get (statMap t) n = Some old →
  statExt = old ∨ isFinalStatus old = true →
  set t n statExt err descr = (Ok false, t).
Proof.
  intros Hg Hc. unfold set, get. rewrite Hg.
  destruct Hc as [-> | ->].
  - by rewrite bool_decide_true.
  - by rewrite orb_true_r.
Qed.

Lemma set_keeps_final t n old c :
  map_get (statMap t) n = Some old → isFinalStatus old = true →
  map_get (statMap (runSet t c)) n = Some old.
Proof.
  intros Hg Hf. unfold runSet.
  destruct (set_effect t (sc_node c) (sc_status c) (sc_err c) (sc_description c))
    as [->|H]; [done|].
  destruct H as (oldStat & Hg' & _ & Hf' & -> & _).
  destruct (decide (nodeRef (sc_node c) = nodeRef n)) as [Heq|Hneq].
  - rewrite (map_get_ref _ _ _ Heq) in Hg'. congruence.
  - by rewrite map_get_set_ne.
Qed.

Lemma runSets_keeps_final cs : ∀ t n old,
  map_get (statMap t) n = Some old → isFinalStatus old = true →
  map_get (statMap (runSets t cs)) n = Some old.
Proof.
  induction cs as [|c cs IH]; intros t n old Hg Hf; simpl; [done|].
  apply IH; [|done]. by apply set_keeps_final.
Qed.

(** C3: [set] on a node that is already in a final state, or already at
    the requested status, returns [false] and leaves the whole tracker as
    it was (statuses, counters, tasks and the deployment store).  Once a
    node is [Failed], [Deployed] or [Destroyed] it stays there whatever
    [set] calls follow, and every later [set] on it is such a no-op. *)
Theorem set_final_or_same_is_noop (t : Tracker) (n : EPNode) (old : DeployStatusExt) :
  map_get (statMap t) n = Some old →
  (∀ statExt err descr,
     statExt = old ∨ isFinalStatus old = true →
     set t n statExt err descr = (Ok false, t)) ∧
  (old = Ext Failed ∨ old = Ext Deployed ∨ old = Ext Destroyed →
   ∀ (calls : list SetCall) statExt err descr,
     let t' := runSets t calls in
     get t' n = Ok old ∧
     set t' n statExt err descr = (Ok false, t')).
Proof.
  intros Hg. split.
  - intros statExt err descr Hc. by apply (set_noop t n old).
  - intros Hold calls statExt err descr t'.
    assert (isFinalStatus old = true) as Hf
      by (destruct Hold as [-> | [-> | ->]]; reflexivity).
    assert (map_get (statMap t') n = Some old) as Hg'
      by (by apply runSets_keeps_final).
    split.
    + unfold get. by rewrite Hg'.
    + apply (set_noop t' n old); auto.
Qed.

(** *** Overall deployment status *)

(** C4: the entries of the tracker's [statMap] are the nodes it was built
    over.  [complete] throws an [InternalError] when some node is in
    [Initial]; otherwise it answers [Failed] if some node is [Failed],
    else the goal status if every node is at a goal-terminal status, else
    [StateChanged] if [stateChanged] is set, else the in-progress variant
    of the goal status. *)
Theorem complete_deployment_status (options : StatusTrackerOptions)
    (t : Tracker) (stateChanged : bool) :
  reachable options t →
  (∀ n, is_Some (map_get (statMap t) n)
        ↔ nodeRef n ∈ nodeRef <$> opt_nodes options) ∧
  fst (complete t stateChanged) =
    if anyNodeAt t Initial
    then Throw (InternalError "Nodes should not be in Initial state ")
    else Ok {| deploymentStatus :=
                 if anyNodeAt t Failed then Op Failed
                 else if allNodesAtGoal t then Op (goalStatusValue (goalStatus t))
                 else if stateChanged then StateChanged
                 else Op (goalToInProgress (goalStatus t));
               ec_nodeStatus := nodeStatus t;
               ec_nonPrimStatus := nonPrimStatus t;
               ec_primStatus := primStatus t;
               ec_stateChanged := stateChanged |}.
Proof.
  intros Hr. destruct (reachable_counts options t Hr) as [Hok Hkeys].
  split; [exact Hkeys|].
  rewrite !anyNodeAt_count, allNodesAtGoal_count.
  unfold complete. rewrite !Hok by done.
  destruct (decide (countStat (statMap t) Initial > 0)) as [Hi|Hi].
  - by rewrite bool_decide_true.
  - rewrite bool_decide_false by done. simpl. do 2 f_equal.
    destruct (decide (countStat (statMap t) Failed > 0)) as [Hf|Hf].
    + by rewrite bool_decide_true.
    + rewrite bool_decide_false by done.
      destruct (decide (countStat (statMap t) Deployed
                        + countStat (statMap t) Destroyed
                        = Z.of_nat (length (statMap t)))) as [Hg|Hg].
      * by rewrite bool_decide_true.
      * by rewrite bool_decide_false.
Qed.

(** *** Counter sums *)

Lemma updateCount_primStatus t n old new s :
  getCount (primStatus (updateCount t n old new)) s
  = getCount (primStatus t) s + (if isPrimNode n then delta new s - delta old s else 0).
Proof.
  unfold updateCount, isPrimNode.
  destruct (element n) as [el|]; [destruct (finalDom el)|]; simpl;
    rewrite ?getCount_incr, ?getCount_decr; lia.
Qed.

Lemma updateCount_nonPrimStatus t n old new s :
  getCount (nonPrimStatus (updateCount t n old new)) s
  = getCount (nonPrimStatus t) s + (if isNonPrimNode n then delta new s - delta old s else 0).
Proof.
  unfold updateCount, isNonPrimNode.
  destruct (element n) as [el|]; [destruct (finalDom el)|]; simpl;
    rewrite ?getCount_incr, ?getCount_decr; lia.
Qed.

(** C9: on every tracker reachable from the constructor, the [nodeStatus]
    counters sum to the number of nodes, and the [primStatus] and
    [nonPrimStatus] counters sum to the number of nodes whose element is,
    respectively is not, a final DOM element.  A [set] that finds the node
    at a final status, or at the status asked for, leaves the tracker as
    it is; every other [set] changes the status of the node and takes
    one from the bucket of the old status and adds one to the bucket of
    the new status, in [nodeStatus] and in the one of [primStatus] and
    [nonPrimStatus] that applies to the node, and it does so also when it
    throws after that. *)
Theorem counter_sums_invariant (options : StatusTrackerOptions) (t : Tracker) :
  reachable options t →
  total (nodeStatus t) = Z.of_nat (length (opt_nodes options)) ∧
  total (primStatus t) = countNodes isPrimNode (opt_nodes options) ∧
  total (nonPrimStatus t) = countNodes isNonPrimNode (opt_nodes options) ∧
  ∀ n statExt err descr old,
    get t n = Ok old →
    let t' := snd (set t n statExt err descr) in
    let new := toDeployStatus statExt in
    if bool_decide (statExt = old) || isFinalStatus old then t' = t
    else
      get t' n = Ok statExt ∧
      ∀ s,
        getCount (nodeStatus t') s
          = getCount (nodeStatus t) s - delta (toDeployStatus old) s + delta new s ∧
        getCount (primStatus t') s
          = getCount (primStatus t) s
            + (if isPrimNode n then delta new s - delta (toDeployStatus old) s
               else 0) ∧
        getCount (nonPrimStatus t') s
          = getCount (nonPrimStatus t) s
            + (if isNonPrimNode n then delta new s - delta (toDeployStatus old) s
               else 0).
Proof.
  intros Hr. destruct (reachable_sums options t Hr) as (H1 & H2 & H3).
  do 3 (split; [done|]).
  intros n statExt err descr old Hg t' new. unfold get in Hg.
  destruct (map_get (statMap t) n) as [o|] eqn:Hold; [|done]. injection Hg as ->.
  destruct (bool_decide (statExt = old) || isFinalStatus old) eqn:Hc.
  - unfold t'. rewrite (set_noop t n old); [done|done|].
    apply orb_true_iff in Hc as [Hc|Hc]; [left; by apply bool_decide_eq_true in Hc|by right].
  - apply orb_false_iff in Hc as [Hne Hf]. apply bool_decide_eq_false in Hne.
    destruct (set_change t n statExt err descr old Hold Hne Hf)
      as (Hm & Hns & Hps & Hnps & _).
    fold t' in Hm, Hns, Hps, Hnps. split.
    + unfold get. by rewrite Hm, map_get_set_eq.
    + intros s. rewrite Hns, Hps, Hnps.
      rewrite updateCount_nodeStatus, updateCount_primStatus,
        updateCount_nonPrimStatus. done.
Qed.

(** Witness of [set_final_or_same_is_noop]: node A has failed. *)
Lemma set_final_or_same_is_noop_witness :
  map_get (statMap ex_failed) ex_nodeA = Some (Ext Failed) ∧
  set ex_failed ex_nodeA (Ext Deployed) None None = (Ok false, ex_failed).
Proof.
  assert (map_get (statMap ex_failed) ex_nodeA = Some (Ext Failed)) as H
    by (vm_compute; reflexivity).
  split; [exact H|].
  destruct (set_final_or_same_is_noop ex_failed ex_nodeA (Ext Failed) H) as [H1 _].
  apply H1. right. reflexivity.
Defined.

(** Witness of [complete_deployment_status]: with node A failed, the
    deployment has failed. *)
Lemma complete_deployment_status_witness :
  reachable ex_options ex_failed ∧
  deploymentStatus <$> (match fst (complete ex_failed false) with
                        | Ok r => Some r
                        | Throw _ => None
                        end) = Some (Op Failed).
Proof.
  assert (reachable ex_options ex_failed) as H2.
  { unfold ex_failed, createStatusTracker. apply reach_set, reach_init, reach_new. }
  split; [exact H2|].
  destruct (complete_deployment_status ex_options ex_failed false H2) as [_ ->].
  vm_compute. reflexivity.
Defined.

(** Witness of [counter_sums_invariant]: three nodes, one of them
    primitive and one not. *)
Lemma counter_sums_invariant_witness :
  reachable ex_options ex_failed ∧
  total (nodeStatus ex_failed) = 3 ∧
  total (primStatus ex_failed) = 1 ∧
  total (nonPrimStatus ex_failed) = 1.
Proof.
  assert (reachable ex_options ex_failed) as H.
  { unfold ex_failed, createStatusTracker. apply reach_set, reach_init, reach_new. }
  split; [exact H|].
  destruct (counter_sums_invariant ex_options ex_failed H) as (H1 & H2 & H3 & _).
  rewrite H1, H2, H3. vm_compute. repeat split; reflexivity.
Defined.

End StatusTrackerFacts.

(** ** Style engine: the match registry *)

Module CssRegistryFacts.
Import Css.

#[local] Open Scope nat_scope.

Lemma matchedRules_getCssMatched reg el el' :
  matchedRules (snd (getCssMatched reg el)) el' = matchedRules reg el'.
Proof.
  unfold getCssMatched, matchedRules.
  destruct (reg !! elRef el) eqn:E; simpl; [done|].
  destruct (decide (elRef el = elRef el')) as [Heq|Hne].
  - rewrite <- Heq, lookup_insert_eq, E. done.
  - by rewrite lookup_insert_ne.
Qed.

Lemma neverMatchSet_getCssMatched reg el el' :
  neverMatchSet (snd (getCssMatched reg el)) el' = neverMatchSet reg el'.
Proof.
  unfold getCssMatched, neverMatchSet.
  destruct (reg !! elRef el) eqn:E; simpl; [done|].
  destruct (decide (elRef el = elRef el')) as [Heq|Hne].
  - rewrite <- Heq, lookup_insert_eq, E. done.
  - by rewrite lookup_insert_ne.
Qed.

Lemma getCssMatched_record reg el :
  let '(m, reg') := getCssMatched reg el in
  reg' !! elRef el = Some m ∧
  match mi_matched m with Some set => set | None => ∅ end = matchedRules reg el ∧
  mi_neverMatch m = neverMatchSet reg el.
Proof.
  unfold getCssMatched, matchedRules, neverMatchSet.
  destruct (reg !! elRef el) as [[[set|] nm]|] eqn:E; simpl; auto.
  by rewrite lookup_insert_eq.
Qed.

Lemma ruleHasMatched_spec reg el r :
  fst (ruleHasMatched reg el r) = bool_decide (ruleRef r ∈ matchedRules reg el).
Proof.
  unfold ruleHasMatched, getCssMatched, matchedRules.
  destruct (reg !! elRef el) as [[[set|] nm]|] eqn:E; simpl; try done.
Qed.

Lemma ruleHasMatched_reg reg el r :
  snd (ruleHasMatched reg el r) = snd (getCssMatched reg el).
Proof. unfold ruleHasMatched. by destruct (getCssMatched reg el). Qed.

Lemma canMatch_spec reg el :
  fst (canMatch reg el) = negb (neverMatchSet reg el).
Proof.
  unfold canMatch, getCssMatched, neverMatchSet.
  destruct (reg !! elRef el) as [[set nm]|] eqn:E; simpl; done.
Qed.

Lemma canMatch_reg reg el :
  snd (canMatch reg el) = snd (getCssMatched reg el).
Proof. unfold canMatch. by destruct (getCssMatched reg el). Qed.

Lemma matchedRules_insert reg k set nm el' :
  matchedRules (<[k := mkMatchInfo (Some set) nm]> reg) el'
  = if decide (k = elRef el') then set else matchedRules reg el'.
Proof.
  unfold matchedRules. destruct (decide (k = elRef el')) as [->|Hne].
  - by rewrite lookup_insert_eq.
  - by rewrite lookup_insert_ne.
Qed.

Lemma neverMatchSet_insert reg k m el' :
  neverMatchSet (<[k := m]> reg) el'
  = if decide (k = elRef el') then mi_neverMatch m else neverMatchSet reg el'.
Proof.
  unfold neverMatchSet. destruct (decide (k = elRef el')) as [->|Hne].
  - by rewrite lookup_insert_eq.
  - by rewrite lookup_insert_ne.
Qed.

Lemma ruleMatches_matched reg el r el' :
  matchedRules (ruleMatches reg el r) el'
  = if decide (elRef el = elRef el')
    then matchedRules reg el ∪ {[ruleRef r]} else matchedRules reg el'.
Proof.
  unfold ruleMatches.
  pose proof (getCssMatched_record reg el) as H.
  pose proof (matchedRules_getCssMatched reg el el') as H'.
  destruct (getCssMatched reg el) as [m reg1]. destruct H as (_ & Hs & _).
  simpl in H'. rewrite matchedRules_insert, Hs, H'. done.
Qed.

Lemma ruleMatches_never reg el r el' :
  neverMatchSet (ruleMatches reg el r) el' = neverMatchSet reg el'.
Proof.
  unfold ruleMatches.
  pose proof (getCssMatched_record reg el) as H.
  pose proof (neverMatchSet_getCssMatched reg el el') as H'.
  destruct (getCssMatched reg el) as [m reg1]. destruct H as (_ & _ & Hn).
  simpl in H'. rewrite neverMatchSet_insert, H'. simpl.
  destruct (decide (elRef el = elRef el')) as [Heq|]; [|done].
  unfold neverMatchSet in *. by rewrite <- Heq.
Qed.

Lemma matchedRules_insert_same reg k m el' :
  reg !! k = Some m →
  matchedRules (<[k := mkMatchInfo (mi_matched m) true]> reg) el'
  = matchedRules reg el'.
Proof.
  intros Hk. unfold matchedRules. destruct (decide (k = elRef el')) as [->|Hne].
  - rewrite lookup_insert_eq, Hk. by destruct m.
  - by rewrite lookup_insert_ne.
Qed.

Lemma neverMatch_matched reg el el' :
  matchedRules (neverMatch reg el) el' = matchedRules reg el'.
Proof.
  unfold neverMatch.
  pose proof (getCssMatched_record reg el) as H.
  pose proof (matchedRules_getCssMatched reg el el') as H'.
  destruct (getCssMatched reg el) as [m reg1]. destruct H as (Hk & _).
  simpl in H'. by rewrite matchedRules_insert_same.
Qed.

Lemma neverMatch_never reg el el' :
  neverMatchSet (neverMatch reg el) el'
  = bool_decide (elRef el = elRef el') || neverMatchSet reg el'.
Proof.
  unfold neverMatch.
  pose proof (neverMatchSet_getCssMatched reg el el') as H'.
  destruct (getCssMatched reg el) as [m reg1].
  simpl in H'. rewrite neverMatchSet_insert, H'. simpl.
  destruct (decide (elRef el = elRef el')).
  - by rewrite bool_decide_true.
  - by rewrite bool_decide_false.
Qed.

Lemma copyRuleMatches_matched reg fromEl toEl el' :
  matchedRules (copyRuleMatches reg fromEl toEl) el'
  = if neverMatchSet reg fromEl then matchedRules reg el'
    else if decide (elRef toEl = elRef el')
         then matchedRules reg toEl ∪ matchedRules reg fromEl
         else matchedRules reg el'.
Proof.
  unfold copyRuleMatches.
  pose proof (getCssMatched_record reg fromEl) as Hf.
  pose proof (matchedRules_getCssMatched reg fromEl) as Hf1.
  destruct (getCssMatched reg fromEl) as [from reg1].
  destruct Hf as (Hfk & Hfs & Hfn). simpl in Hf1.
  pose proof (getCssMatched_record reg1 toEl) as Ht.
  pose proof (matchedRules_getCssMatched reg1 toEl) as Ht1.
  destruct (getCssMatched reg1 toEl) as [to reg2].
  destruct Ht as (Htk & Hts & Htn). simpl in Ht1.
  rewrite <- Hfn. destruct (mi_neverMatch from).
  - rewrite matchedRules_insert_same by done. by rewrite Ht1, Hf1.
  - destruct (mi_matched from) as [fromSet|].
    + rewrite matchedRules_insert, Hts, <- Hfs, !Hf1, Ht1, Hf1. done.
    + rewrite Ht1, Hf1, <- Hfs.
      destruct (decide (elRef toEl = elRef el')) as [Heq|]; [|done].
      rewrite union_empty_r_L. unfold matchedRules. by rewrite Heq.
Qed.

Lemma copyRuleMatches_never reg fromEl toEl el' :
  neverMatchSet (copyRuleMatches reg fromEl toEl) el'
  = neverMatchSet reg el'
    || (neverMatchSet reg fromEl && bool_decide (elRef toEl = elRef el')).
Proof.
  unfold copyRuleMatches.
  pose proof (getCssMatched_record reg fromEl) as Hf.
  pose proof (neverMatchSet_getCssMatched reg fromEl) as Hf1.
  destruct (getCssMatched reg fromEl) as [from reg1].
  destruct Hf as (Hfk & Hfs & Hfn). simpl in Hf1.
  pose proof (getCssMatched_record reg1 toEl) as Ht.
  pose proof (neverMatchSet_getCssMatched reg1 toEl) as Ht1.
  destruct (getCssMatched reg1 toEl) as [to reg2].
  destruct Ht as (Htk & Hts & Htn). simpl in Ht1.
  rewrite <- Hfn. destruct (mi_neverMatch from); simpl.
  - rewrite neverMatchSet_insert, Ht1, Hf1. simpl.
    destruct (decide (elRef toEl = elRef el')).
    + rewrite bool_decide_true by done. by rewrite orb_true_r.
    + rewrite bool_decide_false by done. by rewrite orb_false_r.
  - rewrite orb_false_r. destruct (mi_matched from) as [fromSet|].
    + rewrite neverMatchSet_insert, Ht1, Hf1. simpl.
      destruct (decide (elRef toEl = elRef el')) as [Heq|]; [|done].
      rewrite Htn, Hf1. unfold neverMatchSet. by rewrite Heq.
    + by rewrite Ht1, Hf1.
Qed.

(** Records only grow. *)
Lemma runOp_mono reg op el :
  matchedRules reg el ⊆ matchedRules (runOp reg op) el.
Proof.
  destruct op as [e r|e r|e|e|f t|info e]; simpl.
  - by rewrite ruleHasMatched_reg, matchedRules_getCssMatched.
  - rewrite ruleMatches_matched. case_decide as Heq; [|done].
    unfold matchedRules. rewrite Heq. set_solver.
  - by rewrite neverMatch_matched.
  - by rewrite canMatch_reg, matchedRules_getCssMatched.
  - rewrite copyRuleMatches_matched.
    destruct (neverMatchSet reg f); [done|]. case_decide as Heq; [|done].
    unfold matchedRules. rewrite Heq. set_solver.
  - unfold ruleNoRematch. destruct (mounted e); [done|].
    destruct (hasMatchInfoReg info); simpl; [|done].
    rewrite copyRuleMatches_matched.
    destruct (neverMatchSet reg (origElement info)); [done|].
    case_decide as Heq; [|done].
    unfold matchedRules. rewrite Heq. set_solver.
Qed.

Lemma runOps_mono ops : ∀ reg el,
  matchedRules reg el ⊆ matchedRules (runOps reg ops) el.
Proof.
  induction ops as [|op ops IH]; intros reg el; simpl; [done|].
  etrans; [apply (runOp_mono reg op)|apply IH].
Qed.

(** C1: once [ruleMatches] has recorded that rule [R] matched element
    instance [E], [ruleHasMatched] answers [true] for [R] and [E], and
    keeps doing so whatever calls the registry of the pass sees
    afterwards; the build engine's test for applying [R] to [E] fails from
    then on. *)
Theorem rule_matches_instance_once (reg : gmap nat MatchInfo)
    (E : AdaptElement) (R : StyleRule) (ops : list RegOp) :
  let reg1 := ruleMatches reg E R in
  let reg' := runOps reg1 ops in
  fst (ruleHasMatched reg1 E R) = true ∧
  fst (ruleHasMatched reg' E R) = true ∧
  mayApplyRule reg' E R = false.
Proof.
  intros reg1 reg'.
  assert (ruleRef R ∈ matchedRules reg1 E) as H1.
  { unfold reg1. rewrite ruleMatches_matched, decide_True by done. set_solver. }
  assert (ruleRef R ∈ matchedRules reg' E) as H'
    by (apply (runOps_mono ops reg1 E), H1).
  repeat split.
  - rewrite ruleHasMatched_spec. by apply bool_decide_eq_true.
  - rewrite ruleHasMatched_spec. by apply bool_decide_eq_true.
  - unfold mayApplyRule. rewrite ruleHasMatched_spec.
    rewrite (bool_decide_true _ H'). by rewrite andb_false_r.
Qed.

Lemma matchedRules_empty el : matchedRules createMatchInfoReg el = ∅.
Proof. unfold matchedRules, createMatchInfoReg. by rewrite lookup_empty. Qed.

Lemma neverMatchSet_empty el : neverMatchSet createMatchInfoReg el = false.
Proof. unfold neverMatchSet, createMatchInfoReg. by rewrite lookup_empty. Qed.

Lemma matchedRules_fresh reg el : reg !! elRef el = None → matchedRules reg el = ∅.
Proof. unfold matchedRules. by intros ->. Qed.

Lemma neverMatchSet_fresh reg el : reg !! elRef el = None → neverMatchSet reg el = false.
Proof. unfold neverMatchSet. by intros ->. Qed.

(** C7, as stated, fails: [ex_R] matched [ex_E] and [ex_E] carries the
    [neverMatch] flag; [ruleNoRematch] then copies the flag to [ex_E2] but
    not the rules recorded for [ex_E]. *)
Lemma ruleNoRematch_flag_without_rules :
  ruleRef ex_R ∈ matchedRules ex_reg ex_E ∧
  neverMatchSet ex_reg ex_E = true ∧
  fst (ruleNoRematch ex_reg ex_info ex_E2) = Ok ex_E2 ∧
  ¬ (matchedRules ex_reg ex_E
     ⊆ matchedRules (snd (ruleNoRematch ex_reg ex_info ex_E2)) ex_E2) ∧
  fst (ruleHasMatched (snd (ruleNoRematch ex_reg ex_info ex_E2)) ex_E2 ex_R) = false.
Proof.
  assert (matchedRules ex_reg ex_E = {[7]}) as HE.
  { unfold ex_reg. rewrite neverMatch_matched, ruleMatches_matched.
    rewrite decide_True by done. rewrite matchedRules_empty. set_solver. }
  assert (neverMatchSet ex_reg ex_E = true) as HN.
  { unfold ex_reg. rewrite neverMatch_never. by rewrite bool_decide_true. }
  assert (matchedRules (snd (ruleNoRematch ex_reg ex_info ex_E2)) ex_E2 = ∅) as HE2.
  { unfold ruleNoRematch. cbn [mounted ex_E2 hasMatchInfoReg ex_info negb snd origElement].
    rewrite copyRuleMatches_matched, HN. unfold ex_reg.
    rewrite neverMatch_matched, ruleMatches_matched.
    rewrite decide_False by (simpl; lia). apply matchedRules_empty. }
  rewrite HE. split; [set_solver|]. split; [done|]. split; [done|]. split.
  - rewrite HE2. set_solver.
  - rewrite ruleHasMatched_spec, HE2. apply bool_decide_false. set_solver.
Qed.

(** C7, amended: let rule [R] have matched the original element [E] of
    [info].  [ruleNoRematch(info, E2)] throws if [E2] is mounted.
    Otherwise, if [E] carries the [neverMatch] flag, the flag alone is
    copied to [E2]'s record, and [canMatch] answers [false] for [E2]: no
    rule can match it.  If [E] does not carry the flag, every rule
    recorded for [E], [R] among them, is added to [E2]'s record, and
    [ruleHasMatched] answers [true] for [R] and [E2].  An element without
    a record, one that got no propagation, can match and has been matched
    by no rule [R']. *)
Theorem ruleNoRematch_propagation (reg : gmap nat MatchInfo)
    (info : StyleBuildInfo) (E2 : AdaptElement) (R : StyleRule) :
  ruleRef R ∈ matchedRules reg (origElement info) →
  hasMatchInfoReg info = true →
  let E := origElement info in
  let reg' := snd (ruleNoRematch reg info E2) in
  (mounted E2 = true →
     isThrow (fst (ruleNoRematch reg info E2)) = true ∧ reg' = reg) ∧
  (mounted E2 = false →
     fst (ruleNoRematch reg info E2) = Ok E2 ∧
     (neverMatchSet reg E = true →
        neverMatchSet reg' E2 = true ∧
        matchedRules reg' E2 = matchedRules reg E2 ∧
        fst (canMatch reg' E2) = false) ∧
     (neverMatchSet reg E = false →
        matchedRules reg' E2 = matchedRules reg E2 ∪ matchedRules reg E ∧
        neverMatchSet reg' E2 = neverMatchSet reg E2 ∧
        fst (ruleHasMatched reg' E2 R) = true)) ∧
  (∀ R', reg !! elRef E2 = None →
     fst (ruleHasMatched reg E2 R') = false ∧ fst (canMatch reg E2) = true).
Proof.
  intros HR Hinfo E reg'. unfold reg', ruleNoRematch. rewrite Hinfo. simpl.
  split; [|split].
  - intros ->. done.
  - intros ->. simpl. fold E.
    split; [done|]. split.
    + intros Hn.
      assert (neverMatchSet (copyRuleMatches reg E E2) E2 = true) as Hflag.
      { rewrite copyRuleMatches_never, Hn, bool_decide_true by done.
        by rewrite orb_true_r. }
      split; [done|]. split.
      * by rewrite copyRuleMatches_matched, Hn.
      * by rewrite canMatch_spec, Hflag.
    + intros Hn. split; [|split].
      * by rewrite copyRuleMatches_matched, Hn, decide_True.
      * rewrite copyRuleMatches_never, Hn. simpl. by rewrite orb_false_r.
      * rewrite ruleHasMatched_spec. apply bool_decide_eq_true.
        rewrite copyRuleMatches_matched, Hn, decide_True by done. set_solver.
  - intros R' Hfresh. rewrite canMatch_spec, ruleHasMatched_spec.
    rewrite matchedRules_fresh, neverMatchSet_fresh by done.
    rewrite bool_decide_false by set_solver. done.
Qed.

(** Witness of [ruleNoRematch_propagation]: a registry in which [ex_R]
    matched [ex_E]. *)
Lemma ruleNoRematch_propagation_witness :
  ruleRef ex_R ∈ matchedRules ex_reg_plain ex_E ∧
  fst (ruleHasMatched (snd (ruleNoRematch ex_reg_plain ex_info ex_E2)) ex_E2 ex_R) = true.
Proof.
  assert (ruleRef ex_R ∈ matchedRules ex_reg_plain ex_E) as HR.
  { unfold ex_reg_plain. rewrite ruleMatches_matched, decide_True by done.
    set_solver. }
  split; [exact HR|].
  destruct (ruleNoRematch_propagation ex_reg_plain ex_info ex_E2 ex_R HR eq_refl)
    as (_ & H & _).
  destruct (H eq_refl) as (_ & _ & H2).
  apply H2. unfold ex_reg_plain.
  rewrite ruleMatches_never. apply neverMatchSet_empty.
Defined.

End CssRegistryFacts.

(** ** Style engine: matching a selector block against a path *)

Module CssMatchFacts.
Import Css.

#[local] Open Scope nat_scope.

(** *** The matchers do not depend on the fuel, once there is enough *)

Lemma bind_mono {A B} (m1 m2 : M A) (k1 k2 : A → M B) st r :
  (∀ r, m1 st = Some r → m2 st = Some r) →
  (∀ a st r, k1 a st = Some r → k2 a st = Some r) →
  bind m1 k1 st = Some r → bind m2 k2 st = Some r.
Proof.
  intros Hm Hk. unfold bind.
  destruct (m1 st) as [[[a|e] st1]|] eqn:E; [| |discriminate].
  - rewrite (Hm _ eq_refl). apply Hk.
  - by rewrite (Hm _ eq_refl).
Qed.

Lemma firstTrue_mono {A} (f g : A → M bool) l :
  (∀ x st r, f x st = Some r → g x st = Some r) →
  ∀ st r, firstTrue f l st = Some r → firstTrue g l st = Some r.
Proof.
  intros Hfg. induction l as [|x l IH]; intros st r; simpl; [done|].
  apply bind_mono; [apply Hfg|]. intros [] st' r'; [done|apply IH].
Qed.

Lemma bind_is_Some {A B} (m : M A) (k : A → M B) st :
  is_Some (m st) → (∀ a st, is_Some (k a st)) → is_Some (bind m k st).
Proof.
  intros [[[a|e] st1] E] Hk; unfold bind; rewrite E; [apply Hk|eauto].
Qed.

Lemma firstTrue_is_Some {A} (f : A → M bool) l :
  (∀ x st, x ∈ l → is_Some (f x st)) → ∀ st, is_Some (firstTrue f l st).
Proof.
  induction l as [|x l IH]; intros Hf st; simpl; [by eexists|].
  apply bind_is_Some; [apply Hf; left|].
  intros [] st'; [by eexists|]. apply IH. intros y st'' Hy. apply Hf. by right.
Qed.

Lemma fuel_mono n :
  (∀ m sel path st r, n ≤ m →
     matchWithSelector_fuel n sel path st = Some r →
     matchWithSelector_fuel m sel path st = Some r) ∧
  (∀ m b path st r, n ≤ m →
     matchWithBlock_fuel n b path st = Some r →
     matchWithBlock_fuel m b path st = Some r) ∧
  (∀ m b path st r, n ≤ m →
     matchDescendant_fuel n b path st = Some r →
     matchDescendant_fuel m b path st = Some r) ∧
  (∀ m f path st r, n ≤ m →
     matchFrag_fuel n f path st = Some r →
     matchFrag_fuel m f path st = Some r) ∧
  (∀ m name data path st r, n ≤ m →
     matchPseudo_fuel n name data path st = Some r →
     matchPseudo_fuel m name data path st = Some r) ∧
  (∀ m data path st r, n ≤ m →
     matchNot_fuel n data path st = Some r →
     matchNot_fuel m data path st = Some r).
Proof.
  induction n as [|n (IHs & IHb & IHd & IHf & IHp & IHn)].
  - repeat split; intros; discriminate.
  - repeat split.
    + intros [|m] sel path st r Hle; [lia|]. simpl.
      apply firstTrue_mono. intros b st' r'. apply IHb. lia.
    + intros [|m] b path st r Hle; [lia|]. simpl.
      destruct (last b) as [prefix [frag|]]; [|done].
      assert (∀ r, bind (matchFrag_fuel n frag path)
                (λ m0, if negb (matched m0) then pure false
                       else if bool_decide (length (newPath m0) = 0) then pure false
                       else matchWithBlock_fuel n prefix (newPath m0)) st = Some r →
              bind (matchFrag_fuel m frag path)
                (λ m0, if negb (matched m0) then pure false
                       else if bool_decide (length (newPath m0) = 0) then pure false
                       else matchWithBlock_fuel m prefix (newPath m0)) st = Some r) as Hgen.
      { intros r0. apply bind_mono.
        - intros r1. apply IHf. lia.
        - intros a st' r1. destruct (negb (matched a)); [done|].
          case_bool_decide; [done|]. apply IHb. lia. }
      destruct frag; try apply Hgen. apply IHd. lia.
    + intros [|m] b path st r Hle; [lia|]. simpl.
      destruct (length b <=? 0); [done|].
      apply firstTrue_mono. intros i st' r'. apply IHs. lia.
    + intros [|m] f path st r Hle; [lia|]. simpl.
      destruct f; try done. apply IHp. lia.
    + intros [|m] name data path st r Hle; [lia|]. simpl.
      case_bool_decide; [done|]. case_bool_decide; [|done]. apply IHn. lia.
    + intros [|m] data path st r Hle; [lia|]. simpl.
      destruct data as [[s|sel]|]; [by destruct s| |done].
      destruct sel as [|[|f b] sel]; try done.
      apply bind_mono; [|done]. intros r1. apply IHs. lia.
Qed.

Lemma last_snoc {T} (l : list T) x : last (l ++ [x]) = (l, Some x).
Proof.
  induction l as [|y l IH]; [done|].
  change ((y :: l) ++ [x]) with (y :: (l ++ [x])).
  cbn [last]. rewrite IH. by destruct l.
Qed.

Lemma last_inv {T} (b : list T) :
  match last b with
  | (prefix, Some x) => b = prefix ++ [x]
  | (prefix, None) => b = [] ∧ prefix = []
  end.
Proof.
  induction b as [|y b IH] using rev_ind; [done|]. by rewrite last_snoc.
Qed.

Lemma blockFuel_snoc b f : blockFuel (b ++ [f]) = blockFuel b + 3 + fragFuel f.
Proof. unfold blockFuel. rewrite map_app, list_sum_app. simpl. lia. Qed.

Lemma fragFuel_not name sel :
  fragFuel (FPseudo name (Some (inr sel))) = 3 + selectorFuel sel.
Proof. reflexivity. Qed.

Lemma fragFuel_ge f : 3 ≤ fragFuel f.
Proof. destruct f as [| ? [[|]|] | | | |]; simpl; lia. Qed.

Lemma blockFuel_le_selectorFuel b sel : b ∈ sel → S (blockFuel b) ≤ selectorFuel sel.
Proof.
  unfold selectorFuel.
  induction 1 as [b sel|b b' sel Hin IH]; cbn [map];
    change (list_sum (?x :: ?l)) with (x + list_sum l); lia.
Qed.

Lemma selectorFuel_single b : selectorFuel [b] = S (blockFuel b).
Proof. unfold selectorFuel. cbn [map]. change (list_sum [?x]) with (x + 0). lia. Qed.

Lemma fuel_enough n :
  (∀ sel path st, selectorFuel sel ≤ n →
     is_Some (matchWithSelector_fuel n sel path st)) ∧
  (∀ b path st, blockFuel b ≤ n →
     is_Some (matchWithBlock_fuel n b path st)) ∧
  (∀ b path st, 2 + blockFuel b ≤ n →
     is_Some (matchDescendant_fuel n b path st)) ∧
  (∀ f path st, fragFuel f ≤ n →
     is_Some (matchFrag_fuel n f path st)) ∧
  (∀ name data path st, fragFuel (FPseudo name data) ≤ S n →
     is_Some (matchPseudo_fuel n name data path st)) ∧
  (∀ name data path st, fragFuel (FPseudo name data) ≤ 2 + n →
     is_Some (matchNot_fuel n data path st)).
Proof.
  induction n as [|n (IHs & IHb & IHd & IHf & IHp & IHn)].
  - repeat split.
    + intros sel path st H. unfold selectorFuel in H. lia.
    + intros b path st H. unfold blockFuel in H. lia.
    + intros; lia.
    + intros f path st H. pose proof (fragFuel_ge f). lia.
    + intros name data path st H. pose proof (fragFuel_ge (FPseudo name data)). lia.
    + intros name data path st H. pose proof (fragFuel_ge (FPseudo name data)). lia.
  - repeat split.
    + intros sel path st H. simpl. apply firstTrue_is_Some.
      intros b st' Hb. apply IHb.
      pose proof (blockFuel_le_selectorFuel b sel Hb). lia.
    + intros b path st H. simpl.
      pose proof (last_inv b) as Hl. destruct (last b) as [prefix [frag|]].
      2:{ by eexists. }
      subst b. rewrite blockFuel_snoc in H. pose proof (fragFuel_ge frag).
      assert (is_Some (bind (matchFrag_fuel n frag path)
                (λ m0, if negb (matched m0) then pure false
                       else if bool_decide (length (newPath m0) = 0) then pure false
                       else matchWithBlock_fuel n prefix (newPath m0)) st)) as Hgen.
      { apply bind_is_Some; [apply IHf; lia|].
        intros a st'. destruct (negb (matched a)); [by eexists|].
        case_bool_decide; [by eexists|]. apply IHb. lia. }
      destruct frag; try apply Hgen. apply IHd. lia.
    + intros b path st H. simpl. destruct (length b <=? 0); [by eexists|].
      apply firstTrue_is_Some. intros i st' _. apply IHs.
      rewrite selectorFuel_single. lia.
    + intros f path st H. simpl.
      destruct f; try (by eexists).
      * apply IHp. lia.
      * unfold matchTag. destruct (snd (last path)); [|by eexists].
        destruct (uniqueName (componentType a) st). by eexists.
    + intros name data path st H. simpl.
      case_bool_decide; [by eexists|]. case_bool_decide; [|by eexists].
      apply (IHn name). lia.
    + intros name data path st H. simpl.
      destruct data as [[s|sel]|]; [destruct s; by eexists| |by eexists].
      destruct sel as [|[|f b] sel]; try (by eexists).
      apply bind_is_Some; [|intros; by eexists].
      apply IHs. rewrite fragFuel_not in H. lia.
Qed.

(** With enough fuel, more fuel changes nothing. *)
Lemma matchWithBlock_fuel_indep n b path st :
  blockFuel b ≤ n →
  matchWithBlock_fuel n b path st = Some (matchWithBlock b path st).
Proof.
  intros Hn. unfold matchWithBlock, run.
  destruct (fuel_enough (blockFuel b)) as (_ & Hb & _).
  destruct (Hb b path st (le_n _)) as [r Hr]. rewrite Hr.
  destruct (fuel_mono (blockFuel b)) as (_ & Hm & _). by apply Hm.
Qed.

Lemma matchWithSelector_fuel_indep n sel path st :
  selectorFuel sel ≤ n →
  matchWithSelector_fuel n sel path st = Some (matchWithSelector sel path st).
Proof.
  intros Hn. unfold matchWithSelector, run.
  destruct (fuel_enough (selectorFuel sel)) as (Hs & _).
  destruct (Hs sel path st (le_n _)) as [r Hr]. rewrite Hr.
  destruct (fuel_mono (selectorFuel sel)) as (Hm & _). by apply Hm.
Qed.

Lemma matchDescendant_fuel_indep n b path st :
  2 + blockFuel b ≤ n →
  matchDescendant_fuel n b path st = Some (matchDescendant b path st).
Proof.
  intros Hn. unfold matchDescendant, run.
  destruct (fuel_enough (2 + blockFuel b)) as (_ & _ & Hd & _).
  destruct (Hd b path st (le_n _)) as [r Hr]. rewrite Hr.
  destruct (fuel_mono (2 + blockFuel b)) as (_ & _ & Hm & _). by apply Hm.
Qed.

Lemma matchFrag_fuel_indep n f path st :
  fragFuel f ≤ n →
  matchFrag_fuel n f path st = Some (matchFrag f path st).
Proof.
  intros Hn. unfold matchFrag, run.
  destruct (fuel_enough (fragFuel f)) as (_ & _ & _ & Hf & _).
  destruct (Hf f path st (le_n _)) as [r Hr]. rewrite Hr.
  destruct (fuel_mono (fragFuel f)) as (_ & _ & _ & Hm & _). by apply Hm.
Qed.

(** *** The equations of [matchWithBlock] *)

Lemma matchWithBlock_nil path st : matchWithBlock [] path st = (Ok true, st).
Proof. reflexivity. Qed.

Lemma matchWithBlock_descendant prefix path st :
  matchWithBlock (prefix ++ [FDescendant]) path st = matchDescendant prefix path st.
Proof.
  unfold matchWithBlock at 1. rewrite blockFuel_snoc.
  replace (blockFuel prefix + 3 + fragFuel FDescendant)
    with (S (blockFuel prefix + 5)) by (simpl; lia).
  cbn [matchWithBlock_fuel]. rewrite last_snoc.
  unfold run. by rewrite matchDescendant_fuel_indep by lia.
Qed.

Lemma matchWithBlock_frag prefix frag path st :
  frag ≠ FDescendant →
  matchWithBlock (prefix ++ [frag]) path st =
    match matchFrag frag path st with
    | (Throw e, st') => (Throw e, st')
    | (Ok m, st') =>
        if negb (matched m) then (Ok false, st')
        else if bool_decide (length (newPath m) = 0) then (Ok false, st')
        else matchWithBlock prefix (newPath m) st'
    end.
Proof.
  intros Hfrag. unfold matchWithBlock at 1. rewrite blockFuel_snoc.
  replace (blockFuel prefix + 3 + fragFuel frag)
    with (S (blockFuel prefix + 2 + fragFuel frag)) by lia.
  cbn [matchWithBlock_fuel]. rewrite last_snoc.
  assert (run (bind (matchFrag_fuel (blockFuel prefix + 2 + fragFuel frag) frag path)
                (λ m0, if negb (matched m0) then pure false
                       else if bool_decide (length (newPath m0) = 0) then pure false
                       else matchWithBlock_fuel (blockFuel prefix + 2 + fragFuel frag)
                              prefix (newPath m0))) st =
          match matchFrag frag path st with
          | (Throw e, st') => (Throw e, st')
          | (Ok m, st') =>
              if negb (matched m) then (Ok false, st')
              else if bool_decide (length (newPath m) = 0) then (Ok false, st')
              else matchWithBlock prefix (newPath m) st'
          end) as Hgen.
  { unfold run, bind. rewrite matchFrag_fuel_indep by lia.
    destruct (matchFrag frag path st) as [[m|e] st']; [|done].
    destruct (negb (matched m)); [done|]. case_bool_decide; [done|].
    by rewrite matchWithBlock_fuel_indep by lia. }
  destruct frag; try exact Hgen. done.
Qed.

Lemma firstTrue_ext {A} (f g : A → M bool) l :
  (∀ x st, x ∈ l → f x st = g x st) →
  ∀ st, firstTrue f l st = firstTrue g l st.
Proof.
  induction l as [|x l IH]; intros Hfg st; simpl; [done|].
  unfold bind. rewrite (Hfg x st) by left.
  destruct (g x st) as [[[[]|e] st']|]; try done.
  apply IH. intros y st'' Hy. apply Hfg. by right.
Qed.

Lemma matchWithSelector_fuel_blocks n sel path st :
  (∀ b, b ∈ sel → blockFuel b ≤ n) →
  firstTrue (λ b, matchWithBlock_fuel n b path) sel st
  = firstTrue (λ b st, Some (matchWithBlock b path st)) sel st.
Proof.
  intros Hn. apply firstTrue_ext. intros b st' Hb.
  apply matchWithBlock_fuel_indep. by apply Hn.
Qed.

Lemma matchWithSelector_nil path st : matchWithSelector [] path st = (Ok false, st).
Proof. reflexivity. Qed.

Lemma matchWithSelector_cons b sel path st :
  matchWithSelector (b :: sel) path st =
    match matchWithBlock b path st with
    | (Throw e, st') => (Throw e, st')
    | (Ok true, st') => (Ok true, st')
    | (Ok false, st') => matchWithSelector sel path st'
    end.
Proof.
  unfold matchWithSelector, run, selectorFuel. cbn [matchWithSelector_fuel].
  rewrite matchWithSelector_fuel_blocks.
  - cbn [firstTrue]. unfold bind.
    destruct (matchWithBlock b path st) as [[[]|e] st']; try done.
    rewrite matchWithSelector_fuel_blocks.
    + destruct (firstTrue_is_Some
                  (λ b0 st0, Some (matchWithBlock b0 path st0)) sel) with (st := st')
        as [r ->]; [by eexists|done].
    + intros b' Hb'. pose proof (blockFuel_le_selectorFuel b' sel Hb') as H.
      unfold selectorFuel in H. lia.
  - intros b' Hb'. pose proof (blockFuel_le_selectorFuel b' (b :: sel) Hb') as H.
    unfold selectorFuel in H. lia.
Qed.

Lemma matchFrag_not sel path st :
  sel ≠ [] → hd [] sel ≠ [] →
  matchFrag (FPseudo "not" (Some (inr sel))) path st =
    match matchWithSelector sel path st with
    | (Throw e, st') => (Throw e, st')
    | (Ok b, st') => (Ok (mkMatched path (negb b)), st')
    end.
Proof.
  intros Hsel Hhd. unfold matchFrag, run. rewrite fragFuel_not.
  cbn [Nat.add matchFrag_fuel matchPseudo_fuel bool_decide decide_rel].
  rewrite bool_decide_false by done. rewrite bool_decide_true by done.
  cbn [matchNot_fuel]. destruct sel as [|[|f b] sel]; [done|done|].
  unfold bind. rewrite matchWithSelector_fuel_indep by done.
  by destruct (matchWithSelector ((f :: b) :: sel) path st) as [[[]|e] st'].
Qed.

Lemma matchFrag_tag name path st :
  matchFrag (FTag name) path st = run (matchTag name path) st.
Proof. reflexivity. Qed.

Lemma matchFrag_attribute name action value ignoreCase path st :
  matchFrag (FAttribute name action value ignoreCase) path st
  = (matchAttribute name action value ignoreCase path, st).
Proof. reflexivity. Qed.

Lemma matchFrag_child path st : matchFrag FChild path st = (Ok (matchChild path), st).
Proof. reflexivity. Qed.

Lemma matchWithBlock_child prefix path st :
  matchWithBlock (prefix ++ [FChild]) path st =
    if bool_decide (length path ≤ 1) then (Ok false, st)
    else matchWithBlock prefix (sliceEnd path 1) st.
Proof.
  rewrite matchWithBlock_frag by done. rewrite matchFrag_child.
  unfold matchChild, sliceEnd.
  destruct path as [|x [|y path]]; simpl; done.
Qed.

Lemma firstTrue_fmap {A B} (f : B → M bool) (g : A → B) l st :
  firstTrue f (g <$> l) st = firstTrue (λ x, f (g x)) l st.
Proof.
  revert st. induction l as [|x l IH]; intros st; simpl; [done|].
  unfold bind. destruct (f (g x) st) as [[[[]|e] st']|]; auto.
Qed.

Lemma firstTrue_total (g : DomPath → UniqueNames → Result bool * UniqueNames)
    (f : DomPath → M bool) ps :
  (∀ p st, f p st = Some (g p st)) →
  ∀ st, ∃ r, firstTrue f ps st = Some r ∧
    (∀ st', r = (Ok true, st') ↔
       ∃ nearer p further st1,
         ps = nearer ++ p :: further ∧ allFalse g nearer st st1 ∧
         g p st1 = (Ok true, st')) ∧
    (∀ st', r = (Ok false, st') ↔ allFalse g ps st st').
Proof.
  intros Hfg. induction ps as [|p ps IH]; intros st.
  - exists (Ok false, st). split; [done|]. split; intros st'.
    + split; [done|]. intros (nearer & p & further & st1 & H & _).
      by destruct nearer.
    + split.
      * intros [= <-]. constructor.
      * inversion 1; by subst.
  - simpl. unfold bind. rewrite Hfg.
    destruct (g p st) as [[[]|e] st1] eqn:Hg.
    + exists (Ok true, st1). split; [done|]. split; intros st'.
      * split.
        -- intros [= <-]. exists [], p, ps, st. repeat split; [constructor|done].
        -- intros (nearer & q & further & st2 & Hps & Hall & Hq).
           destruct nearer as [|x nearer]; simpl in Hps.
           ++ injection Hps as -> ->. inversion Hall; subst. congruence.
           ++ injection Hps as -> ->. inversion Hall; subst. congruence.
      * split; [done|]. inversion 1; subst. congruence.
    + destruct (IH st1) as (r & Hr & Htrue & Hfalse). exists r.
      split; [done|]. split; intros st'.
      * rewrite Htrue. split.
        -- intros (nearer & q & further & st2 & -> & Hall & Hq).
           exists (p :: nearer), q, further, st2. repeat split; [|done].
           econstructor; eauto.
        -- intros (nearer & q & further & st2 & Hps & Hall & Hq).
           destruct nearer as [|x nearer]; simpl in Hps.
           ++ injection Hps as -> ->. inversion Hall; subst. congruence.
           ++ injection Hps as -> ->. inversion Hall; subst.
              exists nearer, q, further, st2. repeat split; [|done].
              congruence.
      * rewrite Hfalse. split.
        -- intros Hall. econstructor; eauto.
        -- inversion 1; subst. congruence.
    + exists (Throw e, st1). split; [done|]. split; intros st'.
      * split; [done|].
        intros (nearer & q & further & st2 & Hps & Hall & Hq).
        destruct nearer as [|x nearer]; simpl in Hps.
        -- injection Hps as -> ->. inversion Hall; subst. congruence.
        -- injection Hps as -> ->. inversion Hall; subst. congruence.
      * split; [done|]. inversion 1; subst. congruence.
Qed.

Lemma matchWithSelector_single_fuel n b path st :
  blockFuel b ≤ n →
  matchWithSelector_fuel (S n) [b] path st = Some (matchWithBlock b path st).
Proof.
  intros Hn. cbn [matchWithSelector_fuel firstTrue]. unfold bind.
  rewrite matchWithBlock_fuel_indep by done.
  by destruct (matchWithBlock b path st) as [[[]|e] st'].
Qed.

Lemma matchDescendant_spec prefix path st :
  prefix ≠ [] →
  ∃ r, matchDescendant prefix path st = r ∧
    (∀ st', r = (Ok true, st') ↔
       ∃ nearer p further st1,
         ancestorPaths path = nearer ++ p :: further ∧
         allFalse (matchWithBlock prefix) nearer st st1 ∧
         matchWithBlock prefix p st1 = (Ok true, st')) ∧
    (∀ st', r = (Ok false, st') ↔
       allFalse (matchWithBlock prefix) (ancestorPaths path) st st').
Proof.
  intros Hne. unfold matchDescendant, run. cbn [Nat.add matchDescendant_fuel].
  destruct prefix as [|f prefix]; [done|]. cbn [length Nat.leb].
  destruct (firstTrue_total (matchWithBlock (f :: prefix))
              (λ p, matchWithSelector_fuel (S (blockFuel (f :: prefix)))
                      [f :: prefix] p)
              (ancestorPaths path)) with (st := st) as (r & Hr & Ht & Hf).
  { intros p st0. by apply matchWithSelector_single_fuel. }
  unfold ancestorPaths in Hr. rewrite firstTrue_fmap in Hr.
  exists r. split; [|auto].
  match goal with |- match ?X with _ => _ end = _ =>
    replace X with (Some r) by (symmetry; exact Hr) end.
  done.
Qed.

Lemma ancestorPaths_lookup (path : DomPath) j :
  j < length path - 1 →
  ancestorPaths path !! j = Some (take (length path - 1 - j) path).
Proof.
  intros Hj. unfold ancestorPaths, sliceEnd.
  rewrite list_lookup_fmap, lookup_seq_lt by done. simpl.
  do 2 f_equal. lia.
Qed.

Lemma ancestorPaths_length (path : DomPath) :
  length (ancestorPaths path) = length path - 1.
Proof. unfold ancestorPaths. by rewrite length_fmap, length_seq. Qed.

(** C6: a block that ends in a child combinator matches a non-empty path
    only if the rest of the block matches the path without its last
    element; a block that ends in a descendant combinator matches exactly
    when the rest of the block matches the path of some strict ancestor,
    the ancestors being tried from the nearest to the furthest and the
    first match winning: every nearer ancestor was tried and did not
    match.  The rest of the block is not empty there: [matchDescendant]
    rejects an empty one as malformed. *)
Theorem combinator_matching (prefix : ParsedSelectorBlock) (path : DomPath)
    (st st' : UniqueNames) :
  path ≠ [] →
  (matchWithBlock (prefix ++ [FChild]) path st =
     if bool_decide (length path = 1) then (Ok false, st)
     else matchWithBlock prefix (sliceEnd path 1) st) ∧
  (matchWithBlock (prefix ++ [FChild]) path st = (Ok true, st') →
   matchWithBlock prefix (sliceEnd path 1) st = (Ok true, st')) ∧
  (prefix ≠ [] →
   (matchWithBlock (prefix ++ [FDescendant]) path st = (Ok true, st') ↔
    ∃ nearer p further st1,
      ancestorPaths path = nearer ++ p :: further ∧
      allFalse (matchWithBlock prefix) nearer st st1 ∧
      matchWithBlock prefix p st1 = (Ok true, st')) ∧
   (matchWithBlock (prefix ++ [FDescendant]) path st = (Ok false, st') ↔
    allFalse (matchWithBlock prefix) (ancestorPaths path) st st')) ∧
  (∀ j, j < length path - 1 →
     ancestorPaths path !! j = Some (take (length path - 1 - j) path)) ∧
  length (ancestorPaths path) = length path - 1.
Proof.
  intros Hpath.
  assert (matchWithBlock (prefix ++ [FChild]) path st =
          if bool_decide (length path = 1) then (Ok false, st)
          else matchWithBlock prefix (sliceEnd path 1) st) as Hchild.
  { rewrite matchWithBlock_child. destruct path as [|x [|y path]]; done. }
  split; [exact Hchild|]. split.
  { rewrite Hchild. case_bool_decide; [discriminate|done]. }
  split.
  { intros Hprefix. rewrite matchWithBlock_descendant.
    destruct (matchDescendant_spec prefix path st Hprefix) as (r & -> & Ht & Hf).
    split; [apply Ht|apply Hf]. }
  split.
  - apply ancestorPaths_lookup.
  - apply ancestorPaths_length.
Qed.

(** Witness of [combinator_matching]: on root / middle / leaf, the block
    "A B" (descendant) matches, through the root, after the middle
    element was tried and did not match. *)
Lemma combinator_matching_witness :
  ex_path ≠ [] ∧
  matchWithBlock ([FTag "UniqueName0A"] ++ [FDescendant]) ex_path ex_names
  = (Ok true, ex_names).
Proof.
  assert (ex_path ≠ []) as H by discriminate.
  split; [exact H|].
  destruct (combinator_matching [FTag "UniqueName0A"] ex_path ex_names ex_names H)
    as (_ & _ & Hd & _).
  destruct Hd as [Hd _]; [discriminate|].
  apply Hd. exists [[ex_root; ex_middle]], [ex_root], [], ex_names.
  split; [reflexivity|]. split.
  - econstructor; [vm_compute; reflexivity|constructor].
  - vm_compute. reflexivity.
Defined.

End CssMatchFacts.

(** ** Observer registry *)

Module ObserversFacts.
Import Observers.

#[local] Open Scope nat_scope.

Lemma settleOrder_perm {A} n : ∀ sched (pending : list A),
  n = length pending → settleOrder n sched pending ≡ₚ pending.
Proof.
  induction n as [|n IH]; intros sched pending Hn; simpl.
  - by destruct pending.
  - assert (hd 0 sched `mod` length pending < length pending) as Hlt
      by (apply Nat.mod_upper_bound; lia).
    destruct (lookup_lt_is_Some_2 pending _ Hlt) as [x Hx]. rewrite Hx.
    etrans; [|symmetry; apply (delete_Permutation pending _ x Hx)].
    constructor. apply IH. rewrite length_delete by eauto. lia.
Qed.

Lemma foldl_settle l : ∀ st,
  errors (foldl settle st l) = errors st ++ omap failureMessage l ∧
  warnings (foldl settle st l) = warnings st ++ omap failureMessage l.
Proof.
  induction l as [|w l IH]; intros st; simpl.
  - by rewrite !app_nil_r.
  - destruct (IH (settle st w)) as [-> ->].
    unfold settle, failureMessage. destruct (st_settled w); simpl.
    + done.
    + by rewrite <- !app_assoc.
Qed.

Lemma foldl_settle_ret l : ∀ st name ob,
  ret (foldl settle st l) !! name = Some ob →
  ret st !! name = Some ob ∨
  ∃ w, w ∈ l ∧ st_name w = name ∧
       st_settled w = Resolved (observations ob) ∧ queries ob = st_queries w.
Proof.
  induction l as [|w l IH]; intros st name ob; simpl; [auto|].
  intros H. destruct (IH _ _ _ H) as [H1|(w' & Hin & Hw')].
  - unfold settle in H1. destruct (st_settled w) as [o|e] eqn:E; simpl in H1.
    + destruct (decide (st_name w = name)) as [Heq|Hne].
      * subst name. rewrite lookup_insert_eq in H1. injection H1 as <-.
        right. exists w. split; [left|]. auto.
      * rewrite lookup_insert_ne in H1 by done. auto.
    + auto.
  - right. exists w'. split; [by right|done].
Qed.

Lemma foldl_settle_ret_keeps l : ∀ st name,
  (∀ w, w ∈ l → st_name w = name →
        ∀ o, st_settled w = Resolved o →
             ret st !! name = Some (mkObservation o (st_queries w))) →
  is_Some (ret st !! name) →
  ret (foldl settle st l) !! name = ret st !! name.
Proof.
  induction l as [|w l IH]; intros st name Hsame Hsome; simpl; [done|].
  assert (ret (settle st w) !! name = ret st !! name) as Hstep.
  { unfold settle. destruct (st_settled w) as [o|e] eqn:E; simpl; [|done].
    destruct (decide (st_name w = name)) as [Heq|Hne].
    - rewrite <- Heq, lookup_insert_eq. symmetry. rewrite Heq.
      apply Hsame; [left|done|done].
    - by rewrite lookup_insert_ne. }
  rewrite IH; [done| |by rewrite Hstep].
  intros w' Hin Hn o Ho. rewrite Hstep. apply Hsame; [by right|done|done].
Qed.

Lemma foldl_settle_ret_has l : ∀ st w,
  w ∈ l →
  (∀ w1 w2, w1 ∈ l → w2 ∈ l → st_name w1 = st_name w2 → w1 = w2) →
  ∀ o, st_settled w = Resolved o →
  ret (foldl settle st l) !! st_name w = Some (mkObservation o (st_queries w)).
Proof.
  induction l as [|w0 l IH]; intros st w Hin Hfun o Ho; [by inversion Hin|].
  simpl. destruct (decide (st_name w ∈ st_name <$> l)) as [Hl|Hl].
  - apply list_elem_of_fmap in Hl as (w' & Hn & Hin').
    assert (w = w') as <- by (apply Hfun; [done|by right|done]).
    apply IH; [done| |done]. intros w1 w2 H1 H2. apply Hfun; by right.
  - assert (w = w0) as ->.
    { apply elem_of_cons in Hin as [->|Hin]; [done|].
      destruct Hl. apply list_elem_of_fmap. eauto. }
    rewrite foldl_settle_ret_keeps.
    + unfold settle. rewrite Ho. simpl. by rewrite lookup_insert_eq.
    + intros w' Hin' Hn o' Ho'.
      destruct Hl. apply list_elem_of_fmap. eauto.
    + unfold settle. rewrite Ho. simpl. rewrite lookup_insert_eq. eauto.
Qed.

Lemma filter_Forall_id {A} (P : A → Prop) `{∀ x, Decision (P x)} (l : list A) :
  Forall P l → filter P l = l.
Proof.
  induction 1 as [|x l Hx Hl IH]; [done|].
  rewrite filter_cons_True by done. by f_equal.
Qed.

Lemma findObserver_hasProperty observers name :
  hasProperty observers name = true ↔ findObserver observers name ≠ NotFound.
Proof.
  unfold hasProperty, findObserver. destruct (observers !! name) as [obs|].
  - rewrite bool_decide_true by eauto. done.
  - rewrite bool_decide_false by (by intros [x Hx]). simpl.
    by destruct (bool_decide (name ∈ objectPrototypeNames)).
Qed.

Lemma startAll_names notCallable observers executedQueries names :
  st_name <$> startAll notCallable observers executedQueries names
  = filter (λ name, hasProperty observers name = true) names.
Proof.
  induction names as [|n names IH]; [done|]. simpl.
  pose proof (findObserver_hasProperty observers n) as Hn.
  destruct (findObserver observers n) as [obs| |].
  - rewrite filter_cons_True by (by apply Hn). rewrite fmap_cons. simpl. by f_equal.
  - rewrite filter_cons_True by (by apply Hn). rewrite fmap_cons. simpl. by f_equal.
  - rewrite filter_cons_False; [done|]. intros H. by apply Hn in H.
Qed.

Lemma elem_of_startAll notCallable observers executedQueries names w :
  w ∈ startAll notCallable observers executedQueries names ↔
  ∃ name, name ∈ names ∧
    match findObserver observers name with
    | FoundPlugin obs =>
        w = mkStarted name (queriesFor executedQueries name)
              (plugin_observe obs (queriesFor executedQueries name))
    | FoundInherited => w = mkStarted name [] (Rejected (ThrownError notCallable))
    | NotFound => False
    end.
Proof.
  unfold queriesFor. induction names as [|n names IH]; simpl.
  - split; [by inversion 1|]. intros (name & H & _). by inversion H.
  - assert ((∃ name, name ∈ n :: names ∧
               match findObserver observers name with
               | FoundPlugin obs =>
                   w = mkStarted name
                         (match executedQueries !! name with Some q => q | None => [] end)
                         (plugin_observe obs
                            (match executedQueries !! name with
                             | Some q => q | None => [] end))
               | FoundInherited =>
                   w = mkStarted name [] (Rejected (ThrownError notCallable))
               | NotFound => False
               end)
            ↔ match findObserver observers n with
              | FoundPlugin obs =>
                  w = mkStarted n
                        (match executedQueries !! n with Some q => q | None => [] end)
                        (plugin_observe obs
                           (match executedQueries !! n with
                            | Some q => q | None => [] end))
              | FoundInherited =>
                  w = mkStarted n [] (Rejected (ThrownError notCallable))
              | NotFound => False
              end
              ∨ w ∈ startAll notCallable observers executedQueries names) as ->.
    { rewrite IH. split.
      - intros (name & Hin & H). apply elem_of_cons in Hin as [->|Hin]; [by left|].
        right. eauto.
      - intros [H|(name & Hin & H)].
        + exists n. split; [left|done].
        + exists name. split; [by right|done]. }
    destruct (findObserver observers n) as [obs| |];
      rewrite ?elem_of_cons; tauto.
Qed.

Lemma elem_of_startAll_plugin notCallable observers executedQueries names name obs :
  name ∈ names → observers !! name = Some obs →
  mkStarted name (queriesFor executedQueries name)
    (plugin_observe obs (queriesFor executedQueries name))
  ∈ startAll notCallable observers executedQueries names.
Proof.
  intros Hin Hobs. apply elem_of_startAll. exists name. split; [done|].
  unfold findObserver. by rewrite Hobs.
Qed.

Lemma elem_of_startAll_inherited notCallable observers executedQueries names name :
  name ∈ names → observers !! name = None → name ∈ objectPrototypeNames →
  mkStarted name [] (Rejected (ThrownError notCallable))
  ∈ startAll notCallable observers executedQueries names.
Proof.
  intros Hin Hobs Hp. apply elem_of_startAll. exists name. split; [done|].
  unfold findObserver. rewrite Hobs. by rewrite bool_decide_true.
Qed.

(** What has been started under a name: the call of the observer
    registered under it, or the failed call of an inherited member. *)
Lemma startAll_inv notCallable observers executedQueries names w :
  w ∈ startAll notCallable observers executedQueries names →
  st_name w ∈ names ∧
  match observers !! st_name w with
  | Some obs =>
      st_queries w = queriesFor executedQueries (st_name w) ∧
      st_settled w = plugin_observe obs (st_queries w)
  | None =>
      st_name w ∈ objectPrototypeNames ∧
      w = mkStarted (st_name w) [] (Rejected (ThrownError notCallable))
  end.
Proof.
  intros (name & Hin & H)%elem_of_startAll. unfold findObserver in H.
  destruct (observers !! name) as [obs|] eqn:E.
  - subst w. simpl. by rewrite E.
  - case_bool_decide as Hp; [|done]. subst w. simpl. by rewrite E.
Qed.

Lemma startAll_functional notCallable observers executedQueries names w1 w2 :
  w1 ∈ startAll notCallable observers executedQueries names →
  w2 ∈ startAll notCallable observers executedQueries names →
  st_name w1 = st_name w2 → w1 = w2.
Proof.
  intros [_ H1]%startAll_inv [_ H2]%startAll_inv Hn. rewrite <- Hn in H2.
  destruct (observers !! st_name w1) as [obs|].
  - destruct w1, w2. simpl in *. destruct H1 as [-> ->], H2 as [-> ->].
    by subst.
  - destruct H1 as [_ ->], H2 as [_ ->]. simpl. by rewrite Hn.
Qed.

Lemma startAll_skip notCallable observers executedQueries names name :
  findObserver observers name = NotFound →
  startAll notCallable observers executedQueries (filter (λ n, n ≠ name) names)
  = startAll notCallable observers executedQueries names.
Proof.
  intros Hnone. induction names as [|n names IH]; [done|].
  rewrite filter_cons. destruct (decide (n ≠ name)) as [Hne|Heq]; simpl.
  - by rewrite IH.
  - apply dec_stable in Heq. subst n. by rewrite Hnone.
Qed.

Lemma no_failures l :
  forallb succeeded l = true ↔ omap failureMessage l = [].
Proof.
  induction l as [|w l IH]; simpl; [done|].
  unfold succeeded at 1, failureMessage at 1.
  destruct (st_settled w); simpl; [exact IH|]. split; discriminate.
Qed.

Lemma observationsOf_observe notCallable observers executedQueries logger names sched :
  observationsOf (observe notCallable observers executedQueries logger names sched)
  = ret (foldl settle (mkObserveState ∅ [] logger)
           (settleOrder
              (length (startAll notCallable observers executedQueries names)) sched
              (startAll notCallable observers executedQueries names))).
Proof. unfold observationsOf, observe. simpl. by case_bool_decide. Qed.

Lemma observe_observations_sound notCallable observers executedQueries logger names
    sched name ob :
  observationsOf (observe notCallable observers executedQueries logger names sched)
    !! name = Some ob →
  ∃ w, w ∈ startAll notCallable observers executedQueries names ∧ st_name w = name ∧
       st_settled w = Resolved (observations ob) ∧ queries ob = st_queries w.
Proof.
  rewrite observationsOf_observe. intros H.
  apply foldl_settle_ret in H as [H|(w & Hin & Hw)]; [done|].
  exists w. split; [|done].
  by rewrite <- (settleOrder_perm
                   (length (startAll notCallable observers executedQueries names))
                   sched (startAll notCallable observers executedQueries names) eq_refl).
Qed.

Lemma observe_calls_registered notCallable observers executedQueries logger names
    sched name obs :
  name ∈ names → observers !! name = Some obs →
  (name, queriesFor executedQueries name)
  ∈ calls (observe notCallable observers executedQueries logger names sched).
Proof.
  intros Hin Hobs. unfold observe. simpl.
  apply (list_elem_of_fmap_2 (λ w, (st_name w, st_queries w)) _
           (mkStarted name (queriesFor executedQueries name)
              (plugin_observe obs (queriesFor executedQueries name)))).
  apply list_elem_of_filter. split.
  - unfold isCall. simpl. rewrite bool_decide_true; eauto.
  - by apply elem_of_startAll_plugin.
Qed.


(** C10, at the names the code does not skip.  A name of
    [observerNames] under which nothing is registered, but which every
    object inherits from [Object.prototype], is not passed over: calling
    the [observe] method of what is found fails, the failure is logged
    as a warning, and [observe] throws. *)
Theorem inherited_name_not_skipped (notCallable : string)
    (observers : gmap string ObserverPlugin)
    (executedQueries : gmap string (list ExecutedQuery))
    (logger : list string) (observerNames : list string) (sched : list nat)
    (name : string) :
  name ∈ observerNames →
  observers !! name = None →
  name ∈ objectPrototypeNames →
  let r := observe notCallable observers executedQueries logger observerNames sched in
  let msg := "Error observing for " +:+ name +:+ ": " +:+ notCallable in
  (∃ before after, logged r = logger ++ before ++ msg :: after) ∧
  (∃ e, result r = Throws e) ∧
  observationsOf r !! name = None ∧
  name ∉ (fst <$> calls r).
Proof.
  intros Hin Hnone Hp r msg.
  set (started := startAll notCallable observers executedQueries observerNames).
  set (settled := settleOrder (length started) sched started).
  assert (settled ≡ₚ started) as Hperm by (by apply settleOrder_perm).
  set (w := mkStarted name [] (Rejected (ThrownError notCallable))).
  assert (w ∈ started) as Hw by (by apply elem_of_startAll_inherited).
  assert (w ∈ settled) as Hw' by (by rewrite Hperm).
  destruct (foldl_settle settled (mkObserveState ∅ [] logger)) as [Herr Hwarn].
  simpl in Herr, Hwarn.
  assert (msg ∈ omap failureMessage settled) as Hmsg.
  { apply list_elem_of_omap. exists w. split; [done|]. done. }
  split; [|split; [|split]].
  - apply list_elem_of_split in Hmsg as (before & after & Hsplit).
    exists before, after. unfold r, observe. fold started. fold settled.
    cbn [logged]. by rewrite Hwarn, Hsplit.
  - unfold r, observe. fold started. fold settled. cbn [result].
    rewrite bool_decide_true; [eauto|].
    rewrite Herr. intros Hlen. apply length_zero_iff_nil in Hlen.
    rewrite Hlen in Hmsg. by apply elem_of_nil in Hmsg.
  - destruct (observationsOf r !! name) as [ob|] eqn:E; [|done].
    apply observe_observations_sound in E as (w0 & Hw0 & Hn & Hres & _).
    apply startAll_inv in Hw0 as [_ Hw0]. rewrite Hn, Hnone in Hw0.
    destruct Hw0 as [_ ->]. done.
  - unfold r, observe. cbn [calls]. rewrite <- list_fmap_compose.
    intros (w0 & Hn & Hw0)%list_elem_of_fmap. simpl in Hn.
    apply list_elem_of_filter in Hw0 as [Hc _].
    unfold isCall in Hc. apply bool_decide_eq_true in Hc as [x Hx].
    congruence.
Qed.

(** Witness of [inherited_name_not_skipped]: with nothing registered,
    the name "toString" makes [observe] throw. *)
Lemma inherited_name_not_skipped_witness :
  "toString" ∈ ["toString"] ∧
  (∅ : gmap string ObserverPlugin) !! "toString" = None ∧
  "toString" ∈ objectPrototypeNames ∧
  ∀ notCallable,
    logged (observe notCallable ∅ ∅ [] ["toString"] [])
    = ["Error observing for toString: " +:+ notCallable] ∧
    ∃ e, result (observe notCallable ∅ ∅ [] ["toString"] []) = Throws e.
Proof.
  assert ("toString" ∈ ["toString"]) as H1 by left.
  assert ((∅ : gmap string ObserverPlugin) !! "toString" = None) as H2
    by apply lookup_empty.
  assert ("toString" ∈ objectPrototypeNames) as H3.
  { apply (bool_decide_unpack _). vm_compute. exact I. }
  split; [exact H1|]. split; [exact H2|]. split; [exact H3|].
  intros notCallable.
  destruct (inherited_name_not_skipped notCallable ∅ ∅ [] ["toString"] []
              "toString" H1 H2 H3) as (_ & H5 & _).
  split; [reflexivity|exact H5].
Defined.

(** X25: a name under which [observers[name]] is [undefined], which is
    a name that is neither registered nor inherited from
    [Object.prototype], is passed over: the run is the run without that
    name, and the name gets no observation, no call and no warning. *)
Theorem unregistered_name_skipped (notCallable : string)
    (observers : gmap string ObserverPlugin)
    (executedQueries : gmap string (list ExecutedQuery))
    (logger : list string) (observerNames : list string) (sched : list nat)
    (name : string) :
  observers !! name = None →
  name ∉ objectPrototypeNames →
  let r := observe notCallable observers executedQueries logger observerNames sched in
  r = observe notCallable observers executedQueries logger
        (filter (λ n, n ≠ name) observerNames) sched ∧
  observationsOf r !! name = None ∧
  (name ∉ fst <$> calls r) ∧
  (∀ w, w ∈ startAll notCallable observers executedQueries observerNames →
        st_name w ≠ name) ∧
  (∀ other obs, other ∈ observerNames → observers !! other = Some obs →
     (other, queriesFor executedQueries other) ∈ calls r).
Proof.
  intros Hnone Hp r.
  assert (findObserver observers name = NotFound) as Hnf.
  { unfold findObserver. rewrite Hnone. by rewrite bool_decide_false. }
  assert (∀ w, w ∈ startAll notCallable observers executedQueries observerNames →
               st_name w ≠ name) as Hnot.
  { intros w Hw Hn. apply startAll_inv in Hw as [_ Hw].
    rewrite Hn, Hnone in Hw. by destruct Hw as [Hw _]. }
  split; [|split; [|split; [|split]]].
  - unfold r, observe. by rewrite startAll_skip.
  - destruct (observationsOf r !! name) as [ob|] eqn:E; [|done].
    destruct (observe_observations_sound notCallable observers executedQueries logger
                observerNames sched name ob E) as (w & Hin & Hn & _).
    by destruct (Hnot w Hin).
  - unfold r, observe. simpl. rewrite <- list_fmap_compose.
    intros Hin. apply list_elem_of_fmap in Hin as (w & Hn & Hin). simpl in Hn.
    apply list_elem_of_filter in Hin as [_ Hin].
    by destruct (Hnot w Hin).
  - exact Hnot.
  - intros other obs. apply observe_calls_registered.
Qed.

(** Witness of [unregistered_name_skipped]: no observer is called
    "missing". *)
Lemma unregistered_name_skipped_witness :
  ex_observers !! "missing" = None ∧
  ("missing" ∉ objectPrototypeNames) ∧
  ∀ notCallable,
    observationsOf (observe notCallable ex_observers ∅ [] ["good"; "missing"] [])
      !! "missing" = None.
Proof.
  assert (ex_observers !! "missing" = None) as H by (vm_compute; reflexivity).
  assert ("missing" ∉ objectPrototypeNames) as Hp.
  { apply (bool_decide_unpack _). vm_compute. exact I. }
  split; [exact H|]. split; [exact Hp|]. intros notCallable.
  destruct (unregistered_name_skipped notCallable ex_observers ∅ []
              ["good"; "missing"] [] "missing" H Hp) as (_ & H2 & _).
  exact H2.
Defined.

End ObserversFacts.

(** ** History commits and dry runs *)

Module OpsFacts.
Import DeployTypes Server StatusTracker Ops.
Import StatusTrackerFacts.

Lemma commit_after_commit isStatusComplete env e1 env1 :
  commit isStatusComplete env e1 = (Ok (), env1) →
  lastCommit env1 = Some (status e1).
Proof.
  unfold commit.
  destruct (bool_decide (lastCommit env = Some preAct)) eqn:E1;
    destruct (bool_decide (status e1 = preAct)) eqn:E2; simpl.
  - intros [= <-]. apply bool_decide_eq_true in E1, E2. congruence.
  - destruct (match lastCommit env with Some lc => isStatusComplete lc | None => false end);
      [discriminate|].
    destruct (env_dryRun env); simpl; by intros [= <-].
  - destruct (match lastCommit env with Some lc => isStatusComplete lc | None => false end);
      [discriminate|].
    destruct (env_dryRun env); simpl; by intros [= <-].
  - destruct (match lastCommit env with Some lc => isStatusComplete lc | None => false end);
      [discriminate|].
    destruct (env_dryRun env); simpl; by intros [= <-].
Qed.

(** C5: after a commit that went through, committing the same terminal
    phase again throws an [InternalError], and committing [preAct] again
    after [preAct] returns without a write and without an error: the
    closure and the deployment store stay as they were. *)
Theorem commit_ordering (isStatusComplete : HistoryStatus → bool)
    (env env1 : CommitEnv) (e1 e2 : CommitData) :
  isStatusComplete preAct = false →
  commit isStatusComplete env e1 = (Ok (), env1) →
  status e2 = status e1 →
  (isStatusComplete (status e1) = true →
     commit isStatusComplete env1 e2
     = (Throw (InternalError "Attempt to commit a repeated final HistoryStatus"), env1)) ∧
  (status e1 = preAct → commit isStatusComplete env1 e2 = (Ok (), env1)).
Proof.
  intros Hpre H1 Hsame.
  pose proof (commit_after_commit _ _ _ _ H1) as Hlast.
  split.
  - intros Hc. unfold commit. rewrite Hlast, Hc.
    assert (status e1 ≠ preAct) as Hne by congruence.
    rewrite (bool_decide_false (Some (status e1) = Some preAct)) by congruence.
    done.
  - intros He1. unfold commit. rewrite Hlast, Hsame, He1.
    by rewrite !bool_decide_true.
Qed.

(** *** Dry runs *)

Lemma constructor_step_frame t n :
  deployment (constructor_step t n) = deployment t ∧
  dryRun (constructor_step t n) = dryRun t ∧
  stepID (constructor_step t n) = stepID t.
Proof.
  unfold constructor_step. destruct (element n) as [el|]; [|done].
  destruct (finalDom el), (shouldTrackStatus n); done.
Qed.

Lemma foldl_constructor_frame l : ∀ t,
  deployment (foldl constructor_step t l) = deployment t ∧
  dryRun (foldl constructor_step t l) = dryRun t ∧
  stepID (foldl constructor_step t l) = stepID t.
Proof.
  induction l as [|n l IH]; intros t; simpl; [done|].
  destruct (IH (constructor_step t n)) as (-> & -> & ->).
  apply constructor_step_frame.
Qed.

Lemma foldl_constructor_goal l : ∀ t,
  goalStatus (foldl constructor_step t l) = goalStatus t.
Proof.
  induction l as [|n l IH]; intros t; simpl; [done|]. rewrite IH.
  unfold constructor_step. destruct (element n) as [el|]; [|done].
  destruct (finalDom el), (shouldTrackStatus n); done.
Qed.

Lemma reachable_dry options t :
  reachable options t →
  dryRun t = opt_dryRun options ∧ goalStatus t = opt_goalStatus options ∧
  (opt_dryRun options = true →
   stepID t = None ∧ deployment t = opt_deployment options).
Proof.
  induction 1 as [|t Hr IH|t n s err d Hr IH|t sc Hr IH].
  - unfold constructor. rewrite foldl_constructor_goal.
    match goal with |- context [foldl constructor_step ?t0 ?l] =>
      destruct (foldl_constructor_frame l t0) as (-> & -> & ->) end.
    done.
  - destruct IH as (Hd & Hg & IH). unfold initDeploymentStatus.
    destruct (dryRun t) eqn:E; [split; [congruence|split; [done|exact IH]]|].
    simpl. rewrite E. split; [done|]. split; [done|]. congruence.
  - destruct IH as (Hd & Hg & IH).
    destruct (set_effect t n s err d) as [->|H]; [done|].
    destruct H as (oldStat & _ & _ & _ & _ & _ & _ & _ & -> & -> & -> & _ & Hdep).
    split; [done|]. split; [done|]. intros Hopt.
    destruct (IH Hopt) as [Hs Hdep']. split; [done|]. by rewrite Hdep.
  - destruct IH as (Hd & Hg & IH).
    pose proof (complete_frame t sc) as H; simpl in H.
    destruct H as (_ & _ & _ & _ & _ & _ & Hdry & Hstep & Hgoal).
    split; [congruence|]. split; [congruence|].
    intros Hopt. destruct (IH Hopt) as [Hs Hdep]. split; [congruence|].
    unfold complete. case_decide; [done|]. simpl. by rewrite Hs.
Qed.

Lemma act_reachable options actions : ∀ t executed,
  reachable options t →
  reachable options (fst (foldl actOne (t, executed) actions)).
Proof.
  induction actions as [|a actions IH]; intros t executed Hr; simpl; [done|].
  apply IH. by constructor.
Qed.

Lemma act_dry_executes_nothing options actions : ∀ t executed,
  reachable options t → opt_dryRun options = true →
  snd (foldl actOne (t, executed) actions) = executed.
Proof.
  induction actions as [|a actions IH]; intros t executed Hr Hdry; simpl; [done|].
  destruct (reachable_dry options t Hr) as (Hd & _). rewrite Hd, Hdry.
  apply IH; [by constructor|done].
Qed.

Lemma set_dry_skips t n statExt descr old name task :
  dryRun t = true →
  map_get (statMap t) n = Some old →
  isFinalStatus old = false →
  statExt ≠ old →
  isGoalStatus (toDeployStatus statExt) = true →
  shouldTrackStatus n = true →
  taskMap t !! nodeRef n = Some name →
  tasks t !! name = Some task →
  state task = Created ∨ state task = Started →
  stepID t = None →
  fst (set t n statExt None descr) = Ok true ∧
  state <$> (tasks (snd (set t n statExt None descr)) !! name) = Some Skipped.
Proof.
  intros Hdry Hg Hf Hne Hgoal Htrack Htm Htask Hstate Hstep.
  unfold set, get. rewrite Hg, Hf, bool_decide_false by done. simpl.
  pose proof (updateCount_frame (with_statMap t (map_set (statMap t) n statExt))
    n (toDeployStatus old) (toDeployStatus statExt)) as (_ & _ & Hc3 & Hc2 & _ & Hc4 & Hc5).
  simpl in Hc2, Hc3, Hc4, Hc5.
  unfold updateTask, getTask. rewrite Htrack, Hc5, Htm, Hc4, Htask. simpl.
  rewrite writeStatus_no_step by (simpl; congruence). simpl.
  split; [done|]. rewrite lookup_alter_eq, Htask. simpl. f_equal.
  rewrite Hc2, Hdry. unfold updateTask_on. rewrite Hgoal.
  assert (∀ task', state task' = state task →
            state (if bool_decide (state task' = Created)
                      || bool_decide (state task' = Started)
                   then task_skipped task' else task') = Skipped) as Hskip.
  { intros task' ->. destruct Hstate as [-> | ->]; done. }
  destruct descr as [d|]; [|by apply Hskip].
  destruct (decide (d = "")); by apply Hskip.
Qed.

(** C8: in a dry run the status tracker allocates no step and leaves the
    deployment store alone, [commit] does not call [commitEntry], no
    action executor is invoked, and a [set] that takes a tracked node to a
    goal status marks the node's task, if it was created or started, as
    skipped. *)
Theorem dry_run_purity (options : StatusTrackerOptions) (t : Tracker)
    (isStatusComplete : HistoryStatus → bool) (env : CommitEnv)
    (entry : CommitData) :
  opt_dryRun options = true →
  reachable options t →
  env_dryRun env = true →
  (stepID t = None ∧ deployment t = opt_deployment options) ∧
  env_deployment (snd (commit isStatusComplete env entry)) = env_deployment env ∧
  (∀ actions,
     snd (act t actions) = [] ∧
     stepID (fst (act t actions)) = None ∧
     deployment (fst (act t actions)) = opt_deployment options) ∧
  (∀ stateChanged, deployment (snd (complete t stateChanged)) = opt_deployment options) ∧
  (∀ n statExt descr old name task,
     map_get (statMap t) n = Some old →
     isFinalStatus old = false →
     statExt ≠ old →
     isGoalStatus (toDeployStatus statExt) = true →
     shouldTrackStatus n = true →
     taskMap t !! nodeRef n = Some name →
     tasks t !! name = Some task →
     state task = Created ∨ state task = Started →
     fst (set t n statExt None descr) = Ok true ∧
     state <$> (tasks (snd (set t n statExt None descr)) !! name) = Some Skipped).
Proof.
  intros Hopt Hr Henv.
  destruct (reachable_dry options t Hr) as (Hd & _ & H). destruct (H Hopt) as [Hs Hdep].
  split; [done|]. split; [|split; [|split]].
  - unfold commit.
    destruct (bool_decide (lastCommit env = Some preAct)
              && bool_decide (status entry = preAct)); [done|].
    destruct (match lastCommit env with Some lc => isStatusComplete lc | None => false end);
      [done|].
    simpl. by rewrite Henv.
  - intros actions. unfold act. split.
    + by apply (act_dry_executes_nothing options).
    + pose proof (act_reachable options actions t [] Hr) as Hr'.
      destruct (reachable_dry options _ Hr') as (_ & _ & H'). by apply H'.
  - intros sc. pose proof (reach_complete options t sc Hr) as Hr'.
    destruct (reachable_dry options _ Hr') as (_ & _ & H'). by apply H'.
  - intros n statExt descr old name task Hg Hf Hne Hgoal Htrack Htm Htask Hstate.
    apply (set_dry_skips t n statExt descr old name task); try done. congruence.
Qed.

(** Witness of [commit_ordering]: a second [success] commit throws. *)
Lemma commit_ordering_witness :
  ex_isStatusComplete preAct = false ∧
  commit ex_isStatusComplete ex_env (ex_entry success)
  = (Ok (), snd (commit ex_isStatusComplete ex_env (ex_entry success))) ∧
  isInternalError
    (fst (commit ex_isStatusComplete
            (snd (commit ex_isStatusComplete ex_env (ex_entry success)))
            (ex_entry success))) = true.
Proof.
  assert (ex_isStatusComplete preAct = false) as H1 by reflexivity.
  assert (commit ex_isStatusComplete ex_env (ex_entry success)
          = (Ok (), snd (commit ex_isStatusComplete ex_env (ex_entry success))))
    as H2 by reflexivity.
  split; [exact H1|]. split; [exact H2|].
  destruct (commit_ordering ex_isStatusComplete ex_env _ (ex_entry success)
              (ex_entry success) H1 H2 eq_refl) as [H3 _].
  rewrite H3; reflexivity.
Defined.

(** Witness of [dry_run_purity]: a dry run over the small deployment;
    node A reaches [Deployed] and its task is skipped. *)
Lemma dry_run_purity_witness :
  opt_dryRun ex_dry_options = true ∧
  reachable ex_dry_options (createStatusTracker ex_dry_options) ∧
  env_dryRun ex_dry_env = true ∧
  stepID (createStatusTracker ex_dry_options) = None ∧
  deployment (createStatusTracker ex_dry_options) = opt_deployment ex_dry_options ∧
  state <$> (tasks (snd (set (createStatusTracker ex_dry_options) ex_nodeA
                           (Ext Deployed) None None)) !! "a") = Some Skipped.
Proof.
  assert (reachable ex_dry_options (createStatusTracker ex_dry_options)) as H.
  { unfold createStatusTracker. apply reach_init, reach_new. }
  split; [reflexivity|]. split; [exact H|]. split; [reflexivity|].
  destruct (dry_run_purity ex_dry_options (createStatusTracker ex_dry_options)
              ex_isStatusComplete ex_dry_env (ex_entry preAct) eq_refl H eq_refl)
    as ((H1 & H2) & _ & _ & _ & H5).
  split; [exact H1|]. split; [exact H2|].
  destruct (H5 ex_nodeA (Ext Deployed) None (Ext Waiting) "a"
              (mkTask Created "CompA" false None)) as [_ H6].
  - vm_compute. reflexivity.
  - reflexivity.
  - discriminate.
  - reflexivity.
  - reflexivity.
  - vm_compute. reflexivity.
  - vm_compute. reflexivity.
  - left. reflexivity.
  - exact H6.
Defined.

End OpsFacts.

(** ** Strings *)

Module StringFacts.

Lemma string_app_cons (x : Ascii.ascii) (a b : string) :
  String x a +:+ b = String x (a +:+ b).
Proof. reflexivity. Qed.

Lemma string_app_nil_l (b : string) : "" +:+ b = b.
Proof. reflexivity. Qed.

Lemma string_app_assoc (a b c : string) : (a +:+ b) +:+ c = a +:+ (b +:+ c).
Proof.
  induction a as [|x a IH]; [done|]. rewrite !string_app_cons. by f_equal.
Qed.

Lemma string_app_nil_r (a : string) : a +:+ "" = a.
Proof. induction a as [|x a IH]; [done|]. rewrite string_app_cons. by f_equal. Qed.

End StringFacts.

(** ** State of the status tracker (deploy/status_tracker.ts) *)

Module TrackerStateFacts.
Import DeployTypes Server StatusTracker StatusTrackerFacts OpsFacts.

Lemma tGroup_add_is_Some g id desc triv name :
  is_Some (tGroup_add g id desc triv !! name) ↔ name = id ∨ is_Some (g !! name).
Proof.
  unfold tGroup_add. destruct (g !! id) as [x|] eqn:E.
  - split; [auto|]. intros [->|H]; [rewrite E; eauto|done].
  - destruct (decide (name = id)) as [->|Hne].
    + rewrite lookup_insert_eq. split; eauto.
    + rewrite lookup_insert_ne by done. split; [auto|]. by intros [?|?].
Qed.

Lemma constructor_step_tasks_ok l t n :
  tasks_ok l t → tasks_ok (l ++ [n]) (constructor_step t n).
Proof.
  intros [H1 H2]. unfold constructor_step, shouldTrackStatus.
  destruct (element n) as [el|] eqn:En.
  - assert (∀ t' : Tracker, taskMap t' = taskMap t → tasks t' = tasks t →
        tasks_ok (l ++ [n])
          (with_statMap
             (with_tasks t' (<[nodeRef n := elId el]> (taskMap t'))
                (tGroup_add (tasks t') (elId el) (componentName el) (isTrivial n)))
             (map_set (statMap (with_tasks t' (<[nodeRef n := elId el]> (taskMap t'))
                (tGroup_add (tasks t') (elId el) (componentName el) (isTrivial n)))) n (Ext Waiting)))) as Hgen.
    { intros t' Htm Hts. split; simpl; rewrite ?Htm, ?Hts.
      - intros k Hk Hel. apply elem_of_app in Hk as [Hk|Hk%list_elem_of_singleton].
        + destruct (decide (nodeRef k = nodeRef n)) as [->|Hne].
          * rewrite lookup_insert_eq. eauto.
          * rewrite lookup_insert_ne by done. by apply H1.
        + subst k. rewrite lookup_insert_eq. eauto.
      - intros ref name. rewrite tGroup_add_is_Some.
        destruct (decide (ref = nodeRef n)) as [->|Hne].
        + rewrite lookup_insert_eq. intros [= <-]. by left.
        + rewrite lookup_insert_ne by done. intros H. right. by eapply H2. }
    destruct (finalDom el); apply Hgen; reflexivity.
  - split; simpl.
    + intros k Hk Hel. apply elem_of_app in Hk as [Hk|Hk%list_elem_of_singleton].
      * by apply H1.
      * subst k. congruence.
    + exact H2.
Qed.

Lemma foldl_constructor_tasks_ok l : ∀ t done,
  tasks_ok done t → tasks_ok (done ++ l) (foldl constructor_step t l).
Proof.
  induction l as [|n l IH]; intros t done H; simpl.
  - by rewrite app_nil_r.
  - replace (done ++ n :: l) with ((done ++ [n]) ++ l)
      by (rewrite <- app_assoc; reflexivity).
    apply IH. by apply constructor_step_tasks_ok.
Qed.

Lemma updateTask_tasks t n o s err d name :
  is_Some (tasks (snd (updateTask t n o s err d)) !! name) ↔ is_Some (tasks t !! name).
Proof.
  unfold updateTask. destruct (getTask t n) as [[x|]|e]; simpl; [|done|done].
  destruct (decide (x = name)) as [->|Hne].
  - rewrite lookup_alter_eq. by rewrite fmap_is_Some.
  - by rewrite lookup_alter_ne.
Qed.

Lemma set_tasks t n statExt err descr name :
  is_Some (tasks (snd (set t n statExt err descr)) !! name) ↔ is_Some (tasks t !! name).
Proof.
  unfold set. destruct (get t n) as [oldStat|e]; [|done].
  destruct (bool_decide (statExt = oldStat) || isFinalStatus oldStat); [done|].
  set (t1 := with_statMap t (map_set (statMap t) n statExt)).
  set (t2 := updateCount t1 n (toDeployStatus oldStat) (toDeployStatus statExt)).
  assert (tasks t2 = tasks t) as Ht2.
  { pose proof (updateCount_frame t1 n (toDeployStatus oldStat) (toDeployStatus statExt)) as H.
    simpl in H. destruct H as (_ & _ & _ & _ & _ & H & _). unfold t2. rewrite H. reflexivity. }
  pose proof (updateTask_tasks t2 n oldStat (toDeployStatus statExt) err descr name) as Hu.
  destruct (updateTask t2 n oldStat (toDeployStatus statExt) err descr) as [r3 t3].
  simpl in Hu. pose proof (writeStatus_frame t3 n err) as Hw.
  destruct (writeStatus t3 n err) as [r4 t4]. simpl in Hw.
  destruct Hw as (_ & _ & _ & _ & W5 & _).
  destruct r3; [destruct r4|]; simpl; rewrite ?W5, Hu, Ht2; done.
Qed.

Lemma reachable_tasks_ok options t :
  reachable options t → tasks_ok (opt_nodes options) t.
Proof.
  induction 1 as [|t Hr IH|t n s err d Hr IH|t sc Hr IH].
  - apply (foldl_constructor_tasks_ok (opt_nodes options) _ []).
    split; [intros n Hn; by apply elem_of_nil in Hn|].
    intros ref name. simpl. by rewrite lookup_empty.
  - pose proof (initDeploymentStatus_frame t) as H; simpl in H.
    destruct H as (_ & _ & _ & _ & H5 & H6 & _). unfold tasks_ok. by rewrite H5, H6.
  - destruct IH as [I1 I2].
    assert (taskMap (snd (set t n s err d)) = taskMap t) as Htm.
    { destruct (set_effect t n s err d) as [->|H]; [done|].
      by destruct H as (o & _ & _ & _ & _ & _ & _ & _ & _ & _ & _ & H & _). }
    split; rewrite Htm; [done|].
    intros ref name H. rewrite set_tasks. by eapply I2.
  - pose proof (complete_frame t sc) as H; simpl in H.
    destruct H as (_ & _ & _ & _ & H5 & H6 & _). unfold tasks_ok. by rewrite H5, H6.
Qed.

Lemma getTask_ok options t n :
  tasks_ok (opt_nodes options) t → n ∈ opt_nodes options →
  ∃ r, getTask t n = Ok r.
Proof.
  intros [H1 H2] Hn. unfold getTask, shouldTrackStatus.
  destruct (element n) as [el|] eqn:E; simpl; [|eauto].
  destruct (H1 n Hn) as [name Hname]; [congruence|]. rewrite Hname.
  destruct (H2 _ _ Hname) as [task ->]. eauto.
Qed.

(** A [set] that finds one of the tracker's own nodes at a status that is
    neither final nor the one asked for goes through. *)
Lemma set_on_own_node options t n statExt err descr old :
  reachable options t →
  n ∈ opt_nodes options →
  map_get (statMap t) n = Some old →
  bool_decide (statExt = old) || isFinalStatus old = false →
  ∃ t', set t n statExt err descr = (Ok true, t') ∧
        statMap t' = map_set (statMap t) n statExt ∧
        deployment t' =
          match element n, stepID t with
          | Some el, Some sid =>
              store_write (deployment t)
                (WElementStatus sid (elId el)
                   (mkElementStatus (toDeployStatus statExt) err))
          | _, _ => deployment t
          end.
Proof.
  intros Hr Hn Hold Hc.
  pose proof (reachable_tasks_ok options t Hr) as Hok.
  unfold set, get. rewrite Hold, Hc.
  set (t1 := with_statMap t (map_set (statMap t) n statExt)).
  set (t2 := updateCount t1 n (toDeployStatus old) (toDeployStatus statExt)).
  pose proof (updateCount_frame t1 n (toDeployStatus old) (toDeployStatus statExt)) as H.
  simpl in H. fold t2 in H. destruct H as (Hs2 & Hd2 & Hi2 & _ & _ & H6 & H7).
  assert (tasks_ok (opt_nodes options) t2) as Hok2.
  { unfold tasks_ok. by rewrite H6, H7. }
  destruct (getTask_ok options t2 n Hok2 Hn) as [gt Hgt].
  unfold updateTask. rewrite Hgt.
  assert (∃ t3, (match gt with
                 | Some name => (Ok (), with_tasks t2 (taskMap t2)
                      (alter (λ task, updateTask_on (dryRun t2) task old (toDeployStatus statExt) err descr) name (tasks t2)))
                 | None => (Ok (), t2) end) = (Ok (), t3)
                ∧ statMap t3 = statMap t2 ∧ deployment t3 = deployment t2
                ∧ stepID t3 = stepID t2) as (t3 & -> & Hs3 & Hd3 & Hi3).
  { destruct gt; eexists; repeat split; reflexivity. }
  unfold writeStatus, get. rewrite Hs3, Hs2, Hi3, Hi2, Hd3, Hd2. simpl.
  rewrite map_get_set_eq.
  destruct (element n) as [el|], (stepID t) as [sid|]; eexists;
    (split; [reflexivity|]); simpl; rewrite ?Hs3, ?Hs2, ?Hd3, ?Hd2; done.
Qed.

(** X1: on a node the tracker was built over, [set] never throws.  It
    returns whether it changed the status, which it does exactly when the
    node's status is not final and is not the one asked for; afterwards
    [get] gives the new status (the old one if nothing changed), and the
    status of every other node is as before. *)
Theorem set_moves_node (options : StatusTrackerOptions) (t : Tracker)
    (n : EPNode) (statExt : DeployStatusExt) (err descr : option string) :
  reachable options t →
  n ∈ opt_nodes options →
  ∃ old,
    get t n = Ok old ∧
    let changes := negb (bool_decide (statExt = old) || isFinalStatus old) in
    let r := set t n statExt err descr in
    fst r = Ok changes ∧
    get (snd r) n = Ok (if changes then statExt else old) ∧
    ∀ m, nodeRef m ≠ nodeRef n → get (snd r) m = get t m.
Proof.
  intros Hr Hn.
  destruct (reachable_counts options t Hr) as [_ Htr].
  assert (is_Some (map_get (statMap t) n)) as [old Hold].
  { apply Htr. by apply list_elem_of_fmap_2. }
  exists old. unfold get at 1. rewrite Hold. split; [done|]. cbv zeta.
  destruct (bool_decide (statExt = old) || isFinalStatus old) eqn:Hc; simpl.
  - assert (set t n statExt err descr = (Ok false, t)) as ->.
    { apply (set_noop t n old); [done|].
      apply orb_true_iff in Hc as [Hc|Hc]; [left; by apply bool_decide_eq_true in Hc|by right]. }
    simpl. unfold get. rewrite Hold. auto.
  - destruct (set_on_own_node options t n statExt err descr old Hr Hn Hold Hc)
      as (t' & -> & Hs & _).
    simpl. unfold get. rewrite Hs. split; [done|]. split.
    + by rewrite map_get_set_eq.
    + intros m Hm. by rewrite map_get_set_ne.
Qed.

(** Witness of [set_moves_node]: after node A has failed, node B starts
    deploying. *)
Lemma set_moves_node_witness :
  reachable ex_options ex_failed ∧
  ex_nodeB ∈ opt_nodes ex_options ∧
  fst (set ex_failed ex_nodeB (Ext Deploying) None None) = Ok true ∧
  get (snd (set ex_failed ex_nodeB (Ext Deploying) None None)) ex_nodeB
  = Ok (Ext Deploying) ∧
  get (snd (set ex_failed ex_nodeB (Ext Deploying) None None)) ex_nodeA
  = Ok (Ext Failed).
Proof.
  assert (reachable ex_options ex_failed) as H.
  { unfold ex_failed, createStatusTracker. apply reach_set, reach_init, reach_new. }
  assert (ex_nodeB ∈ opt_nodes ex_options) as Hn by (simpl; set_solver).
  split; [exact H|]. split; [exact Hn|].
  destruct (set_moves_node ex_options ex_failed ex_nodeB (Ext Deploying) None None
              H Hn) as (old & Hold & H1 & H2 & H3).
  assert (old = Ext Waiting) as -> by (vm_compute in Hold; congruence).
  split; [exact H1|]. split; [exact H2|].
  rewrite (H3 ex_nodeA) by (simpl; lia). reflexivity.
Defined.

(** X3: outside a dry run, a [set] that changes the status of a node
    with an element appends one element-status write to the deployment
    store, under the tracker's step ID and with the element's ID, the new
    deploy status and the error; for a node without element it writes
    nothing.  It takes no new step ID. *)
Theorem set_persists_status (options : StatusTrackerOptions) (t : Tracker)
    (n : EPNode) (statExt old : DeployStatusExt) (err descr : option string)
    (sid : nat) :
  reachable options t →
  n ∈ opt_nodes options →
  get t n = Ok old →
  statExt ≠ old →
  isFinalStatus old = false →
  stepID t = Some sid →
  let d' := deployment (snd (set t n statExt err descr)) in
  nextStepID d' = nextStepID (deployment t) ∧
  writes d' =
    writes (deployment t) ++
    match element n with
    | Some el =>
        [WElementStatus sid (elId el)
           (mkElementStatus (toDeployStatus statExt) err)]
    | None => []
    end.
Proof.
  intros Hr Hn Hg Hne Hf Hsid. unfold get in Hg.
  destruct (map_get (statMap t) n) as [o|] eqn:Hold; [|done]. injection Hg as ->.
  assert (bool_decide (statExt = old) || isFinalStatus old = false) as Hc.
  { by rewrite Hf, bool_decide_false. }
  destruct (set_on_own_node options t n statExt err descr old Hr Hn Hold Hc)
    as (t' & -> & _ & Hd).
  cbv zeta. simpl. rewrite Hd, Hsid.
  destruct (element n); simpl; [done|]. by rewrite app_nil_r.
Qed.

(** Witness of [set_persists_status]: node A starts deploying. *)
Lemma set_persists_status_witness :
  reachable ex_options (createStatusTracker ex_options) ∧
  ex_nodeA ∈ opt_nodes ex_options ∧
  get (createStatusTracker ex_options) ex_nodeA = Ok (Ext Waiting) ∧
  Ext Deploying ≠ Ext Waiting ∧
  isFinalStatus (Ext Waiting) = false ∧
  stepID (createStatusTracker ex_options) = Some 0%nat ∧
  writes (deployment (snd (set (createStatusTracker ex_options) ex_nodeA
                             (Ext Deploying) None None)))
  = writes (deployment (createStatusTracker ex_options))
    ++ [WElementStatus 0 "a" (mkElementStatus Deploying None)].
Proof.
  assert (reachable ex_options (createStatusTracker ex_options)) as H.
  { unfold createStatusTracker. apply reach_init, reach_new. }
  assert (ex_nodeA ∈ opt_nodes ex_options) as Hn by (simpl; set_solver).
  assert (Ext Deploying ≠ Ext Waiting) as Hne by discriminate.
  split; [exact H|]. split; [exact Hn|]. split; [reflexivity|].
  split; [exact Hne|]. split; [reflexivity|]. split; [reflexivity|].
  destruct (set_persists_status ex_options (createStatusTracker ex_options)
              ex_nodeA (Ext Deploying) (Ext Waiting) None None 0%nat
              H Hn eq_refl Hne eq_refl eq_refl) as [_ H2].
  exact H2.
Defined.

(** X2: for a node that is not among those the tracker was built over,
    [get], [isFinal] and [isActive] throw the internal error
    "Unrecognized node", and so does [set], which leaves the tracker as
    it was. *)
Theorem unknown_node_rejected (options : StatusTrackerOptions) (t : Tracker)
    (n : EPNode) :
  reachable options t →
  nodeRef n ∉ nodeRef <$> opt_nodes options →
  get t n = Throw (InternalError "Unrecognized node: ") ∧
  isFinal t n = Throw (InternalError "Unrecognized node: ") ∧
  isActive t n = Throw (InternalError "Unrecognized node: ") ∧
  ∀ statExt err descr,
    set t n statExt err descr = (Throw (InternalError "Unrecognized node: "), t).
Proof.
  intros Hr Hn. destruct (reachable_counts options t Hr) as [_ Htr].
  assert (map_get (statMap t) n = None) as Hg.
  { destruct (map_get (statMap t) n) eqn:E; [|done].
    exfalso. apply Hn, Htr. eauto. }
  unfold isFinal, isActive, set, get. rewrite Hg. auto.
Qed.

(** Witness of [unknown_node_rejected]: a node with a reference of its
    own. *)
Lemma unknown_node_rejected_witness :
  reachable ex_options ex_failed ∧
  (nodeRef (mkNode 9 None (mkWaitInfo false)) ∉ nodeRef <$> opt_nodes ex_options) ∧
  set ex_failed (mkNode 9 None (mkWaitInfo false)) (Ext Deployed) None None
  = (Throw (InternalError "Unrecognized node: "), ex_failed).
Proof.
  assert (reachable ex_options ex_failed) as H.
  { unfold ex_failed, createStatusTracker. apply reach_set, reach_init, reach_new. }
  assert (nodeRef (mkNode 9 None (mkWaitInfo false))
          ∉ nodeRef <$> opt_nodes ex_options) as Hn.
  { simpl. rewrite !not_elem_of_cons. repeat split; [lia..|apply not_elem_of_nil]. }
  split; [exact H|]. split; [exact Hn|].
  destruct (unknown_node_rejected ex_options ex_failed
              (mkNode 9 None (mkWaitInfo false)) H Hn) as (_ & _ & _ & H4).
  apply H4.
Defined.

Lemma countStatIf_cons f e m s :
  countStatIf f (e :: m) s
  = (if f (fst e) then delta (toDeployStatus (snd e)) s else 0) + countStatIf f m s.
Proof.
  unfold countStatIf, delta. rewrite filter_cons.
  destruct (f (fst e)); destruct (decide (toDeployStatus (snd e) = s));
    case_decide; simpl; try tauto; try lia; naive_solver.
Qed.

Lemma countStatIf_app f m1 m2 s :
  countStatIf f (m1 ++ m2) s = countStatIf f m1 s + countStatIf f m2 s.
Proof. unfold countStatIf. rewrite filter_app, length_app. lia. Qed.

Lemma countStatIf_map_set f m n old new s :
  map_get m n = Some old →
  (∀ e, e ∈ m → nodeRef (fst e) = nodeRef n → fst e = n) →
  countStatIf f (map_set m n new) s
  = countStatIf f m s
    + (if f n then delta (toDeployStatus new) s - delta (toDeployStatus old) s else 0).
Proof.
  induction m as [|[k w] m IH]; simpl; [discriminate|].
  intros Hg Hk. destruct (decide (nodeRef k = nodeRef n)) as [E|E].
  - injection Hg as ->. rewrite !countStatIf_cons. simpl.
    assert (k = n) as -> by (apply (Hk (k, old)); [left|done]).
    destruct (f n); lia.
  - rewrite !countStatIf_cons, IH; [lia|done|].
    intros e He. apply Hk. by right.
Qed.

Lemma map_set_fresh {V} (m : list (EPNode * V)) n v :
  map_get m n = None → map_set m n v = m ++ [(n, v)].
Proof.
  induction m as [|[k w] m IH]; simpl; [done|].
  destruct (decide (nodeRef k = nodeRef n)); [done|].
  intros H. by rewrite IH.
Qed.

Lemma map_set_keys {V} (Q : EPNode → Prop) (m : list (EPNode * V)) n v :
  Forall (λ e, Q (fst e)) m → Q n → Forall (λ e, Q (fst e)) (map_set m n v).
Proof.
  intros Hm Hn. induction Hm as [|[k w] m Hk Hm IH]; simpl.
  - by repeat constructor.
  - destruct (decide (nodeRef k = nodeRef n)); by constructor.
Qed.

Lemma getCount_newStatus s : getCount newStatus s = 0.
Proof. by destruct s. Qed.

Lemma map_get_fmap_None (done : list EPNode) n :
  nodeRef n ∉ nodeRef <$> done →
  map_get ((λ n, (n, Ext Waiting)) <$> done) n = None.
Proof.
  induction done as [|k l IH]; [done|].
  rewrite !fmap_cons, not_elem_of_cons. intros [H1 H2]. simpl.
  rewrite decide_False by congruence. by apply IH.
Qed.

Lemma constructor_step_constructed done t n :
  nodeRef n ∉ nodeRef <$> done →
  constructed done t → constructed (done ++ [n]) (constructor_step t n).
Proof.
  intros Hn (Hm & Hp & Hnp).
  assert (statMap (constructor_step t n) = statMap t ++ [(n, Ext Waiting)]) as Hs.
  { rewrite constructor_step_statMap. apply map_set_fresh.
    rewrite Hm. by apply map_get_fmap_None. }
  split; [|split].
  - rewrite Hs, Hm, fmap_app. reflexivity.
  - intros s. rewrite Hs, countStatIf_app, countStatIf_cons, <- Hp. simpl.
    unfold countStatIf at 1. simpl.
    unfold constructor_step, isPrimNode, shouldTrackStatus.
    destruct (element n) as [el|]; simpl; [|lia].
    destruct (finalDom el); simpl; rewrite ?getCount_incr; lia.
  - intros s. rewrite Hs, countStatIf_app, countStatIf_cons, <- Hnp. simpl.
    unfold countStatIf at 1. simpl.
    unfold constructor_step, isNonPrimNode, shouldTrackStatus.
    destruct (element n) as [el|]; simpl; [|lia].
    destruct (finalDom el); simpl; rewrite ?getCount_incr; lia.
Qed.

Lemma foldl_constructor_constructed l : ∀ t done,
  NoDup (nodeRef <$> (done ++ l)) →
  constructed done t → constructed (done ++ l) (foldl constructor_step t l).
Proof.
  induction l as [|n l IH]; intros t done Hnd H; simpl.
  - by rewrite app_nil_r.
  - replace (done ++ n :: l) with ((done ++ [n]) ++ l) in *
      by (rewrite <- app_assoc; reflexivity).
    apply IH; [done|]. apply constructor_step_constructed; [|done].
    rewrite !fmap_app in Hnd. apply NoDup_app in Hnd as (Hnd & _ & _).
    apply NoDup_app in Hnd as (_ & Hd & _). intros Hin. apply (Hd _ Hin).
    simpl. left.
Qed.

Lemma countStat_fmap_waiting (l : list EPNode) s :
  countStat ((λ n, (n, Ext Waiting)) <$> l) s = delta Waiting s * Z.of_nat (length l).
Proof.
  induction l as [|n l IH].
  - simpl. rewrite countStat_nil. lia.
  - rewrite fmap_cons, countStat_cons, IH. simpl. unfold delta.
    destruct (decide (Waiting = s)); lia.
Qed.

Lemma constructor_counters_exact options :
  NoDup (nodeRef <$> opt_nodes options) →
  counters_exact options (constructor options).
Proof.
  intros Hnd. unfold constructor.
  match goal with |- counters_exact _ (foldl _ ?t0 _) => set (t := t0) end.
  destruct (foldl_constructor_constructed (opt_nodes options) t []) as (Hm & Hp & Hnp).
  { done. }
  { repeat split; intros s; simpl; by rewrite getCount_newStatus. }
  simpl in Hm. split; [|split; [|split]]; try done.
  - rewrite Hm. apply Forall_fmap, Forall_forall. intros n Hn. done.
  - intros s. rewrite Hm, countStat_fmap_waiting, foldl_constructor_nodeStatus.
    simpl. unfold delta. destruct s; simpl; lia.
Qed.

Lemma NoDup_fmap_eq {A B} (f : A → B) (l : list A) x y :
  NoDup (f <$> l) → x ∈ l → y ∈ l → f x = f y → x = y.
Proof.
  induction l as [|a l IH]; [by intros _ H%elem_of_nil|].
  rewrite fmap_cons, NoDup_cons. intros [Hna Hnd] Hx Hy Hf.
  apply elem_of_cons in Hx as [->|Hx]; apply elem_of_cons in Hy as [->|Hy]; auto.
  - exfalso. apply Hna. rewrite Hf. by apply list_elem_of_fmap_2.
  - exfalso. apply Hna. rewrite <- Hf. by apply list_elem_of_fmap_2.
Qed.

Lemma set_counters_exact options t n statExt err descr :
  NoDup (nodeRef <$> opt_nodes options) →
  n ∈ opt_nodes options →
  counters_exact options t →
  counters_exact options (snd (set t n statExt err descr)).
Proof.
  intros Hnd Hn (Hk & Hc & Hp & Hnp).
  destruct (set_effect t n statExt err descr) as [->|H]; [done|].
  destruct H as (old & Hg & _ & _ & Hm & Hns & Hps & Hnps & _).
  assert (∀ e, e ∈ statMap t → nodeRef (fst e) = nodeRef n → fst e = n) as Hkey.
  { intros e He Href. rewrite Forall_forall in Hk.
    by apply (NoDup_fmap_eq nodeRef (opt_nodes options)); [|apply Hk| |]. }
  split; [|split; [|split]].
  - rewrite Hm. by apply (map_set_keys (λ k, k ∈ opt_nodes options)).
  - intros s. rewrite Hm, Hns, updateCount_nodeStatus, Hc.
    rewrite (countStat_map_set _ _ old) by done. lia.
  - intros s. rewrite Hm, Hps, updateCount_primStatus, Hp.
    by rewrite (countStatIf_map_set _ _ _ old).
  - intros s. rewrite Hm, Hnps, updateCount_nonPrimStatus, Hnp.
    by rewrite (countStatIf_map_set _ _ _ old).
Qed.

Lemma runSets_counters_exact options calls : ∀ t,
  NoDup (nodeRef <$> opt_nodes options) →
  ownSets options calls →
  counters_exact options t →
  counters_exact options (runSets t calls).
Proof.
  induction calls as [|c cs IH]; intros t Hnd Hown Ht; simpl; [done|].
  apply Forall_cons in Hown as [Hc Hcs].
  apply IH; [done|done|]. by apply set_counters_exact.
Qed.

(** X4: when no node is listed twice then, after any [set] calls on the
    tracker's nodes, each counter of [nodeStatus] is the number of nodes
    whose status stands for that deploy status, each counter of
    [primStatus] the number of those with a primitive (final DOM)
    element, and each counter of [nonPrimStatus] the number of those with
    an element that is not; no counter is negative. *)
Theorem counters_count_nodes (options : StatusTrackerOptions)
    (calls : list SetCall) (s : DeployStatus) :
  NoDup (nodeRef <$> opt_nodes options) →
  ownSets options calls →
  let t := runSets (createStatusTracker options) calls in
  getCount (nodeStatus t) s = countStat (statMap t) s ∧
  getCount (primStatus t) s = countStatIf isPrimNode (statMap t) s ∧
  getCount (nonPrimStatus t) s = countStatIf isNonPrimNode (statMap t) s ∧
  0 ≤ getCount (nodeStatus t) s ∧
  0 ≤ getCount (primStatus t) s ∧ 0 ≤ getCount (nonPrimStatus t) s.
Proof.
  intros Hnd Hown t.
  assert (counters_exact options t) as (_ & Hc & Hp & Hnp).
  { apply runSets_counters_exact; [done|done|].
    unfold createStatusTracker.
    pose proof (constructor_counters_exact options Hnd) as H.
    pose proof (initDeploymentStatus_frame (constructor options)) as F.
    simpl in F. destruct F as (F1 & F2 & F3 & F4 & _).
    unfold counters_exact. by rewrite F1, F2, F3, F4. }
  rewrite Hc, Hp, Hnp. unfold countStat, countStatIf. repeat split; lia.
Qed.

(** Witness of [counters_count_nodes]: node A deploys, node B starts
    to. *)
Lemma counters_count_nodes_witness :
  NoDup (nodeRef <$> opt_nodes ex_options) ∧
  ownSets ex_options
    [ mkSetCall ex_nodeA (Ext Deployed) None None;
      mkSetCall ex_nodeB (Ext Deploying) None None ] ∧
  getCount (nodeStatus
              (runSets (createStatusTracker ex_options)
                 [ mkSetCall ex_nodeA (Ext Deployed) None None;
                   mkSetCall ex_nodeB (Ext Deploying) None None ])) Waiting = 1 ∧
  getCount (primStatus
              (runSets (createStatusTracker ex_options)
                 [ mkSetCall ex_nodeA (Ext Deployed) None None;
                   mkSetCall ex_nodeB (Ext Deploying) None None ])) Deployed = 1.
Proof.
  assert (NoDup (nodeRef <$> opt_nodes ex_options)) as H1.
  { apply (bool_decide_unpack _). vm_compute. exact I. }
  assert (ownSets ex_options
            [ mkSetCall ex_nodeA (Ext Deployed) None None;
              mkSetCall ex_nodeB (Ext Deploying) None None ]) as H2.
  { unfold ownSets. repeat (apply Forall_cons; split; [simpl; set_solver|]).
    apply Forall_nil_2. }
  split; [exact H1|]. split; [exact H2|].
  pose proof (counters_count_nodes ex_options _ Waiting H1 H2) as [HW _].
  pose proof (counters_count_nodes ex_options _ Deployed H1 H2) as (_ & HD & _).
  split; [rewrite HW|rewrite HD]; vm_compute; reflexivity.
Defined.

Lemma initialElementStatus_waiting m : ∀ acc : gmap string ElementStatus,
  Forall (λ e, snd e = Ext Waiting) m →
  ∀ id,
    foldl (λ acc e,
           match element (fst e) with
           | None => acc
           | Some el => <[elId el := mkElementStatus (toDeployStatus (snd e)) None]> acc
           end) acc m !! id
    = if bool_decide (id ∈ omap (λ e, elId <$> element (fst e)) m)
      then Some (mkElementStatus Waiting None) else acc !! id.
Proof.
  induction m as [|[k w] m IH]; intros acc Hm id; simpl; [done|].
  apply Forall_cons in Hm as [Hw Hm]. simpl in Hw. subst w.
  rewrite IH by done. destruct (element k) as [el|]; simpl.
  - destruct (decide (id = elId el)) as [->|Hne].
    + rewrite (bool_decide_true (_ ∈ _ :: _)) by left.
      rewrite lookup_insert_eq. by case_bool_decide.
    + rewrite lookup_insert_ne by done.
      apply (f_equal (λ b : bool, if b then _ else _)).
      apply bool_decide_ext. rewrite elem_of_cons. tauto.
  - done.
Qed.

Lemma tGroup_add_lookup g id desc triv name task :
  tGroup_add g id desc triv !! name = Some task →
  g !! name = Some task ∨
  (g !! name = None ∧ name = id ∧ task = mkTask Created desc triv None).
Proof.
  unfold tGroup_add. destruct (g !! id) as [x|] eqn:E; [auto|].
  destruct (decide (name = id)) as [->|Hne].
  - rewrite lookup_insert_eq. intros [= <-]. auto.
  - rewrite lookup_insert_ne by done. auto.
Qed.

Lemma constructor_step_tasks t n name task :
  tasks (constructor_step t n) !! name = Some task →
  tasks t !! name = Some task ∨
  (tasks t !! name = None ∧
   ∃ el, element n = Some el ∧ elId el = name ∧
         task = mkTask Created (componentName el) (isTrivial n) None).
Proof.
  unfold constructor_step, shouldTrackStatus.
  destruct (element n) as [el|]; [|auto].
  destruct (finalDom el); simpl; intros H;
    apply tGroup_add_lookup in H as [H|(H1 & -> & ->)]; eauto 6.
Qed.

Lemma foldl_constructor_tasks l : ∀ t name task,
  tasks (foldl constructor_step t l) !! name = Some task →
  tasks t !! name = Some task ∨
  (tasks t !! name = None ∧
   ∃ n el, n ∈ l ∧ element n = Some el ∧ elId el = name ∧
           task = mkTask Created (componentName el) (isTrivial n) None).
Proof.
  induction l as [|k l IH]; intros t name task; simpl; [auto|].
  intros H. apply IH in H as [H|(H1 & n & el & Hn & He & Hi & Ht)].
  - apply constructor_step_tasks in H as [H|(H1 & el & He & Hi & Ht)]; [auto|].
    right. split; [done|]. exists k, el. repeat split; try done. left.
  - destruct (tasks t !! name) as [x|] eqn:E.
    + exfalso.
      assert (is_Some (tasks (constructor_step t k) !! name)) as [y Hy].
      { unfold constructor_step, shouldTrackStatus.
        destruct (element k) as [el'|]; [|simpl; eauto].
        destruct (finalDom el'); simpl; unfold tGroup_add;
          destruct (tasks t !! elId el'); simpl; rewrite ?E; eauto;
          (destruct (decide (name = elId el')) as [->|Hne];
           [rewrite lookup_insert_eq|rewrite lookup_insert_ne by done; rewrite ?E]; eauto). }
      congruence.
    + right. split; [done|]. exists n, el. repeat split; try done. by right.
Qed.

Lemma constructor_step_has_task t n name :
  is_Some (tasks t !! name) ∨ (∃ el, element n = Some el ∧ elId el = name) →
  is_Some (tasks (constructor_step t n) !! name).
Proof.
  unfold constructor_step, shouldTrackStatus.
  destruct (element n) as [el|]; simpl.
  - intros H. destruct (finalDom el); simpl; apply tGroup_add_is_Some;
      destruct H as [H|(el' & [= <-] & <-)]; auto.
  - intros [H|(el' & [=] & _)]; done.
Qed.

Lemma foldl_constructor_has_task l : ∀ t name,
  is_Some (tasks t !! name)
  ∨ (∃ n el, n ∈ l ∧ element n = Some el ∧ elId el = name) →
  is_Some (tasks (foldl constructor_step t l) !! name).
Proof.
  induction l as [|k l IH]; intros t name; simpl.
  - intros [H|(n & el & Hn & _)]; [done|]. by apply elem_of_nil in Hn.
  - intros H. apply IH. destruct H as [H|(n & el & Hn & He & Hi)].
    + left. apply constructor_step_has_task. by left.
    + apply elem_of_cons in Hn as [->|Hn].
      * left. apply constructor_step_has_task. right. eauto.
      * right. eauto.
Qed.

Lemma constructor_step_keeps_task t n name task :
  tasks t !! name = Some task → tasks (constructor_step t n) !! name = Some task.
Proof.
  intros H. unfold constructor_step, shouldTrackStatus.
  destruct (element n) as [el|]; [|done].
  destruct (finalDom el); simpl; unfold tGroup_add;
    (destruct (tasks t !! elId el) eqn:E; simpl; [done|]);
    (rewrite lookup_insert_ne; [done|congruence]).
Qed.

Lemma foldl_constructor_keeps_task l : ∀ t name task,
  tasks t !! name = Some task →
  tasks (foldl constructor_step t l) !! name = Some task.
Proof.
  induction l as [|k l IH]; intros t name task H; simpl; [done|].
  by apply IH, constructor_step_keeps_task.
Qed.

Lemma foldl_constructor_keys (Q : EPNode → Prop) l : ∀ t,
  Forall Q l → Forall (λ e, Q (fst e)) (statMap t) →
  Forall (λ e, Q (fst e)) (statMap (foldl constructor_step t l)).
Proof.
  induction l as [|k l IH]; intros t Hl Ht; simpl; [done|].
  apply Forall_cons in Hl as [Hk Hl]. apply IH; [done|].
  rewrite constructor_step_statMap. by apply map_set_keys.
Qed.

Lemma map_get_Some_elem {V} (m : list (EPNode * V)) n v :
  map_get m n = Some v → ∃ k, (k, v) ∈ m ∧ nodeRef k = nodeRef n.
Proof.
  induction m as [|[k w] m IH]; simpl; [done|].
  destruct (decide (nodeRef k = nodeRef n)) as [E|E].
  - intros [= ->]. exists k. split; [left|done].
  - intros H. destruct (IH H) as (k' & Hin & Hk'). exists k'. split; [by right|done].
Qed.

Lemma constructor_keys options n :
  refs_identify (opt_nodes options) →
  n ∈ opt_nodes options ↔ n ∈ fst <$> statMap (constructor options).
Proof.
  intros Hid.
  assert (Forall (λ e : EPNode * DeployStatusExt, fst e ∈ opt_nodes options)
            (statMap (constructor options))) as Hkeys.
  { unfold constructor.
    apply (foldl_constructor_keys (λ k, k ∈ opt_nodes options)); [|by constructor].
    by apply Forall_forall. }
  split.
  - intros Hn. destruct (constructor_counts options) as [_ Htr].
    destruct (proj2 (Htr n)) as [x Hx]; [by apply list_elem_of_fmap_2|].
    apply map_get_Some_elem in Hx as (k & Hin & Hk).
    rewrite Forall_forall in Hkeys. pose proof (Hkeys _ Hin) as Hk'. simpl in Hk'.
    assert (k = n) as -> by by apply Hid.
    by apply (list_elem_of_fmap_2 fst) in Hin.
  - intros Hn. apply list_elem_of_fmap in Hn as ([k w] & -> & Hin).
    rewrite Forall_forall in Hkeys. by apply (Hkeys _ Hin).
Qed.

(** X5: a new tracker over nodes that are told apart by reference has
    every node at [Waiting]; its tasks are those of the task observer it
    was given, all of them kept as they are, and one [Created] task per
    element, named by the element's ID.  In a dry run it has no step ID and leaves the deployment store
    alone; otherwise it takes the next step ID of the store and writes
    one status to it: the in-progress status of the goal, the goal, and
    [Waiting] for exactly the elements of its nodes. *)
Theorem new_tracker_state (options : StatusTrackerOptions) :
  refs_identify (opt_nodes options) →
  let t := createStatusTracker options in
  let d := opt_deployment options in
  (∀ n, n ∈ opt_nodes options → get t n = Ok (Ext Waiting)) ∧
  (∀ n el, n ∈ opt_nodes options → element n = Some el →
     is_Some (tasks t !! elId el)) ∧
  (∀ name task, tasks t !! name = Some task →
     opt_taskObserver options !! name = Some task ∨
     ∃ n el, n ∈ opt_nodes options ∧ element n = Some el ∧ elId el = name ∧
             task = mkTask Created (componentName el) (isTrivial n) None) ∧
  (∀ name task, opt_taskObserver options !! name = Some task →
     tasks t !! name = Some task) ∧
  (opt_dryRun options = true → stepID t = None ∧ deployment t = d) ∧
  (opt_dryRun options = false →
     ∃ es,
       stepID t = Some (nextStepID d) ∧
       nextStepID (deployment t) = S (nextStepID d) ∧
       writes (deployment t)
       = writes d ++ [WStatus (nextStepID d)
                        (Op (goalToInProgress (opt_goalStatus options)))
                        (Some (opt_goalStatus options)) (Some es)] ∧
       (∀ n el, n ∈ opt_nodes options → element n = Some el →
          es !! elId el = Some (mkElementStatus Waiting None)) ∧
       (∀ id x, es !! id = Some x →
          x = mkElementStatus Waiting None ∧
          ∃ n el, n ∈ opt_nodes options ∧ element n = Some el ∧ elId el = id)).
Proof.
  intros Hid. cbv zeta. unfold createStatusTracker.
  pose proof (initDeploymentStatus_frame (constructor options)) as F.
  simpl in F. destruct F as (_ & _ & _ & F4 & F5 & _).
  assert (Forall (λ e, snd e = Ext Waiting) (statMap (constructor options))) as Hw.
  { unfold constructor. by apply foldl_constructor_all_waiting. }
  split; [|split; [|split; [|split; [|split]]]].
  - intros n Hn. unfold get. rewrite F4.
    destruct (constructor_counts options) as [_ Htr].
    destruct (proj2 (Htr n)) as [x Hx]; [by apply list_elem_of_fmap_2|].
    rewrite Hx. f_equal.
    assert (∀ m, Forall (λ e : EPNode * DeployStatusExt, snd e = Ext Waiting) m →
                 map_get m n = Some x → x = Ext Waiting) as Hall.
    { induction m as [|[k w] m IH]; simpl; [done|].
      intros [Hk Hm]%Forall_cons. destruct (decide (nodeRef k = nodeRef n)); [|auto].
      by intros [= <-]. }
    by apply (Hall _ Hw).
  - intros n el Hn He. rewrite F5.
    unfold constructor. apply foldl_constructor_has_task. right. eauto.
  - intros name task. rewrite F5. unfold constructor. intros H.
    apply foldl_constructor_tasks in H as [H|(_ & H)]; [by left|by right].
  - intros name task H. rewrite F5. unfold constructor.
    by apply foldl_constructor_keeps_task.
  - intros Hdry. unfold initDeploymentStatus.
    assert (dryRun (constructor options) = opt_dryRun options
            ∧ deployment (constructor options) = opt_deployment options) as [Hd Hdep].
    { unfold constructor.
      match goal with |- context [foldl constructor_step ?t0 ?l] =>
        destruct (foldl_constructor_frame l t0) as (-> & -> & _) end. done. }
    rewrite Hd, Hdry. split; [|done].
    unfold constructor.
    match goal with |- context [foldl constructor_step ?t0 ?l] =>
      destruct (foldl_constructor_frame l t0) as (_ & _ & ->) end. done.
  - intros Hdry. unfold initDeploymentStatus.
    assert (dryRun (constructor options) = opt_dryRun options
            ∧ deployment (constructor options) = opt_deployment options) as [Hd Hdep].
    { unfold constructor.
      match goal with |- context [foldl constructor_step ?t0 ?l] =>
        destruct (foldl_constructor_frame l t0) as (-> & -> & _) end. done. }
    assert (goalStatus (constructor options) = opt_goalStatus options) as Hgoal.
    { unfold constructor. by rewrite foldl_constructor_goal. }
    rewrite Hd, Hdry. simpl. rewrite Hdep, Hgoal.
    eexists. split; [reflexivity|]. split; [reflexivity|]. split; [reflexivity|].
    unfold initialElementStatus.
    assert (∀ id, id ∈ omap (λ e : EPNode * DeployStatusExt, elId <$> element (fst e))
                         (statMap (constructor options))
                  ↔ ∃ n el, n ∈ opt_nodes options ∧ element n = Some el ∧ elId el = id)
      as Hids.
    { intros id. rewrite list_elem_of_omap. split.
      - intros ([k w] & Hin & H). simpl in H.
        destruct (element k) as [el|] eqn:E; [|done]. injection H as <-.
        exists k, el. split; [|done]. apply (constructor_keys options k Hid).
        by apply (list_elem_of_fmap_2 fst) in Hin.
      - intros (n & el & Hn & He & <-).
        apply (constructor_keys options n Hid) in Hn.
        apply list_elem_of_fmap in Hn as ([k w] & -> & Hin).
        exists (k, w). split; [done|]. simpl in *. by rewrite He. }
    split.
    + intros n el Hn He. rewrite initialElementStatus_waiting by done.
      rewrite bool_decide_true; [done|]. apply Hids. eauto.
    + intros id x. rewrite initialElementStatus_waiting by done.
      case_bool_decide as Hc; [|by rewrite lookup_empty].
      intros [= <-]. split; [done|]. by apply Hids.
Qed.

(** Witness of [new_tracker_state]: the small deployment. *)
Lemma new_tracker_state_witness :
  refs_identify (opt_nodes ex_options) ∧
  get (createStatusTracker ex_options) ex_nodeC = Ok (Ext Waiting) ∧
  is_Some (tasks (createStatusTracker ex_options) !! "b").
Proof.
  assert (refs_identify (opt_nodes ex_options)) as H.
  { intros n m Hn Hm. simpl in Hn, Hm.
    rewrite !elem_of_cons, elem_of_nil in Hn, Hm.
    destruct Hn as [->|[->|[->|[]]]], Hm as [->|[->|[->|[]]]];
      simpl; congruence. }
  split; [exact H|].
  pose proof (new_tracker_state ex_options H) as T. cbv zeta in T.
  destruct T as (T1 & T2 & _).
  split.
  - apply T1. simpl. set_solver.
  - apply (T2 ex_nodeB (mkElement "b" "CompB" false true false));
      [simpl; set_solver|reflexivity].
Defined.

Lemma constructor_step_taskMap done t n :
  nodeRef n ∉ nodeRef <$> done →
  taskMap_ok done t → taskMap_ok (done ++ [n]) (constructor_step t n).
Proof.
  intros Hn H k el Hk He.
  assert (∀ t' : Tracker, taskMap (with_statMap t' (map_set (statMap t') n (Ext Waiting)))
                          = taskMap t') as Hs by done.
  unfold constructor_step. rewrite Hs. unfold shouldTrackStatus.
  apply elem_of_app in Hk as [Hk|Hk%list_elem_of_singleton].
  - assert (nodeRef n ≠ nodeRef k) as Hne.
    { intros E. apply Hn. rewrite E. by apply list_elem_of_fmap_2. }
    destruct (element n) as [eln|]; [|by apply H].
    destruct (finalDom eln); simpl; rewrite lookup_insert_ne by done; by apply H.
  - subst k. rewrite He. destruct (finalDom el); simpl; by rewrite lookup_insert_eq.
Qed.

Lemma foldl_constructor_taskMap l : ∀ t done,
  NoDup (nodeRef <$> (done ++ l)) →
  taskMap_ok done t → taskMap_ok (done ++ l) (foldl constructor_step t l).
Proof.
  induction l as [|n l IH]; intros t done Hnd H; simpl.
  - by rewrite app_nil_r.
  - replace (done ++ n :: l) with ((done ++ [n]) ++ l) in *
      by (rewrite <- app_assoc; reflexivity).
    apply IH; [done|]. apply constructor_step_taskMap; [|done].
    rewrite !fmap_app in Hnd. apply NoDup_app in Hnd as (Hnd & _ & _).
    apply NoDup_app in Hnd as (_ & Hd & _). intros Hin. apply (Hd _ Hin).
    simpl. left.
Qed.

Lemma reachable_taskMap options t :
  NoDup (nodeRef <$> opt_nodes options) →
  reachable options t → taskMap_ok (opt_nodes options) t.
Proof.
  intros Hnd. induction 1 as [|t Hr IH|t n s err d Hr IH|t sc Hr IH].
  - apply (foldl_constructor_taskMap (opt_nodes options) _ []); [done|].
    intros n el Hn. by apply elem_of_nil in Hn.
  - pose proof (initDeploymentStatus_frame t) as H; simpl in H.
    destruct H as (_ & _ & _ & _ & _ & H6 & _). unfold taskMap_ok. by rewrite H6.
  - assert (taskMap (snd (set t n s err d)) = taskMap t) as Htm.
    { destruct (set_effect t n s err d) as [->|H]; [done|].
      by destruct H as (o & _ & _ & _ & _ & _ & _ & _ & _ & _ & _ & H & _). }
    unfold taskMap_ok. by rewrite Htm.
  - pose proof (complete_frame t sc) as H; simpl in H.
    destruct H as (_ & _ & _ & _ & _ & H6 & _). unfold taskMap_ok. by rewrite H6.
Qed.

Lemma alter_as_insert {V} (f : V → V) (m : gmap string V) k v :
  m !! k = Some v → alter f k m = <[k := f v]> m.
Proof.
  intros H. apply map_eq. intros i. destruct (decide (i = k)) as [->|Hne].
  - by rewrite lookup_alter_eq, lookup_insert_eq, H.
  - by rewrite lookup_alter_ne, lookup_insert_ne.
Qed.

Lemma set_tasks_eq t n el statExt err descr old task :
  element n = Some el →
  taskMap t !! nodeRef n = Some (elId el) → tasks t !! elId el = Some task →
  map_get (statMap t) n = Some old →
  bool_decide (statExt = old) || isFinalStatus old = false →
  tasks (snd (set t n statExt err descr))
  = <[elId el := updateTask_on (dryRun t) task old (toDeployStatus statExt) err descr]>
      (tasks t).
Proof.
  intros He Htm Htask Hold Hc.
  unfold set, get. rewrite Hold, Hc.
  set (t1 := with_statMap t (map_set (statMap t) n statExt)).
  set (t2 := updateCount t1 n (toDeployStatus old) (toDeployStatus statExt)).
  pose proof (updateCount_frame t1 n (toDeployStatus old) (toDeployStatus statExt)) as H.
  simpl in H. fold t2 in H. destruct H as (Hs2 & Hd2 & Hi2 & Hdry & _ & H6 & H7).
  unfold updateTask, getTask, shouldTrackStatus. rewrite He, H7, Htm, H6, Htask.
  cbn [negb].
  match goal with |- context [writeStatus ?t3 n err] =>
    pose proof (writeStatus_frame t3 n err) as Hw;
    destruct (writeStatus t3 n err) as [r4 t4] end.
  simpl in Hw. destruct Hw as (_ & _ & _ & _ & W5 & _).
  destruct r4; simpl; rewrite W5, (alter_as_insert _ _ _ task) by done;
    by rewrite Hdry.
Qed.

(** X24: a [set] that changes the status of a node with an element
    moves the task of that element and no other task.  Given an error,
    the task fails with the error's message, whatever the status and also
    in a dry run.  Without error and outside a dry run, a [Created] task
    starts when the node comes to an in-progress status from one that is
    not proxying, a [Started] task completes when the node reaches a goal
    status, and a node set to [Failed] leaves the state of its task as it
    is. *)
Theorem set_drives_task (options : StatusTrackerOptions) (t : Tracker)
    (n : EPNode) (el : Element) (task : Task) (statExt old : DeployStatusExt)
    (err descr : option string) :
  NoDup (nodeRef <$> opt_nodes options) →
  reachable options t →
  n ∈ opt_nodes options → element n = Some el →
  get t n = Ok old → statExt ≠ old → isFinalStatus old = false →
  tasks t !! elId el = Some task →
  let t' := snd (set t n statExt err descr) in
  let new := toDeployStatus statExt in
  (∀ name, name ≠ elId el → tasks t' !! name = tasks t !! name) ∧
  ∃ task',
    tasks t' !! elId el = Some task' ∧
    (∀ msg, err = Some msg → state task' = TaskFailed ∧ taskError task' = Some msg) ∧
    (err = None → opt_dryRun options = false →
       (isInProgress new = true → isProxying old = false → state task = Created →
          state task' = Started) ∧
       (isGoalStatus new = true → state task = Started → state task' = Complete) ∧
       (new = Failed → state task' = state task)).
Proof.
  intros Hnd Hr Hn He Hg Hne Hf Htask t' new.
  unfold get in Hg.
  destruct (map_get (statMap t) n) as [o|] eqn:Hold; [|done]. injection Hg as ->.
  assert (bool_decide (statExt = old) || isFinalStatus old = false) as Hc.
  { by rewrite Hf, bool_decide_false. }
  pose proof (reachable_taskMap options t Hnd Hr n el Hn He) as Htm.
  destruct (reachable_dry options t Hr) as (Hdry & _).
  pose proof (set_tasks_eq t n el statExt err descr old task He Htm Htask Hold Hc) as Heq.
  fold t' in Heq. rewrite Hdry in Heq. fold new in Heq.
  split.
  - intros name Hname. by rewrite Heq, lookup_insert_ne.
  - eexists. split; [by rewrite Heq, lookup_insert_eq|].
    assert (∀ x : Task,
              state (match descr with
                     | Some d => if decide (d = "") then x else task_setDescription x d
                     | None => x
                     end) = state x) as Hstate.
    { intros x. destruct descr as [d|]; [|done]. by destruct (decide (d = "")). }
    unfold updateTask_on. split.
    + intros msg ->. done.
    + intros -> ->. split; [|split].
      * intros -> ->. simpl. rewrite Hstate. intros ->. by rewrite decide_True.
      * intros Hgoal Hst.
        assert (isInProgress new = false) as -> by (by destruct new).
        simpl. rewrite Hgoal, Hstate, Hst. by rewrite decide_True.
      * intros ->. simpl. by rewrite Hstate.
Qed.

(** Witness of [set_drives_task]: node A starts deploying, and its task
    starts. *)
Lemma set_drives_task_witness :
  NoDup (nodeRef <$> opt_nodes ex_options) ∧
  reachable ex_options (createStatusTracker ex_options) ∧
  ex_nodeA ∈ opt_nodes ex_options ∧
  get (createStatusTracker ex_options) ex_nodeA = Ok (Ext Waiting) ∧
  tasks (createStatusTracker ex_options) !! "a"
  = Some (mkTask Created "CompA" false None) ∧
  state <$> tasks (snd (set (createStatusTracker ex_options) ex_nodeA
                          (Ext Deploying) None None)) !! "a" = Some Started.
Proof.
  assert (NoDup (nodeRef <$> opt_nodes ex_options)) as H1.
  { apply (bool_decide_unpack _). vm_compute. exact I. }
  assert (reachable ex_options (createStatusTracker ex_options)) as H2.
  { unfold createStatusTracker. apply reach_init, reach_new. }
  assert (ex_nodeA ∈ opt_nodes ex_options) as H3 by (simpl; set_solver).
  assert (tasks (createStatusTracker ex_options) !! "a"
          = Some (mkTask Created "CompA" false None)) as H4
    by (vm_compute; reflexivity).
  assert (Ext Deploying ≠ Ext Waiting) as Hne by discriminate.
  split; [exact H1|]. split; [exact H2|]. split; [exact H3|].
  split; [reflexivity|]. split; [exact H4|].
  pose proof (set_drives_task ex_options (createStatusTracker ex_options) ex_nodeA
                (mkElement "a" "CompA" true true false)
                (mkTask Created "CompA" false None) (Ext Deploying) (Ext Waiting)
                None None H1 H2 H3 eq_refl eq_refl Hne eq_refl H4) as H.
  cbv zeta in H. destruct H as (_ & task' & Ht & _ & Hs).
  destruct (Hs eq_refl eq_refl) as (Hstart & _).
  assert (tasks (snd (set (createStatusTracker ex_options) ex_nodeA
                        (Ext Deploying) None None)) !! "a" = Some task') as ->
    by exact Ht.
  simpl. f_equal. apply Hstart; reflexivity.
Defined.

End TrackerStateFacts.

(** ** The deploy loop (ops/buildAndDeploy.ts) *)

Module DeployLoopFacts.
Import DeployTypes Server StatusTracker Ops.

Lemma commit_first isStatusComplete env e :
  lastCommit env = None → env_dryRun env = false →
  commit isStatusComplete env e
  = (Ok (), with_env_deployment (with_lastCommit env (Some (status e)))
              (commitEntry (env_deployment env)
                 (historyEntry env (env_stateStore env) e))).
Proof.
  intros Hl Hd. unfold commit. rewrite Hl. simpl. rewrite Hd. done.
Qed.

Lemma commit_after_preAct isStatusComplete env e :
  isStatusComplete preAct = false →
  lastCommit env = Some preAct → env_dryRun env = false →
  commit isStatusComplete env e
  = if bool_decide (status e = preAct) then (Ok (), env)
    else (Ok (), with_env_deployment (with_lastCommit env (Some (status e)))
              (commitEntry (env_deployment env)
                 (historyEntry env (env_stateStore env) e))).
Proof.
  intros HpreAct Hl Hd. unfold commit. rewrite Hl, HpreAct. simpl. rewrite Hd.
  by destruct (bool_decide (status e = preAct)).
Qed.

(** The loop once [preAct] has been committed. *)
Lemma deployPasses_after_preAct isStatusComplete dataDir passes : ∀ env r env',
  isStatusComplete preAct = false →
  lastCommit env = Some preAct → env_dryRun env = false →
  deployPasses isStatusComplete env dataDir passes = Some (r, env') →
  ∃ tail : list HistoryEntry,
    writes (env_deployment env')
    = writes (env_deployment env) ++ (WCommitEntry <$> tail) ∧
    match r with
    | Ok res =>
        deployComplete res = true ∧ stateChanged res = false ∧
        ∃ stateJson,
          tail = [historyEntry env stateJson (passEntry success dataDir (res_data res))]
    | Throw e =>
        tail = [] ∨ ∃ stateJson d, tail = [historyEntry env stateJson (passEntry failed dataDir d)]
    end.
Proof.
  induction passes as [|o rest IH]; intros env r env' Hp Hl Hd; simpl; [done|].
  destruct o as [rb e|d rebuilt acted e|d rebuilt acted dc sc]; simpl.
  - intros [= <- <-]. exists []. split; [by rewrite app_nil_r|by left].
  - rewrite (commit_after_preAct _ _ _ Hp) by done. simpl.
    rewrite (commit_after_preAct _ _ _ Hp) by done. simpl.
    intros [= <- <-]. simpl. eexists [_]. split; [reflexivity|]. right. eauto.
  - rewrite (commit_after_preAct _ _ _ Hp) by done. simpl.
    destruct dc, sc; simpl.
    + intros H. apply IH in H; [|done..].
      destruct H as (tail & Hw & Hr). exists tail. split; [exact Hw|].
      destruct r as [res|e]; [|exact Hr].
      destruct Hr as (H1 & H2 & sj & ->). eauto.
    + rewrite (commit_after_preAct _ _ _ Hp) by done. simpl.
      intros [= <- <-]. simpl. eexists [_]. split; [reflexivity|]. eauto.
    + intros H. apply IH in H; [|done..].
      destruct H as (tail & Hw & Hr). exists tail. split; [exact Hw|].
      destruct r as [res|e]; [|exact Hr].
      destruct Hr as (H1 & H2 & sj & ->). eauto.
    + intros [= <- <-]. exists []. split; [by rewrite app_nil_r|by left].
Qed.

(** X6: when the loop of [buildAndDeploy] ends, starting before any
    commit and outside a dry run, the history has grown by the entries of
    at most two commits, whatever the number of passes.  If it returns,
    the last pass reported the deployment complete and the state
    unchanged, and the entries are a [preAct] and a [success], the latter
    with the data of the last pass.  If it throws, they are none, a
    [preAct], or a [preAct] and a [failed].  The [preAct] entry, if any,
    is that of the first pass, with the state as rebuilt in that pass. *)
Theorem deploy_loop_history (isStatusComplete : HistoryStatus → bool)
    (env env' : CommitEnv) (dataDir : string) (passes : list PassOutcome)
    (r : Result DeployPassResults) :
  isStatusComplete preAct = false →
  lastCommit env = None →
  env_dryRun env = false →
  deployPasses isStatusComplete env dataDir passes = Some (r, env') →
  ∃ new : list HistoryEntry,
    writes (env_deployment env')
    = writes (env_deployment env) ++ (WCommitEntry <$> new) ∧
    (∀ e, new !! 0%nat = Some e →
       ∃ d rebuilt, passes !! 0%nat ≫= outcomeData = Some (d, rebuilt) ∧
                  e = historyEntry env rebuilt (passEntry preAct dataDir d)) ∧
    match r with
    | Ok res =>
        deployComplete res = true ∧ stateChanged res = false ∧
        (λ e, status (entry e)) <$> new = [preAct; success] ∧
        entry <$> new !! 1%nat = Some (passEntry success dataDir (res_data res))
    | Throw e =>
        (λ e, status (entry e)) <$> new = [] ∨
        (λ e, status (entry e)) <$> new = [preAct] ∨
        (λ e, status (entry e)) <$> new = [preAct; failed]
    end.
Proof.
  intros Hp Hl Hd. destruct passes as [|o rest]; simpl; [done|].
  destruct o as [rb e|d rebuilt acted e|d rebuilt acted dc sc]; simpl.
  - intros [= <- <-]. exists []. split; [by rewrite app_nil_r|].
    split; [done|by left].
  - rewrite commit_first by done. simpl.
    rewrite (commit_after_preAct _ _ _ Hp) by done. simpl.
    intros [= <- <-]. simpl. eexists [_; _]. split; [by rewrite <- app_assoc|].
    split; [|by right; right]. intros e' [= <-]. eauto.
  - rewrite commit_first by done. simpl.
    set (e0 := historyEntry (with_stateStore env rebuilt) rebuilt (passEntry preAct dataDir d)).
    destruct dc, sc; simpl.
    + intros H. apply deployPasses_after_preAct in H; [|done..].
      destruct H as (tail & Hw & Hr). simpl in Hw. exists (e0 :: tail).
      split; [by rewrite Hw, <- app_assoc|]. split; [intros e' [= <-]; eauto|].
      destruct r as [res|e].
      * destruct Hr as (H1 & H2 & sj & ->). done.
      * destruct Hr as [->|(sj & d' & ->)]; [by right; left|by right; right].
    + rewrite (commit_after_preAct _ _ _ Hp) by done. simpl.
      intros [= <- <-]. simpl. eexists [_; _]. split; [by rewrite <- app_assoc|].
      split; [intros e' [= <-]; eauto|]. done.
    + intros H. apply deployPasses_after_preAct in H; [|done..].
      destruct H as (tail & Hw & Hr). simpl in Hw. exists (e0 :: tail).
      split; [by rewrite Hw, <- app_assoc|]. split; [intros e' [= <-]; eauto|].
      destruct r as [res|e].
      * destruct Hr as (H1 & H2 & sj & ->). done.
      * destruct Hr as [->|(sj & d' & ->)]; [by right; left|by right; right].
    + intros [= <- <-]. simpl. eexists [_]. split; [reflexivity|].
      split; [intros e' [= <-]; eauto|]. by right; left.
Qed.

(** Witness of [deploy_loop_history]: two passes, the second completing
    the deployment. *)
Lemma deploy_loop_history_witness :
  ex_isStatusComplete preAct = false ∧
  lastCommit ex_env = None ∧
  env_dryRun ex_env = false ∧
  ∃ res env',
    deployPasses ex_isStatusComplete ex_env "/data" ex_passes = Some (Ok res, env') ∧
    ∃ new : list HistoryEntry,
      writes (env_deployment env')
      = writes (env_deployment ex_env) ++ (WCommitEntry <$> new) ∧
      (λ e, status (entry e)) <$> new = [preAct; success].
Proof.
  split; [reflexivity|]. split; [reflexivity|]. split; [reflexivity|].
  eexists _, _. split; [reflexivity|].
  destruct (deploy_loop_history ex_isStatusComplete ex_env _ "/data" ex_passes _
              eq_refl eq_refl eq_refl eq_refl) as (new & H1 & _ & _ & _ & H4 & _).
  exists new. split; [exact H1|exact H4].
Defined.

Lemma commit_preAct_ok isStatusComplete env d dataDir :
  isStatusComplete preAct = false →
  lastCommit env = None ∨ lastCommit env = Some preAct →
  ∃ env1, commit isStatusComplete env (passEntry preAct dataDir d) = (Ok (), env1)
          ∧ lastCommit env1 = Some preAct.
Proof.
  intros Hp [Hl|Hl]; unfold commit; rewrite Hl; simpl.
  - destruct (env_dryRun env); eexists; split; reflexivity.
  - eexists; split; [reflexivity|done].
Qed.

(** X7: started before any commit, the loop of [buildAndDeploy] ends,
    by returning or throwing, exactly when some pass throws or reports
    the state unchanged; it ends at the first such pass, the passes after
    it are not run. *)
Theorem deploy_loop_ends (isStatusComplete : HistoryStatus → bool)
    (env : CommitEnv) (dataDir : string) (passes : list PassOutcome) :
  isStatusComplete preAct = false →
  lastCommit env = None →
  (is_Some (deployPasses isStatusComplete env dataDir passes)
   ↔ ∃ o, o ∈ passes ∧ repeats o = false) ∧
  (∀ before o after,
     passes = before ++ o :: after →
     forallb repeats before = true → repeats o = false →
     deployPasses isStatusComplete env dataDir passes
     = deployPasses isStatusComplete env dataDir (before ++ [o])).
Proof.
  intros Hp Hl.
  assert (∀ passes env, lastCommit env = None ∨ lastCommit env = Some preAct →
            (is_Some (deployPasses isStatusComplete env dataDir passes)
             ↔ ∃ o, o ∈ passes ∧ repeats o = false)) as Hsome.
  { clear env Hl passes. induction passes as [|o rest IH]; intros env Hl; simpl.
    - split; [by intros [x H]|]. intros (o & Ho & _). by apply elem_of_nil in Ho.
    - destruct o as [rb e|d rebuilt acted e|d rebuilt acted dc sc]; simpl.
      + split; [|eauto]. intros _. exists (PrepareThrows rb e). split; [left|done].
      + split.
        * intros _. exists (ActThrows d rebuilt acted e). split; [left|done].
        * intros _.
          destruct (commit isStatusComplete (with_stateStore env rebuilt)
                      (passEntry preAct dataDir d)) as [[u|e'] env1]; [|eauto].
          destruct (commit isStatusComplete (with_stateStore env1 acted)
                      (passEntry failed dataDir d)) as [[u'|e'] env2]; eauto.
      + destruct (commit_preAct_ok isStatusComplete (with_stateStore env rebuilt) d
                    dataDir Hp Hl) as (env1 & -> & Hl1).
        destruct sc; simpl.
        * rewrite !andb_false_r.
          rewrite (IH (with_stateStore env1 acted)) by (by right).
          split; intros (o & Ho & Hr).
          -- exists o. split; [by right|done].
          -- apply elem_of_cons in Ho as [->|Ho]; [done|eauto].
        * rewrite !andb_true_r.
          split; [intros _|].
          { exists (ActReturns d rebuilt acted dc false). split; [left|done]. }
          intros _. destruct dc; simpl; [|eauto].
          destruct (commit isStatusComplete (with_stateStore env1 acted)
                      (passEntry success dataDir d)) as [[u|e'] env2]; eauto. }
  split; [apply Hsome; by left|].
  assert (∀ before env o after, lastCommit env = None ∨ lastCommit env = Some preAct →
            forallb repeats before = true → repeats o = false →
            deployPasses isStatusComplete env dataDir (before ++ o :: after)
            = deployPasses isStatusComplete env dataDir (before ++ [o])) as Hcut.
  { clear env Hl passes Hsome. induction before as [|b before IH]; intros env o after Hl Hb Ho.
    - simpl. destruct (deployPass isStatusComplete env dataDir o) as [[res|e] env1] eqn:E;
        [|done].
      assert (stateChanged res = false) as Hsc.
      { destruct o as [rb e|d rebuilt acted e|d rebuilt acted dc sc]; simpl in *.
        - done.
        - destruct (commit isStatusComplete (with_stateStore env rebuilt)
                      (passEntry preAct dataDir d)) as [[u|e'] env2]; [|done].
          by destruct (commit isStatusComplete (with_stateStore env2 acted)
                      (passEntry failed dataDir d)) as [[u'|e'] env3].
        - destruct (commit isStatusComplete (with_stateStore env rebuilt)
                      (passEntry preAct dataDir d)) as [[u|e'] env2]; [|done].
          injection E as <- <-. done. }
      rewrite Hsc. simpl. rewrite andb_true_r. by destruct (deployComplete res).
    - simpl in Hb. apply andb_true_iff in Hb as [Hb1 Hb2].
      destruct b as [rb e|d rebuilt acted e|d rebuilt acted dc sc]; simpl in Hb1; try done.
      subst sc. simpl.
      destruct (commit isStatusComplete (with_stateStore env rebuilt)
                  (passEntry preAct dataDir d)) as [[u|e'] env1] eqn:E; [|done].
      simpl. rewrite !andb_false_r.
      apply IH; [|done|done].
      destruct (commit_preAct_ok isStatusComplete (with_stateStore env rebuilt) d
                  dataDir Hp Hl) as (env1' & E' & Hl1).
      destruct u. rewrite E in E'. injection E' as <-. by right. }
  intros before o after -> Hb Ho. apply Hcut; auto.
Qed.

(** Witness of [deploy_loop_ends]: the second of the two passes reports
    the state unchanged. *)
Lemma deploy_loop_ends_witness :
  ex_isStatusComplete preAct = false ∧
  lastCommit ex_env = None ∧
  is_Some (deployPasses ex_isStatusComplete ex_env "/data" ex_passes) ∧
  deployPasses ex_isStatusComplete ex_env "/data"
    (ex_passes ++ [PrepareThrows "{}" (Error "not run")])
  = deployPasses ex_isStatusComplete ex_env "/data" ex_passes.
Proof.
  split; [reflexivity|]. split; [reflexivity|].
  split.
  - destruct (deploy_loop_ends ex_isStatusComplete ex_env "/data" ex_passes
                eq_refl eq_refl) as [H _].
    apply H. exists (ActReturns ex_passData "{}" "{}" true false).
    split; [right; left|reflexivity].
  - destruct (deploy_loop_ends ex_isStatusComplete ex_env "/data"
                (ex_passes ++ [PrepareThrows "{}" (Error "not run")])
                eq_refl eq_refl) as [_ H].
    apply (H [ActReturns ex_passData "{}" "{}" false true]
             (ActReturns ex_passData "{}" "{}" true false)
             [PrepareThrows "{}" (Error "not run")]); reflexivity.
Defined.

End DeployLoopFacts.

(** ** Debug flags (ops/common.ts) *)

Module DebugFlagsFacts.
Import Css Common StringFacts.

#[local] Open Scope nat_scope.

Lemma isSpace_comma : isSpace comma = false.
Proof. reflexivity. Qed.

(** Reading a comma-free text that does not end in white space. *)
Lemma splitCommas_aux_text u : ∀ s cur ws,
  noComma u = true →
  (∃ c, lastChar u = Some c ∧ isSpace c = false) →
  splitCommas_aux (u +:+ s) cur ws false
  = splitCommas_aux s (cur +:+ ws +:+ u) "" false.
Proof.
  induction u as [|c u IH]; intros s cur ws Hn (x & Hl & Hx); [done|].
  simpl in Hn. apply andb_true_iff in Hn as [Hc Hn].
  apply negb_true_iff in Hc. rewrite string_app_cons. simpl. rewrite Hc.
  destruct u as [|c' u'].
  - simpl in Hl. injection Hl as ->. rewrite Hx. done.
  - assert (∃ c0, lastChar (String c' u') = Some c0 ∧ isSpace c0 = false) as Hl'.
    { exists x. split; [|done]. exact Hl. }
    destruct (isSpace c) eqn:Hs.
    + rewrite IH by done. f_equal. by rewrite !string_app_assoc.
    + rewrite IH by done. f_equal. by rewrite !string_app_assoc.
Qed.

Lemma flagName_inv t :
  flagName t = true →
  t = "" ∨ ∃ c u, t = String c u ∧ c ≠ comma ∧ isSpace c = false ∧ noComma u = true ∧
                  (u = "" ∨ ∃ x, lastChar u = Some x ∧ isSpace x = false).
Proof.
  unfold flagName. destruct t as [|c u]; [by left|].
  intros H0. right. apply andb_true_iff in H0 as [H0 _].
  apply andb_true_iff in H0 as [H0 H3]. apply andb_true_iff in H0 as [H1 H2].
  simpl in H1. apply andb_true_iff in H1 as [Hc Hn].
  apply negb_true_iff, bool_decide_eq_false in Hc. apply negb_true_iff in H2.
  exists c, u. repeat split; try done.
  destruct u as [|c' u']; [by left|]. right.
  change (lastChar (String c (String c' u'))) with (lastChar (String c' u')) in H3.
  destruct (lastChar (String c' u')) as [x|] eqn:E.
  - exists x. split; [done|]. by apply negb_true_iff.
  - exfalso. clear -E. revert c' E. induction u' as [|a u' IH]; intros c' E; [done|].
    by apply (IH a).
Qed.

(** Reading a flag name, at the start or after a comma. *)
Lemma splitCommas_aux_flag t s ac :
  flagName t = true → t ≠ "" →
  splitCommas_aux (t +:+ s) "" "" ac = splitCommas_aux s t "" false.
Proof.
  intros Ht Hne. apply flagName_inv in Ht as [->|(c & u & -> & Hc & Hs & Hn & Hu)]; [done|].
  rewrite string_app_cons. simpl. rewrite bool_decide_false by done. rewrite Hs.
  rewrite !string_app_nil_l.
  destruct Hu as [->|Hu]; [done|].
  rewrite splitCommas_aux_text by done. by rewrite string_app_nil_l.
Qed.

Lemma splitCommas_aux_spaces w : ∀ s cur ws,
  allSpace w = true →
  splitCommas_aux (w +:+ s) "" "" true = splitCommas_aux s "" "" true ∧
  splitCommas_aux (w +:+ s) cur ws false = splitCommas_aux s cur (ws +:+ w) false.
Proof.
  induction w as [|c w IH]; intros s cur ws Hw.
  - by rewrite string_app_nil_r, string_app_nil_l.
  - simpl in Hw. apply andb_true_iff in Hw as [Hc Hw].
    assert (c ≠ comma) as Hne by (intros ->; by rewrite isSpace_comma in Hc).
    rewrite string_app_cons. simpl. rewrite bool_decide_false by done. rewrite Hc.
    destruct (IH s cur (ws +:+ String c "") Hw) as [-> ->].
    split; [done|]. by rewrite string_app_assoc.
Qed.

(** Reading a separator. *)
Lemma splitCommas_aux_separator w1 w2 s cur ac :
  allSpace w1 = true → allSpace w2 = true →
  (ac = true → cur = "") →
  splitCommas_aux ((w1 +:+ String comma w2) +:+ s) cur "" ac
  = cur :: splitCommas_aux s "" "" true.
Proof.
  intros H1 H2 Hac. rewrite !string_app_assoc, string_app_cons.
  destruct (splitCommas_aux_spaces w1 (String comma (w2 +:+ s)) cur "" H1) as [Ha Hb].
  destruct (splitCommas_aux_spaces w2 s "" "" H2) as [Hc _].
  destruct ac.
  - rewrite (Hac eq_refl), Ha. simpl. by rewrite Hc.
  - rewrite Hb. simpl. by rewrite Hc.
Qed.

Lemma splitCommas_aux_join w1 w2 ts : ∀ ac,
  allSpace w1 = true → allSpace w2 = true →
  ts ≠ [] → Forall (λ t, flagName t = true) ts →
  splitCommas_aux (String.concat (w1 +:+ String comma w2) ts) "" "" ac = ts.
Proof.
  intros ac H1 H2 Hne Hts. revert ac.
  induction Hts as [|t ts Ht Hts IH]; intros ac; [done|].
  destruct ts as [|t2 rest].
  - simpl. destruct (decide (t = "")) as [->|Hn]; [done|].
    rewrite <- (string_app_nil_r t) at 1.
    rewrite splitCommas_aux_flag by done. simpl. by rewrite string_app_nil_r.
  - change (String.concat ?sep (t :: t2 :: rest))
      with (t +:+ sep +:+ String.concat sep (t2 :: rest)).
    destruct (decide (t = "")) as [->|Hn].
    + rewrite string_app_nil_l.
      rewrite splitCommas_aux_separator; [|done|done|done]. f_equal. by apply IH.
    + rewrite splitCommas_aux_flag by done.
      rewrite splitCommas_aux_separator; [|done|done|done]. f_equal. by apply IH.
Qed.

(** X8: a debug string made of flag names joined by commas, with any
    white space before and after each comma, is split into those names:
    the flags set are the names given, except for [__proto__], which
    sets no flag.  (The empty name is a flag like any other: the empty
    string sets the flag with the empty name.) *)
Theorem parseDebugString_join (ts : list string) (w1 w2 : string) :
  ts ≠ [] →
  Forall (λ t, flagName t = true) ts →
  allSpace w1 = true → allSpace w2 = true →
  let s := String.concat (w1 +:+ String comma w2) ts in
  splitCommas s = ts ∧
  ∀ f, f ∈ parseDebugString s ↔ f ∈ ts ∧ f ≠ "__proto__".
Proof.
  intros Hne Hts H1 H2 s.
  assert (splitCommas s = ts) as Hs by (by apply splitCommas_aux_join).
  split; [done|]. intros f. unfold parseDebugString. rewrite Hs.
  rewrite elem_of_list_to_set, list_elem_of_filter. tauto.
Qed.

(** Witness of [parseDebugString_join]: two flags, a blank after the
    comma. *)
Lemma parseDebugString_join_witness :
  ["build"; "deploy"] ≠ [] ∧
  Forall (λ t, flagName t = true) ["build"; "deploy"] ∧
  allSpace "" = true ∧ allSpace " " = true ∧
  splitCommas "build, deploy" = ["build"; "deploy"] ∧
  "deploy" ∈ parseDebugString "build, deploy".
Proof.
  assert (["build"; "deploy"] ≠ @nil string) as H1 by discriminate.
  assert (Forall (λ t, flagName t = true) ["build"; "deploy"]) as H2.
  { repeat (apply Forall_cons; split; [reflexivity|]). apply Forall_nil_2. }
  split; [exact H1|]. split; [exact H2|]. split; [reflexivity|].
  split; [reflexivity|].
  destruct (parseDebugString_join ["build"; "deploy"] "" " " H1 H2 eq_refl eq_refl)
    as [H3 H4].
  split; [exact H3|]. apply H4. split; [right; left|discriminate].
Defined.

End DebugFlagsFacts.

(** ** The observer registry (observers/registry.ts) *)

Module RegistryFacts.
Import Observers ObserversFacts.

#[local] Open Scope nat_scope.

Lemma registerObserver_lookup observers ctor obs nameIn name p :
  observers !! name = Some p →
  fst (snd (registerObserver observers ctor obs nameIn)) !! name = Some p.
Proof.
  intros H. unfold registerObserver.
  destruct (hasProperty observers _) eqn:E; simpl; [done|].
  rewrite lookup_insert_ne; [done|]. intros <-.
  unfold hasProperty in E. rewrite H in E.
  rewrite bool_decide_true in E by eauto. done.
Qed.

Lemma registerAll_lookup regs : ∀ observers name p,
  observers !! name = Some p → registerAll observers regs !! name = Some p.
Proof.
  induction regs as [|r regs IH]; intros observers name p H; simpl; [done|].
  apply IH. by apply registerObserver_lookup.
Qed.



(** X10: a name under which an observer is registered stays taken.
    Whatever is registered later, [findObserver] keeps finding the same
    observer, and registering under that name again throws the
    duplicate-name error and changes neither the registry nor the
    class. *)
Theorem registered_name_is_taken (observers : gmap string ObserverPlugin)
    (name : string) (p : ObserverPlugin) (regs : list Registration)
    (constructor : ObserverClass) (obs : ObserverPlugin) (nameIn : option string) :
  findObserver observers name = FoundPlugin p →
  registeredName constructor nameIn = name →
  let later := registerAll observers regs in
  findObserver later name = FoundPlugin p ∧
  registerObserver later constructor obs nameIn
  = (Throw (Error ("Attempt to register observer with duplicate name '"
                   +:+ name +:+ "'")),
     (later, constructor)).
Proof.
  intros Hf Hn later. unfold findObserver in Hf.
  destruct (observers !! name) as [p'|] eqn:E; [|by case_bool_decide].
  injection Hf as ->.
  assert (later !! name = Some p) as Hl by by apply registerAll_lookup.
  split; [unfold findObserver; by rewrite Hl|].
  unfold registerObserver. rewrite Hn.
  unfold hasProperty. rewrite Hl. rewrite bool_decide_true by eauto. done.
Qed.

(** Witness of [registered_name_is_taken]: the name "good", after a
    later registration. *)
Lemma registered_name_is_taken_witness :
  findObserver ex_observers "good"
  = FoundPlugin (mkObserverPlugin "schema" (λ _, Resolved "data")) ∧
  registeredName ex_class (Some "good") = "good" ∧
  fst (registerObserver
         (registerAll ex_observers [mkRegistration ex_class ex_plugin None])
         ex_class ex_plugin (Some "good"))
  = Throw (Error "Attempt to register observer with duplicate name 'good'").
Proof.
  split; [reflexivity|]. split; [reflexivity|].
  destruct (registered_name_is_taken ex_observers "good" _
              [mkRegistration ex_class ex_plugin None] ex_class ex_plugin
              (Some "good") eq_refl eq_refl) as [_ ->].
  reflexivity.
Defined.

(** X11: called with the names of the registered observers, its
    default, [observe] calls every registered observer once, with the
    queries executed for it, and no other.  The observations it returns,
    or that the error it throws carries, are those of the observers that
    answered; when all answer it returns, logs nothing, and has an
    observation for every registered observer. *)
Theorem observe_all_registered (notCallable : string)
    (observers : gmap string ObserverPlugin)
    (executedQueries : gmap string (list ExecutedQuery))
    (logger : list string) (names : list string) (sched : list nat) :
  NoDup names →
  (∀ name, name ∈ names ↔ is_Some (observers !! name)) →
  let r := observe notCallable observers executedQueries logger names sched in
  fst <$> calls r = names ∧ NoDup (fst <$> calls r) ∧
  (∀ name obs, observers !! name = Some obs →
     (name, queriesFor executedQueries name) ∈ calls r ∧
     observationsOf r !! name =
       match plugin_observe obs (queriesFor executedQueries name) with
       | Resolved o => Some (mkObservation o (queriesFor executedQueries name))
       | Rejected _ => None
       end) ∧
  (∀ name, observers !! name = None → observationsOf r !! name = None) ∧
  ((∀ name obs, observers !! name = Some obs →
      ∃ o, plugin_observe obs (queriesFor executedQueries name) = Resolved o) →
   result r = Returns (observationsOf r) ∧ logged r = logger ∧
   dom (observationsOf r) = dom observers).
Proof.
  intros Hnd Hnames r.
  set (started := startAll notCallable observers executedQueries names).
  set (settled := settleOrder (length started) sched started).
  assert (settled ≡ₚ started) as Hperm by (by apply settleOrder_perm).
  assert (∀ name obs, observers !! name = Some obs →
            mkStarted name (queriesFor executedQueries name)
              (plugin_observe obs (queriesFor executedQueries name)) ∈ started) as Hin.
  { intros name obs Hobs. apply elem_of_startAll_plugin; [|done].
    apply Hnames. eauto. }
  assert (∀ w, w ∈ started →
            ∃ obs, observers !! st_name w = Some obs ∧
                   w = mkStarted (st_name w) (queriesFor executedQueries (st_name w))
                         (plugin_observe obs
                            (queriesFor executedQueries (st_name w)))) as Hown.
  { intros w Hw. apply startAll_inv in Hw as [Hn Hw].
    apply Hnames in Hn as [obs Hobs]. rewrite Hobs in Hw. exists obs.
    split; [done|]. destruct w as [n q st]. simpl in *.
    destruct Hw as [-> ->]. done. }
  assert (∀ name, observers !! name = None → observationsOf r !! name = None) as Hnone.
  { intros name Hn. destruct (observationsOf r !! name) as [ob|] eqn:E; [|done].
    apply observe_observations_sound in E as (w & Hw & Hname & _).
    destruct (Hown w Hw) as (obs & Hobs & _). congruence. }
  assert (∀ name obs, observers !! name = Some obs →
     observationsOf r !! name =
       match plugin_observe obs (queriesFor executedQueries name) with
       | Resolved o => Some (mkObservation o (queriesFor executedQueries name))
       | Rejected _ => None
       end) as Hobs.
  { intros name obs Ho. specialize (Hin name obs Ho).
    destruct (plugin_observe obs (queriesFor executedQueries name)) as [o|e] eqn:E.
    - unfold r. rewrite observationsOf_observe. fold started. fold settled.
      apply (foldl_settle_ret_has settled _
               (mkStarted name (queriesFor executedQueries name) (Resolved o))).
      + by rewrite Hperm.
      + intros w1 w2 H1 H2. rewrite Hperm in H1, H2.
        by apply (startAll_functional notCallable observers executedQueries names).
      + done.
    - destruct (observationsOf r !! name) as [ob|] eqn:E'; [|done].
      apply observe_observations_sound in E' as (w & Hw & Hname & Hres & _).
      assert (w = mkStarted name (queriesFor executedQueries name) (Rejected e)) as ->.
      { apply (startAll_functional notCallable observers executedQueries names); done. }
      done. }
  assert (fst <$> calls r = names) as Hcalls.
  { unfold r, observe. cbn [calls]. fold started. rewrite <- list_fmap_compose.
    assert (filter (λ w, isCall observers w = true) started = started) as ->.
    { apply filter_Forall_id, Forall_forall. intros w Hw.
      destruct (Hown w Hw) as (obs & Ho & _). unfold isCall.
      rewrite bool_decide_true; eauto. }
    etrans; [apply startAll_names|].
    apply filter_Forall_id, Forall_forall. intros name Hn.
    unfold hasProperty. apply Hnames in Hn. by rewrite bool_decide_true. }
  split; [exact Hcalls|]. split; [by rewrite Hcalls|]. split; [|split].
  - intros name obs Ho. split; [|by apply Hobs].
    apply (observe_calls_registered _ _ _ _ _ _ name obs); [|done].
    apply Hnames. eauto.
  - exact Hnone.
  - intros Hall.
    assert (omap failureMessage settled = []) as Hnf.
    { apply no_failures, forallb_forall. intros w Hw.
      apply list_elem_of_In in Hw. rewrite Hperm in Hw.
      destruct (Hown w Hw) as (obs & Ho & ->).
      destruct (Hall _ obs Ho) as [o Hres]. unfold succeeded. simpl. by rewrite Hres. }
    destruct (foldl_settle settled (mkObserveState ∅ [] logger)) as [He Hw].
    simpl in He, Hw. rewrite Hnf in He, Hw. rewrite app_nil_r in Hw.
    assert (result r = Returns (observationsOf r)) as Hres.
    { unfold observationsOf. unfold r, observe. simpl. fold started. fold settled.
      rewrite He. by rewrite !bool_decide_false by (intros H; by apply H). }
    split; [done|]. split.
    + unfold r, observe. simpl. fold started. fold settled. done.
    + apply set_eq. intros name. rewrite !elem_of_dom.
      destruct (observers !! name) as [obs|] eqn:E.
      * rewrite (Hobs name obs E). destruct (Hall name obs E) as [o ->].
        split; eauto.
      * rewrite (Hnone name E). done.
Qed.

(** Witness of [observe_all_registered]: the two observers of the small
    registry. *)
Lemma observe_all_registered_witness :
  NoDup ["bad"; "good"] ∧
  (∀ name, name ∈ ["bad"; "good"] ↔ is_Some (ex_observers !! name)) ∧
  ∀ notCallable,
    fst <$> calls (observe notCallable ex_observers ∅ [] ["bad"; "good"] [])
    = ["bad"; "good"] ∧
    observationsOf (observe notCallable ex_observers ∅ [] ["bad"; "good"] [])
      !! "good" = Some (mkObservation "data" []).
Proof.
  assert (NoDup ["bad"; "good"]) as H1.
  { apply (bool_decide_unpack _). vm_compute. exact I. }
  assert (∀ name, name ∈ ["bad"; "good"] ↔ is_Some (ex_observers !! name)) as H2.
  { intros name. rewrite !elem_of_cons, elem_of_nil. unfold ex_observers.
    destruct (decide (name = "good")) as [->|Hg].
    - rewrite lookup_insert_eq. split; eauto.
    - rewrite lookup_insert_ne by done.
      destruct (decide (name = "bad")) as [->|Hb].
      + rewrite lookup_singleton_eq. split; eauto.
      + rewrite lookup_singleton_ne by done. split; [intuition|].
        intros [x Hx]. discriminate. }
  split; [exact H1|]. split; [exact H2|]. intros notCallable.
  destruct (observe_all_registered notCallable ex_observers ∅ [] ["bad"; "good"] []
              H1 H2) as (H3 & _ & H4 & _).
  split; [exact H3|].
  destruct (H4 "good" (mkObserverPlugin "schema" (λ _, Resolved "data")) eq_refl)
    as [_ H5].
  exact H5.
Defined.

End RegistryFacts.

(** ** Unique names (css.ts) *)

Module UniqueNameFacts.
Import Css CssMatchFacts StringFacts.

#[local] Open Scope nat_scope.

Lemma pretty_N_char_digit x : (x < 10)%N → isDigit (pretty_N_char x) = true.
Proof.
  intros H.
  assert (x = 0 ∨ x = 1 ∨ x = 2 ∨ x = 3 ∨ x = 4 ∨ x = 5 ∨ x = 6 ∨ x = 7
          ∨ x = 8 ∨ x = 9)%N as Hx by lia.
  repeat (destruct Hx as [->|Hx]; [reflexivity|]). by subst.
Qed.

Lemma pretty_N_go_digits x : ∀ s,
  allDigits s = true → allDigits (pretty_N_go x s) = true.
Proof.
  induction (N.lt_wf_0 x) as [x _ IH]. intros s Hs.
  destruct (decide (x = 0%N)) as [->|Hx]; [by rewrite pretty_N_go_0|].
  rewrite pretty_N_go_step by lia. apply IH.
  - apply N.div_lt; lia.
  - simpl. rewrite Hs, pretty_N_char_digit; [done|]. apply N.mod_lt. lia.
Qed.

Lemma pretty_nat_digits (n : nat) : allDigits (pretty n) = true.
Proof.
  unfold pretty, pretty_nat, pretty, pretty_N.
  destruct (decide (N.of_nat n = 0%N)); [done|]. by apply pretty_N_go_digits.
Qed.

Lemma digits_split d1 : ∀ d2 s1 s2,
  allDigits d1 = true → allDigits d2 = true →
  noLeadingDigit s1 = true → noLeadingDigit s2 = true →
  d1 +:+ s1 = d2 +:+ s2 → d1 = d2.
Proof.
  induction d1 as [|c d1 IH]; intros d2 s1 s2 H1 H2 N1 N2 Heq.
  - destruct d2 as [|c2 d2]; [done|]. rewrite string_app_nil_l, string_app_cons in Heq.
    subst s1. simpl in *. apply andb_true_iff in H2 as [H2 _]. by rewrite H2 in N1.
  - destruct d2 as [|c2 d2].
    + rewrite string_app_nil_l, string_app_cons in Heq.
      subst s2. simpl in *. apply andb_true_iff in H1 as [H1 _]. by rewrite H1 in N2.
    + rewrite !string_app_cons in Heq. injection Heq as -> Heq.
      simpl in H1, H2. apply andb_true_iff in H1 as [_ H1].
      apply andb_true_iff in H2 as [_ H2]. f_equal. by apply (IH d2 s1 s2).
Qed.

Lemma uniqueName_text_inj (i j : nat) (s1 s2 : string) :
  noLeadingDigit s1 = true → noLeadingDigit s2 = true →
  uniqueNamePrefix +:+ pretty i +:+ s1 = uniqueNamePrefix +:+ pretty j +:+ s2 →
  i = j.
Proof.
  intros N1 N2 Heq. apply String.app_inj in Heq.
  apply digits_split in Heq; try done; try apply pretty_nat_digits.
  by apply (inj pretty).
Qed.

Lemma plainName_suffix o :
  plainName o = true →
  noLeadingDigit (match ctName o with Some n => n | None => "" end) = true.
Proof. unfold plainName. by destruct (ctName o) as [[|c s]|]. Qed.

Lemma uniqueName_ok o st :
  plainName o = true → names_ok st → names_ok (snd (uniqueName o st)).
Proof.
  intros Hp [H1 H2]. unfold uniqueName.
  destruct (objToName st !! ctRef o) as [r|] eqn:E; simpl; [done|].
  set (new := uniqueNamePrefix +:+ pretty (nextUniqueNameIndex st) +:+ _).
  assert (∀ ref r, objToName st !! ref = Some r → r ≠ new) as Hfresh.
  { intros ref r Hr ->. destruct (H1 _ _ Hr) as (i & suffix & Hi & Hs & Heq).
    symmetry in Heq.
    apply uniqueName_text_inj in Heq; [lia|done|by apply plainName_suffix]. }
  split; simpl.
  - intros ref r. destruct (decide (ref = ctRef o)) as [->|Hne].
    + rewrite lookup_insert_eq. intros [= <-].
      exists (nextUniqueNameIndex st), (match ctName o with Some n => n | None => "" end).
      split; [lia|]. split; [by apply plainName_suffix|done].
    + rewrite lookup_insert_ne by done. intros Hr.
      destruct (H1 _ _ Hr) as (i & suffix & Hi & Hs & Heq).
      exists i, suffix. split; [lia|done].
  - intros ref1 ref2 r.
    destruct (decide (ref1 = ctRef o)) as [->|Hne1];
      destruct (decide (ref2 = ctRef o)) as [->|Hne2];
      rewrite ?lookup_insert_eq, ?lookup_insert_ne by done; try done.
    + intros [= <-] Hr. by destruct (Hfresh _ _ Hr).
    + intros Hr [= <-]. by destruct (Hfresh _ _ Hr).
    + apply H2.
Qed.

Lemma namesReachable_ok st : namesReachable st → names_ok st.
Proof.
  induction 1 as [|o st Hp Hr IH].
  - split; intros *; simpl; by rewrite lookup_empty.
  - by apply uniqueName_ok.
Qed.

Lemma uniqueName_stored o st :
  objToName (snd (uniqueName o st)) !! ctRef o = Some (fst (uniqueName o st)).
Proof.
  unfold uniqueName. destruct (objToName st !! ctRef o) as [r|] eqn:E; simpl; [done|].
  by rewrite lookup_insert_eq.
Qed.

Lemma uniqueName_keeps o st ref r :
  objToName st !! ref = Some r → objToName (snd (uniqueName o st)) !! ref = Some r.
Proof.
  intros H. unfold uniqueName.
  destruct (objToName st !! ctRef o) as [r'|] eqn:E; simpl; [done|].
  rewrite lookup_insert_ne; [done|]. congruence.
Qed.

Lemma uniqueName_known o st r :
  objToName st !! ctRef o = Some r → uniqueName o st = (r, st).
Proof. intros H. unfold uniqueName. by rewrite H. Qed.

(** The proviso of the next theorem is needed: the index and the own name
    are joined without a separator, so that a component type with the
    own name "0" that is named second, and an anonymous one that is named
    eleventh, both get the unique name "UniqueName10". *)
Lemma uniqueName_collision :
  let cts := (λ i, mkComponentType i (if (i =? 1)%nat then Some "0" else None))
               <$> seq 0 11 in
  objToName (namesAfter cts) !! 1 = Some "UniqueName10" ∧
  objToName (namesAfter cts) !! 10 = Some "UniqueName10".
Proof. vm_compute. split; reflexivity. Qed.

(** X12: as long as the component types that are given unique names have
    own names that do not start with a digit (or have none), the unique
    names identify the component types.  In a state reached by naming
    such component types only, two such component types get the same
    unique name only if they are the same object; and asking again gives
    the same name and changes nothing. *)
Theorem uniqueName_identifies (st : UniqueNames) (a b : ComponentType) :
  namesReachable st →
  plainName a = true → plainName b = true →
  let na := fst (uniqueName a st) in
  let st1 := snd (uniqueName a st) in
  let nb := fst (uniqueName b st1) in
  let st2 := snd (uniqueName b st1) in
  (na = nb ↔ ctRef a = ctRef b) ∧
  uniqueName a st2 = (na, st2) ∧
  uniqueName b st2 = (nb, st2).
Proof.
  intros Hr Ha Hb na st1 nb st2.
  assert (names_ok st2) as [_ Hinj].
  { apply uniqueName_ok; [done|]. apply uniqueName_ok; [done|].
    by apply namesReachable_ok. }
  assert (objToName st2 !! ctRef a = Some na) as Hna.
  { apply uniqueName_keeps. apply uniqueName_stored. }
  assert (objToName st2 !! ctRef b = Some nb) as Hnb by apply uniqueName_stored.
  split; [|split].
  - split.
    + intros Heq. rewrite <- Heq in Hnb. by apply (Hinj _ _ na).
    + intros Heq. rewrite Heq in Hna. congruence.
  - by apply uniqueName_known.
  - by apply uniqueName_known.
Qed.

(** Witness of [uniqueName_identifies]: the two component types of the
    small tree. *)
Lemma uniqueName_identifies_witness :
  namesReachable (mkUniqueNames ∅ 0) ∧
  plainName ex_ctA = true ∧ plainName ex_ctB = true ∧
  fst (uniqueName ex_ctA (mkUniqueNames ∅ 0)) ≠ fst (uniqueName ex_ctB ex_names) ∧
  uniqueName ex_ctA ex_names = ("UniqueName0A", ex_names).
Proof.
  split; [apply names_fresh|]. split; [reflexivity|]. split; [reflexivity|].
  pose proof (uniqueName_identifies (mkUniqueNames ∅ 0) ex_ctA ex_ctB
                names_fresh eq_refl eq_refl) as H.
  cbv zeta in H. destruct H as (H1 & H2 & _).
  split.
  - intros Heq. cut (ctRef ex_ctA = ctRef ex_ctB); [discriminate|].
    apply H1. exact Heq.
  - exact H2.
Defined.

End UniqueNameFacts.

(** ** Selectors (css.ts) *)

Module SelectorFacts.
Import Css CssMatchFacts UniqueNameFacts.

#[local] Open Scope nat_scope.

Lemma last_Some_nonempty {T} (l : list T) (x : T) :
  snd (last l) = Some x → l ≠ [] ∧ length l ≠ 0.
Proof. destruct l; [done|]. intros _. split; [done|]. simpl. lia. Qed.

Lemma matchTag_last name path e st :
  snd (last path) = Some e →
  run (matchTag name path) st
  = (Ok (mkMatched path (bool_decide (fst (uniqueName (componentType e) st) = name))),
     snd (uniqueName (componentType e) st)).
Proof.
  intros Hl. unfold matchTag, run. rewrite Hl.
  by destruct (uniqueName (componentType e) st).
Qed.

(** X13: as long as the component types that are given unique names have
    own names that do not start with a digit (or have none), the tag
    selector made of the unique name of a component type selects the
    elements of that component type.  In a state reached by naming such
    component types only, for a component type and an element whose
    component type are both such, the selector matches a path exactly
    when the component type of the path's last element is the same
    object, and it does not throw. *)
Theorem tag_selects_component (st : UniqueNames) (ct : ComponentType)
    (path : DomPath) (e : AdaptElement) :
  namesReachable st →
  plainName ct = true → plainName (componentType e) = true →
  snd (last path) = Some e →
  let tag := fst (uniqueName ct st) in
  let st1 := snd (uniqueName ct st) in
  matchWithBlock [FTag tag] path st1
  = (Ok (bool_decide (ctRef (componentType e) = ctRef ct)),
     snd (uniqueName (componentType e) st1)).
Proof.
  intros Hr Hct He Hl tag st1.
  change [FTag tag] with ([] ++ [FTag tag]).
  rewrite matchWithBlock_frag by done.
  rewrite matchFrag_tag, (matchTag_last _ _ e) by done. simpl.
  destruct (last_Some_nonempty _ _ Hl) as [_ Hlen].
  assert (names_ok (snd (uniqueName (componentType e) st1))) as [_ Hinj].
  { apply uniqueName_ok; [done|]. apply uniqueName_ok; [done|].
    by apply namesReachable_ok. }
  assert (bool_decide (fst (uniqueName (componentType e) st1) = tag)
          = bool_decide (ctRef (componentType e) = ctRef ct)) as ->.
  { apply bool_decide_ext. split.
    - intros Heq. apply (Hinj _ _ tag).
      + rewrite <- Heq. apply uniqueName_stored.
      + apply uniqueName_keeps. apply uniqueName_stored.
    - intros Heq. pose proof (uniqueName_stored ct st) as Hs. fold st1 tag in Hs.
      rewrite <- Heq in Hs. unfold uniqueName. by rewrite Hs. }
  destruct (bool_decide (ctRef (componentType e) = ctRef ct)); simpl; [|done].
  rewrite bool_decide_false by done. by rewrite matchWithBlock_nil.
Qed.

(** Witness of [tag_selects_component]: the leaf of the small tree is
    a B. *)
Lemma tag_selects_component_witness :
  namesReachable (mkUniqueNames ∅ 0) ∧
  plainName ex_ctB = true ∧ plainName (componentType ex_leaf) = true ∧
  snd (last ex_path) = Some ex_leaf ∧
  fst (matchWithBlock [FTag (fst (uniqueName ex_ctB (mkUniqueNames ∅ 0)))] ex_path
         (snd (uniqueName ex_ctB (mkUniqueNames ∅ 0)))) = Ok true.
Proof.
  split; [apply names_fresh|]. split; [reflexivity|]. split; [reflexivity|].
  split; [reflexivity|].
  pose proof (tag_selects_component (mkUniqueNames ∅ 0) ex_ctB ex_path ex_leaf
                names_fresh eq_refl eq_refl eq_refl) as H.
  cbv zeta in H. rewrite H. reflexivity.
Defined.

(** X14: a block of tag and attribute selectors only looks at the last
    element of the path: it matches, fails or throws on a path as it does
    on the path made of the last element alone. *)
Theorem compound_selector_is_local (b : ParsedSelectorBlock) (path : DomPath)
    (e : AdaptElement) (st : UniqueNames) :
  forallb simpleFrag b = true →
  snd (last path) = Some e →
  matchWithBlock b path st = matchWithBlock b [e] st.
Proof.
  intros Hb Hl. revert st. induction b as [|f b IH] using rev_ind; intros st.
  - by rewrite !matchWithBlock_nil.
  - rewrite forallb_app in Hb. apply andb_true_iff in Hb as [Hb Hf].
    simpl in Hf. rewrite andb_true_r in Hf.
    destruct (last_Some_nonempty _ _ Hl) as [_ Hlen].
    assert (f ≠ FDescendant) as Hd by (by intros ->).
    rewrite !matchWithBlock_frag by done.
    destruct f as [name action value ic|name data|name| | |ty]; try done.
    + rewrite !matchFrag_attribute. unfold matchAttribute. rewrite Hl. simpl.
      destruct (getPropValue e name ic) as [v|]; [|done].
      destruct action; simpl; try done;
        match goal with
        | |- context [negb ?c] => destruct c; simpl; [|done]
        | _ => idtac
        end;
        rewrite ?bool_decide_false by done; by apply IH.
    + rewrite !matchFrag_tag, (matchTag_last _ path e), (matchTag_last _ [e] e) by done.
      simpl. destruct (bool_decide _); simpl; [|done].
      rewrite bool_decide_false by done. by apply IH.
Qed.

(** Witness of [compound_selector_is_local]: a tag and an attribute
    selector on the leaf of the small tree. *)
Lemma compound_selector_is_local_witness :
  forallb simpleFrag [FTag "UniqueName1B"; FAttribute "key" AExists "" false] = true ∧
  snd (last ex_path) = Some ex_leaf ∧
  matchWithBlock [FTag "UniqueName1B"; FAttribute "key" AExists "" false]
    ex_path ex_names
  = matchWithBlock [FTag "UniqueName1B"; FAttribute "key" AExists "" false]
      [ex_leaf] ex_names.
Proof.
  split; [reflexivity|]. split; [reflexivity|].
  apply (compound_selector_is_local _ ex_path ex_leaf ex_names); reflexivity.
Defined.

(** X15: a selector list is the disjunction of its parts, tried in
    order.  A list made of two lists matches as the first does if that
    matches or throws, and as the second does otherwise (so an error in
    the second part is not seen when the first part matches). *)
Theorem selector_list_is_disjunction (s1 s2 : ParsedSelector) (path : DomPath)
    (st : UniqueNames) :
  matchWithSelector (s1 ++ s2) path st =
    match matchWithSelector s1 path st with
    | (Ok false, st') => matchWithSelector s2 path st'
    | r => r
    end.
Proof.
  revert st. induction s1 as [|b s1 IH]; intros st.
  - by rewrite matchWithSelector_nil.
  - change ((b :: s1) ++ s2) with (b :: (s1 ++ s2)).
    rewrite !matchWithSelector_cons.
    destruct (matchWithBlock b path st) as [[[|]|e] st']; first [done|apply IH].
Qed.

(** X16: the pseudo-classes, on a path that is not empty.  [:root] at the
    end of a block holds exactly when the path has length one, whatever
    its argument, and the rest of the block is then matched against the
    same path; [:not(sel)] is the negation of [sel] on the same path;
    [:not] without a selector argument throws the error that asks for
    one. *)
Theorem pseudo_class_matching (prefix : ParsedSelectorBlock) (path : DomPath)
    (st : UniqueNames) :
  path ≠ [] →
  (∀ data,
     matchWithBlock (prefix ++ [FPseudo "root" data]) path st =
       if bool_decide (length path = 1) then matchWithBlock prefix path st
       else (Ok false, st)) ∧
  (∀ sel, sel ≠ [] → hd [] sel ≠ [] →
     matchWithBlock (prefix ++ [FPseudo "not" (Some (inr sel))]) path st =
       match matchWithSelector sel path st with
       | (Throw e, st') => (Throw e, st')
       | (Ok true, st') => (Ok false, st')
       | (Ok false, st') => matchWithBlock prefix path st'
       end) ∧
  (∀ data, data = None ∨ data = Some (inr []) ∨ (∃ sel, data = Some (inr ([] :: sel))) →
     matchWithBlock (prefix ++ [FPseudo "not" data]) path st =
       (Throw (Error ("CSS " +:+ quoted ":not"
                      +:+ " requires at least one selector argument in parentheses")),
        st)).
Proof.
  intros Hp. assert (length path ≠ 0) as Hlen by (by destruct path).
  split; [|split].
  - intros data. rewrite matchWithBlock_frag by done.
    assert (matchFrag (FPseudo "root" data) path st = (Ok (matchRoot path), st)) as ->.
    { unfold matchFrag, run. by destruct data as [[s|[|b sel]]|]. }
    unfold matchRoot. simpl. destruct (bool_decide (length path = 1)); simpl; [|done].
    by rewrite bool_decide_false.
  - intros sel H1 H2. rewrite matchWithBlock_frag by done.
    rewrite matchFrag_not by done.
    destruct (matchWithSelector sel path st) as [[[|]|e] st']; simpl; try done.
    by rewrite bool_decide_false.
  - intros data Hd. rewrite matchWithBlock_frag by done.
    assert (matchFrag (FPseudo "not" data) path st
            = (Throw (Error ("CSS " +:+ quoted ":not"
                      +:+ " requires at least one selector argument in parentheses")),
               st)) as ->; [|done].
    destruct Hd as [->|[->|[sel ->]]]; reflexivity.
Qed.

(** Witness of [pseudo_class_matching]: the leaf of the small tree is not
    the root. *)
Lemma pseudo_class_matching_witness :
  ex_path ≠ [] ∧
  matchWithBlock [FPseudo "root" None] ex_path ex_names = (Ok false, ex_names).
Proof.
  assert (ex_path ≠ []) as H by discriminate.
  split; [exact H|].
  destruct (pseudo_class_matching [] ex_path ex_names H) as [H1 _].
  exact (H1 None).
Defined.




End SelectorFacts.

(** ** Searching a tree and building a style sheet (css.ts) *)

Module DomSearchFacts.
Import Css CssMatchFacts StringFacts.

#[local] Open Scope nat_scope.

Lemma Dom_induction (P : Dom → Prop) :
  (∀ el kids, Forall P kids → P (DomNode el kids)) → ∀ dom, P dom.
Proof.
  intros H. fix IH 1. intros [el kids]. apply H.
  induction kids as [|k kids IHk]; constructor; [apply IH|exact IHk].
Qed.

Lemma bindR_assoc {A B C} (m : Call A) (k : A → Call B) (h : B → Call C) st :
  bindR (bindR m k) h st = bindR m (λ a, bindR (k a) h) st.
Proof. unfold bindR. by destruct (m st) as [[a|e] st']. Qed.

Lemma bindR_ext {A B} (m : Call A) (k1 k2 : A → Call B) st :
  (∀ a st', k1 a st' = k2 a st') → bindR m k1 st = bindR m k2 st.
Proof. intros H. unfold bindR. destruct (m st) as [[a|e] st']; [apply H|done]. Qed.

Lemma bindR_cong {A B} (m1 m2 : Call A) (k : A → Call B) st :
  (∀ st', m1 st' = m2 st') → bindR m1 k st = bindR m2 k st.
Proof. intros H. unfold bindR. by rewrite H. Qed.

Lemma filterR_app f l1 l2 st :
  filterR f (l1 ++ l2) st
  = bindR (filterR f l1) (λ r1, bindR (filterR f l2) (λ r2, pureR (r1 ++ r2))) st.
Proof.
  revert st. induction l1 as [|p l1 IH]; intros st.
  - simpl. unfold bindR, pureR. by destruct (filterR f l2 st) as [[r|e] st'].
  - change ((p :: l1) ++ l2) with (p :: (l1 ++ l2)). cbn [filterR].
    rewrite bindR_assoc. apply bindR_ext. intros b st1.
    rewrite bindR_assoc. unfold bindR at 1. rewrite IH. unfold bindR, pureR.
    destruct (filterR f l1 st1) as [[r1|e] st2]; [|done].
    destruct (filterR f l2 st2) as [[r2|e] st3]; [|done]. by destruct b.
Qed.

(** The inner loop of [findInDomImpl] over the children. *)
Lemma findInDomImpl_children styles path kids :
  Forall (λ child, ∀ p st, p ≠ [] →
            findInDomImpl styles p child st
            = filterR (anyStyleMatches styles) (domPaths p child) st) kids →
  ∀ matches st,
    (fix children (matches : list DomPath) (kids : list Dom) : Call (list DomPath) :=
       match kids with
       | [] => pureR matches
       | child :: kids' =>
           bindR (findInDomImpl styles (path ++ [domRoot child]) child)
             (λ found, children (matches ++ found) kids')
       end) matches kids st
    = bindR (filterR (anyStyleMatches styles)
               (flat_map (λ child, domPaths (path ++ [domRoot child]) child) kids))
        (λ found, pureR (matches ++ found)) st.
Proof.
  induction 1 as [|child kids Hc Hk IH]; intros matches st.
  - simpl. unfold bindR, pureR. by rewrite app_nil_r.
  - cbn [flat_map].
    rewrite (bindR_cong (findInDomImpl styles (path ++ [domRoot child]) child)
               (filterR (anyStyleMatches styles)
                  (domPaths (path ++ [domRoot child]) child)))
      by (intros st'; apply Hc; by destruct path).
    symmetry.
    rewrite (bindR_cong _ _ _ _ (filterR_app (anyStyleMatches styles) _ _)).
    rewrite bindR_assoc. apply bindR_ext. intros found st1.
    rewrite IH, bindR_assoc. apply bindR_ext. intros r2 st2.
    unfold bindR, pureR. by rewrite app_assoc.
Qed.

Lemma findInDomImpl_filter styles dom : ∀ path st,
  path ≠ [] →
  findInDomImpl styles path dom st
  = filterR (anyStyleMatches styles) (domPaths path dom) st.
Proof.
  induction dom as [el kids IH] using Dom_induction. intros path st Hp.
  assert (∃ x, snd (last path) = Some x) as [x Hx].
  { pose proof (last_inv path) as Hl.
    destruct (last path) as [pre [y|]]; simpl; [eauto|]. by destruct Hl. }
  cbn [findInDomImpl domPaths filterR]. rewrite Hx.
  apply bindR_ext. intros b st1.
  rewrite (findInDomImpl_children styles path kids IH).
  apply bindR_ext. intros found st2. by destruct b.
Qed.

Lemma filterR_sublist f l : ∀ st ps st',
  filterR f l st = (Ok ps, st') → sublist ps l.
Proof.
  induction l as [|p l IH]; intros st ps st'; simpl.
  - unfold pureR. intros [= <- _]. constructor.
  - unfold bindR. destruct (f p st) as [[b|e] st1]; [|done].
    destruct (filterR f l st1) as [[found|e] st2] eqn:E; [|done].
    unfold pureR. intros [= <- _]. apply IH in E.
    destruct b; by constructor.
Qed.

Lemma sublist_Forall {A} (P : A → Prop) (l1 l2 : list A) :
  sublist l1 l2 → Forall P l2 → Forall P l1.
Proof.
  intros Hs Hf. apply Forall_forall. intros x Hx.
  rewrite Forall_forall in Hf. apply Hf. by eapply elem_of_sublist.
Qed.

Lemma domPaths_head dom : ∀ path root,
  hd_error path = Some root →
  Forall (λ p, hd_error p = Some root) (domPaths path dom).
Proof.
  induction dom as [el kids IH] using Dom_induction. intros path root Hp.
  cbn [domPaths]. constructor; [done|].
  induction IH as [|child kids Hc Hk IHk]; [constructor|].
  cbn [flat_map]. apply Forall_app. split; [|exact IHk].
  apply Hc. by destruct path.
Qed.

Lemma hd_error_last_Some {T} (p : list T) x :
  hd_error p = Some x → is_Some (snd (last p)).
Proof.
  intros H. pose proof (last_inv p) as Hl.
  destruct (last p) as [pre [y|]]; simpl; [eauto|].
  destruct Hl as [-> _]. done.
Qed.


Lemma findPathsInDom_heads cssWhat_parse ref stylesIn dom st found st' :
  findPathsInDom cssWhat_parse ref stylesIn dom st = (Ok found, st') →
  Forall (λ p, is_Some (snd (last p))) found.
Proof.
  unfold findPathsInDom. destruct stylesIn as [|styles|styleElem].
  - unfold pureR. intros [= <- _]. constructor.
  - unfold bindR, pureR. destruct dom as [dom|]; [|intros [= <- _]; constructor].
    rewrite findInDomImpl_filter by done. intros H.
    apply filterR_sublist in H.
    apply (sublist_Forall _ found _ H).
    eapply Forall_impl; [apply (domPaths_head dom [domRoot dom] (domRoot dom)); done|].
    intros p. simpl. apply hd_error_last_Some.
  - unfold bindR at 1.
    destruct (bindR (buildStyles cssWhat_parse ref (Some styleElem))
                (λ built, pureR (bs_rule <$> built)) st) as [[styles|e] st1]; [|done].
    destruct dom as [dom|]; [|unfold pureR; intros [= <- _]; constructor].
    rewrite findInDomImpl_filter by done. intros H.
    apply filterR_sublist in H.
    apply (sublist_Forall _ found _ H).
    eapply Forall_impl; [apply (domPaths_head dom [domRoot dom] (domRoot dom)); done|].
    intros p. simpl. apply hd_error_last_Some.
Qed.

(** X19: [findElementsInDom] returns the last elements of the paths
    [findPathsInDom] returns, one per path and in the same order, and
    throws what [findPathsInDom] throws. *)
Theorem findElementsInDom_last_elements
    (cssWhat_parse : string → Result ParsedSelector) (ref : nat)
    (stylesIn : StylesIn) (dom : option Dom) (st : UniqueNames) :
  match findPathsInDom cssWhat_parse ref stylesIn dom st with
  | (Ok paths, st') =>
      ∃ elems,
        findElementsInDom cssWhat_parse ref stylesIn dom st = (Ok elems, st') ∧
        Forall2 (λ path e, snd (last path) = Some e) paths elems
  | (Throw e, st') =>
      findElementsInDom cssWhat_parse ref stylesIn dom st = (Throw e, st')
  end.
Proof.
  unfold findElementsInDom, bindR.
  pose proof (findPathsInDom_heads cssWhat_parse ref stylesIn dom st) as Hh.
  destruct (findPathsInDom cssWhat_parse ref stylesIn dom st) as [[paths|e] st']; [|done].
  specialize (Hh paths st' eq_refl). eexists. split; [reflexivity|].
  induction Hh as [|p ps [x Hx] Hps IH]; [constructor|].
  simpl. rewrite Hx. simpl. by constructor.
Qed.

Lemma buildStyles_children_app k1 : ∀ k2 cur raws st,
  buildStyles_children (k1 ++ k2) cur raws st
  = match buildStyles_children k1 cur raws st with
    | (Ok (c, r), st') => buildStyles_children k2 c r st'
    | (Throw e, st') => (Throw e, st')
    end.
Proof.
  induction k1 as [|[ct|s|o|] k1 IH]; intros k2 cur raws st; simpl; try done.
  - destruct (uniqueName ct st) as [name st']. apply IH.
Qed.

Lemma buildStyles_children_raws kids : ∀ cur pre raws st,
  buildStyles_children kids cur (pre ++ raws) st
  = match buildStyles_children kids cur raws st with
    | (Ok (c, r), st') => (Ok (c, pre ++ r), st')
    | (Throw e, st') => (Throw e, st')
    end.
Proof.
  induction kids as [|[ct|s|o|] kids IH]; intros cur pre raws st; simpl; try done.
  - destruct (uniqueName ct st) as [name st']. apply IH.
  - rewrite <- app_assoc. apply IH.
Qed.

Lemma buildStyles_children_total kids : ∀ cur raws st,
  ChildOther ∉ kids →
  ∃ c r st', buildStyles_children kids cur raws st = (Ok (c, r), st').
Proof.
  induction kids as [|[ct|s|o|] kids IH]; intros cur raws st Hn; simpl.
  - unfold pureR. eauto.
  - destruct (uniqueName ct st) as [name st']. apply IH.
    intros H. apply Hn. by right.
  - apply IH. intros H. apply Hn. by right.
  - apply IH. intros H. apply Hn. by right.
  - destruct Hn. left.
Qed.

Lemma buildStyles_children_builds kids : ∀ cur raws st c r st',
  buildStyles_children kids cur raws st = (Ok (c, r), st') →
  raw_build <$> r = (raw_build <$> raws) ++ ruleOverrides kids.
Proof.
  induction kids as [|[ct|s|o|] kids IH]; intros cur raws st c r st';
    cbn [buildStyles_children].
  - unfold pureR. intros [= _ <- _]. by rewrite app_nil_r.
  - destruct (uniqueName ct st) as [name st1]. apply IH.
  - apply IH.
  - intros H. apply IH in H. rewrite H, fmap_app, <- app_assoc. done.
  - done.
Qed.

Section BuildStylesFacts.

Variable cssWhat_parse : string → Result ParsedSelector.


Lemma parseStyles_app r1 : ∀ r2 ref b1 b2,
  parseStyles cssWhat_parse ref r1 = Ok b1 →
  parseStyles cssWhat_parse (ref + length b1) r2 = Ok b2 →
  parseStyles cssWhat_parse ref (r1 ++ r2) = Ok (b1 ++ b2).
Proof.
  induction r1 as [|r r1 IH]; intros r2 ref b1 b2; simpl.
  - intros [= <-]. simpl. by rewrite Nat.add_0_r.
  - destruct (buildStyle cssWhat_parse ref r) as [b|e]; [|done].
    destruct (parseStyles cssWhat_parse (S ref) r1) as [bs|e] eqn:E; [|done].
    intros [= <-] H2. simpl in H2.
    rewrite (IH r2 (S ref) bs b2); [done|done|].
    by rewrite <- H2, Nat.add_succ_r.
Qed.

Lemma buildStyles_Ok ref e kids st built st' :
  buildStyles cssWhat_parse ref (Some (mkStyleElement e kids)) st = (Ok built, st') →
  isStylesComponent (componentType e) = true ∧
  ∃ raws, buildStyles_children kids "" [] st = (Ok ("", raws), st') ∧
          parseStyles cssWhat_parse ref raws = Ok built.
Proof.
  unfold buildStyles. simpl.
  destruct (isStylesComponent (componentType e)); simpl; [|done].
  unfold bindR. destruct (buildStyles_children kids "" [] st) as [[[c r]|err] st1]; [|done].
  case_bool_decide as Hc; simpl; [|done]. subst c.
  intros [= H <-]. eauto.
Qed.

(** X20: building a Style element whose children are those of two
    Style elements, one after the other, gives the rules of the first
    followed by those of the second, when both can be built. *)
Theorem buildStyles_concat (ref : nat) (e1 e2 e : AdaptElement)
    (kids1 kids2 : list StyleChild) (st st1 st2 : UniqueNames)
    (b1 b2 : list BuiltStyle) :
  buildStyles cssWhat_parse ref (Some (mkStyleElement e1 kids1)) st = (Ok b1, st1) →
  buildStyles cssWhat_parse (ref + length b1) (Some (mkStyleElement e2 kids2)) st1
  = (Ok b2, st2) →
  isStylesComponent (componentType e) = true →
  buildStyles cssWhat_parse ref (Some (mkStyleElement e (kids1 ++ kids2))) st
  = (Ok (b1 ++ b2), st2).
Proof.
  intros H1 H2 He.
  apply buildStyles_Ok in H1 as (_ & r1 & Hc1 & Hp1).
  apply buildStyles_Ok in H2 as (_ & r2 & Hc2 & Hp2).
  unfold buildStyles. simpl. rewrite He. simpl. unfold bindR.
  rewrite buildStyles_children_app, Hc1.
  rewrite <- (app_nil_r r1), buildStyles_children_raws, Hc2. simpl.
  by rewrite (parseStyles_app r1 r2 ref b1 b2).
Qed.

Lemma parseStyles_refs raws : ∀ ref built,
  parseStyles cssWhat_parse ref raws = Ok built →
  (λ b, ruleRef (bs_rule b)) <$> built = seq ref (length raws) ∧
  (λ b, (selector (bs_rule b), bs_sfc b)) <$> built
  = (λ r, (raw_selector r, raw_build r)) <$> raws.
Proof.
  induction raws as [|r raws IH]; intros ref built; simpl.
  - by intros [= <-].
  - unfold buildStyle. destruct (cssWhat_parse (raw_selector r)) as [sel|e]; [|done].
    destruct (parseStyles cssWhat_parse (S ref) raws) as [bs|e] eqn:E; [|done].
    intros [= <-]. destruct (IH _ _ E) as [H1 H2].
    rewrite !fmap_cons. simpl. by rewrite H1, H2.
Qed.

Lemma string_app_empty (a b : string) : a +:+ b = "" → b = "".
Proof. destruct a; [done|]. by rewrite string_app_cons. Qed.

(** X21: what [buildStyles] makes of the children of a Style element.
    It throws at the first child that is neither a component, a text nor
    a rule, and it throws "Missing rule in final style" when the
    children end with a text that is not empty.  When it returns, there
    is one style per [Rule] child, in order, each with the [override] of
    its rule as build function. *)
Theorem buildStyles_outcome (ref : nat) (e : AdaptElement)
    (kids : list StyleChild) (st : UniqueNames) :
  isStylesComponent (componentType e) = true →
  let r := buildStyles cssWhat_parse ref (Some (mkStyleElement e kids)) st in
  (∀ before after, kids = before ++ ChildOther :: after → ChildOther ∉ before →
     fst r = Throw (Error "Unsupported child type in Styles: ")) ∧
  (∀ before s, kids = before ++ [ChildText s] → ChildOther ∉ before → s ≠ "" →
     fst r = Throw (Error "Missing rule in final style")) ∧
  (∀ built, fst r = Ok built → bs_sfc <$> built = ruleOverrides kids).
Proof.
  intros He r. split; [|split].
  - intros before after -> Hn. unfold r, buildStyles. simpl. rewrite He. simpl.
    unfold bindR. rewrite buildStyles_children_app.
    destruct (buildStyles_children_total before "" [] st Hn) as (c & rs & st' & ->).
    done.
  - intros before s -> Hn Hs. unfold r, buildStyles. simpl. rewrite He. simpl.
    unfold bindR. rewrite buildStyles_children_app.
    destruct (buildStyles_children_total before "" [] st Hn) as (c & rs & st' & ->).
    simpl. unfold pureR. rewrite bool_decide_false; [done|].
    intros H. by apply string_app_empty in H.
  - intros built Hb. destruct r as [res st'] eqn:E. simpl in Hb. subst res.
    apply buildStyles_Ok in E as (_ & raws & Hc & Hp).
    apply buildStyles_children_builds in Hc. simpl in Hc.
    destruct (parseStyles_refs _ _ _ Hp) as [_ Hr].
    apply (f_equal (fmap snd)) in Hr. rewrite <- !list_fmap_compose in Hr.
    rewrite <- Hc. exact Hr.
Qed.

End BuildStylesFacts.

(** Witness of [buildStyles_concat]: two Style elements with one rule
    each, the first for the component type A. *)
Lemma buildStyles_concat_witness :
  ∃ b1 b2 st1 st2,
    buildStyles ex_parse 0
      (Some (mkStyleElement ex_style [ChildComponent ex_ctA; ChildRule 1]))
      (mkUniqueNames ∅ 0) = (Ok b1, st1) ∧
    buildStyles ex_parse (0 + length b1)
      (Some (mkStyleElement ex_style [ChildText " UniqueName0A "; ChildRule 2]))
      st1 = (Ok b2, st2) ∧
    isStylesComponent (componentType ex_style) = true ∧
    buildStyles ex_parse 0
      (Some (mkStyleElement ex_style
               ([ChildComponent ex_ctA; ChildRule 1]
                ++ [ChildText " UniqueName0A "; ChildRule 2])))
      (mkUniqueNames ∅ 0) = (Ok (b1 ++ b2), st2).
Proof.
  eexists _, _, _, _.
  split; [reflexivity|]. split; [reflexivity|]. split; [reflexivity|].
  eapply (buildStyles_concat ex_parse 0 ex_style ex_style ex_style
           [ChildComponent ex_ctA; ChildRule 1]
           [ChildText " UniqueName0A "; ChildRule 2]
           (mkUniqueNames ∅ 0));
    reflexivity.
Defined.

(** Witness of [buildStyles_outcome]: a selector without rule. *)
Lemma buildStyles_outcome_witness :
  isStylesComponent (componentType ex_style) = true ∧
  fst (buildStyles ex_parse 0 (Some (mkStyleElement ex_style [ChildText "A"]))
         (mkUniqueNames ∅ 0))
  = Throw (Error "Missing rule in final style").
Proof.
  split; [reflexivity|].
  pose proof (buildStyles_outcome ex_parse 0 ex_style [ChildText "A"]
                (mkUniqueNames ∅ 0) eq_refl) as H.
  cbv zeta in H. destruct H as (_ & H2 & _).
  apply (H2 [] "A"); [reflexivity|apply not_elem_of_nil|discriminate].
Defined.

End DomSearchFacts.

(** ** The records of the match registry (css.ts) *)

Module MatchRecordFacts.
Import Css CssRegistryFacts.

#[local] Open Scope nat_scope.

Lemma runOp_never reg op el :
  neverMatchSet reg el = true → neverMatchSet (runOp reg op) el = true.
Proof.
  intros H. destruct op as [e r|e r|e|e|f t|info e]; simpl.
  - by rewrite ruleHasMatched_reg, neverMatchSet_getCssMatched.
  - by rewrite ruleMatches_never.
  - by rewrite neverMatch_never, H, orb_true_r.
  - by rewrite canMatch_reg, neverMatchSet_getCssMatched.
  - by rewrite copyRuleMatches_never, H.
  - unfold ruleNoRematch. destruct (mounted e); [done|].
    destruct (hasMatchInfoReg info); simpl; [|done].
    by rewrite copyRuleMatches_never, H.
Qed.

Lemma runOps_never ops : ∀ reg el,
  neverMatchSet reg el = true → neverMatchSet (runOps reg ops) el = true.
Proof.
  induction ops as [|op ops IH]; intros reg el H; simpl; [done|].
  apply IH. by apply runOp_never.
Qed.

(** X22: [neverMatch] is permanent and touches nothing else.  Once an
    element is marked, [canMatch] answers no for it after any further
    calls on the registry; the rules recorded for it, and everything
    recorded for other elements, are as before. *)
Theorem never_match_is_permanent (reg : gmap nat MatchInfo) (E : AdaptElement)
    (ops : list RegOp) :
  let reg1 := neverMatch reg E in
  fst (canMatch reg1 E) = false ∧
  fst (canMatch (runOps reg1 ops) E) = false ∧
  (∀ R, fst (ruleHasMatched reg1 E R) = fst (ruleHasMatched reg E R)) ∧
  (∀ E', elRef E' ≠ elRef E →
     fst (canMatch reg1 E') = fst (canMatch reg E') ∧
     ∀ R, fst (ruleHasMatched reg1 E' R) = fst (ruleHasMatched reg E' R)).
Proof.
  cbv zeta.
  assert (neverMatchSet (neverMatch reg E) E = true) as Hn.
  { rewrite neverMatch_never. by rewrite bool_decide_true. }
  split; [by rewrite canMatch_spec, Hn|].
  split; [by rewrite canMatch_spec, runOps_never|].
  split.
  - intros R. by rewrite !ruleHasMatched_spec, neverMatch_matched.
  - intros E' Hne. split.
    + rewrite !canMatch_spec, neverMatch_never.
      by rewrite (bool_decide_false (elRef E = elRef E')) by congruence.
    + intros R. by rewrite !ruleHasMatched_spec, neverMatch_matched.
Qed.

(** X23: the registry keeps its records by element and by rule.  The
    queries [ruleHasMatched] and [canMatch] change no answer;
    [ruleMatches], [neverMatch] and [copyRuleMatches] change no answer
    about an element other than the one they write to; and recording a
    rule for an element changes no answer about another rule. *)
Theorem registry_updates_are_local (reg : gmap nat MatchInfo)
    (target other : AdaptElement) (r r' : StyleRule) (fromEl : AdaptElement) :
  (∀ op, op = ORuleHasMatched target r ∨ op = OCanMatch target →
     fst (ruleHasMatched (runOp reg op) other r') = fst (ruleHasMatched reg other r') ∧
     fst (canMatch (runOp reg op) other) = fst (canMatch reg other)) ∧
  (elRef other ≠ elRef target →
   ∀ op, op = ORuleMatches target r ∨ op = ONeverMatch target
         ∨ op = OCopyRuleMatches fromEl target →
     fst (ruleHasMatched (runOp reg op) other r') = fst (ruleHasMatched reg other r') ∧
     fst (canMatch (runOp reg op) other) = fst (canMatch reg other)) ∧
  (ruleRef r' ≠ ruleRef r →
   fst (ruleHasMatched (ruleMatches reg target r) target r')
   = fst (ruleHasMatched reg target r')).
Proof.
  split; [|split].
  - intros op [->| ->]; simpl; rewrite !ruleHasMatched_spec, !canMatch_spec.
    + by rewrite ruleHasMatched_reg, matchedRules_getCssMatched,
        neverMatchSet_getCssMatched.
    + by rewrite canMatch_reg, matchedRules_getCssMatched,
        neverMatchSet_getCssMatched.
  - intros Hne op [->|[->| ->]]; simpl; rewrite !ruleHasMatched_spec, !canMatch_spec.
    + rewrite ruleMatches_matched, ruleMatches_never.
      by rewrite decide_False by congruence.
    + rewrite neverMatch_matched, neverMatch_never.
      by rewrite (bool_decide_false (elRef target = elRef other)) by congruence.
    + rewrite copyRuleMatches_matched, copyRuleMatches_never.
      rewrite decide_False by congruence.
      rewrite (bool_decide_false (elRef target = elRef other)) by congruence.
      rewrite andb_false_r, orb_false_r. by destruct (neverMatchSet reg fromEl).
  - intros Hne. rewrite !ruleHasMatched_spec, ruleMatches_matched.
    rewrite decide_True by done. apply bool_decide_ext.
    destruct (mi_matched (fst (getCssMatched reg target)));
      rewrite elem_of_union, elem_of_singleton; intuition congruence.
Qed.

End MatchRecordFacts.
